(** * some-sass: module graph, scanner and variable completion

    A shallow embedding of the parts of the some-sass language server that
    its specification talks about:

    - [createVariableCompletionItems] (server/src/features/completion/
      variable-completion.ts), translated statement by statement;
    - the handlers of [SomeSassServer.listen] (server.ts) that call the
      scanner or hand its settings on: [onInitialized],
      [onDidChangeContent], [onDidChangeConfiguration],
      [onDidChangeWatchedFiles] and [onCompletion];
    - the document store, the path resolver, the link and symbol extractor
      and the scanner, which the handlers and the tests call but whose
      sources are not part of the tree at hand: these are modelled from the
      specification and marked as such. *)

From stdpp Require Import base option list strings gmap fin_maps.
From Stdlib Require Import Ascii Lia.
From Stdlib Require String.

Local Open Scope stdpp_scope.

(** ** JavaScript strings *)

Module JS.

(** Lower case on the ASCII range: the letters [A] to [Z] are moved, every
    other character stays. This is what [String.prototype.toLowerCase]
    does to a string of ASCII characters; what it does to other strings
    takes the case tables of Unicode, which are not modelled. *)
Definition lowerAscii (c : ascii) : ascii :=
  let n := nat_of_ascii c in
  if (65 <=? n)%nat && (n <=? 90)%nat then ascii_of_nat (n + 32) else c.

Fixpoint toLowerAscii (s : string) : string :=
  match s with
  | EmptyString => EmptyString
  | String c r => String (lowerAscii c) (toLowerAscii r)
  end.

(** Every character is in the ASCII range. *)
Fixpoint isAscii (s : string) : bool :=
  match s with
  | EmptyString => true
  | String c r => (nat_of_ascii c <? 128)%nat && isAscii r
  end.

(** [String(error)] for an [Error] whose name is [Error]
    ([Error.prototype.toString]): the name alone when the message is
    empty, the name, a colon and the message otherwise. *)
Definition errorToString (message : string) : string :=
  match message with
  | EmptyString => "Error"
  | _ => "Error: " +:+ message
  end.

(** [s.startsWith(p)] *)
Fixpoint startsWith (p s : string) : bool :=
  match p, s with
  | EmptyString, _ => true
  | String a p', String b s' => if Ascii.eqb a b then startsWith p' s' else false
  | String _ _, EmptyString => false
  end.

Fixpoint lastChar (s : string) : option ascii :=
  match s with
  | EmptyString => None
  | String c EmptyString => Some c
  | String _ r => lastChar r
  end.

(** [s.endsWith(c)] for a one-character needle. *)
Definition endsWithChar (c : ascii) (s : string) : bool :=
  match lastChar s with
  | Some d => Ascii.eqb c d
  | None => false
  end.

(** Truthiness of a [string | undefined] value: [undefined], [null] and
    the empty string are falsy. *)
Definition truthy (o : option string) : bool :=
  match o with
  | Some EmptyString => false
  | Some _ => true
  | None => false
  end.

(** [a || b] on [string | null] operands. *)
Definition orElse (a b : option string) : option string :=
  if truthy a then a else b.

(** [xs.includes(x)] *)
Definition includes (x : string) (xs : list string) : bool :=
  existsb (String.eqb x) xs.

End JS.

(** ** Data model *)

(** Doc-comment metadata attached to a symbol (the fields the completion
    provider reads). *)
Record SassDoc := mkSassDoc {
  sd_description : option string;
  sd_deprecated : option string
}.

(** [ScssVariable]: [name] carries the sigil; [mixin] is the optional
    owning-mixin reference. *)
Record ScssVariable := mkVariable {
  v_name : string;
  v_value : option string;
  v_mixin : option string;
  v_sassdoc : option SassDoc;
  v_offset : nat
}.

(** A parameter of a mixin or function signature. *)
Record ScssParameter := mkParameter {
  p_name : string;
  p_value : option string
}.

Record ScssMixin := mkMixin {
  m_name : string;
  m_parameters : list ScssParameter;
  m_offset : nat
}.

Record ScssFunction := mkFunction {
  f_name : string;
  f_parameters : list ScssParameter;
  f_offset : nat
}.

Record ScssUse := mkUse {
  use_link : string;
  use_target : option string;
  use_namespace : option string;
  use_isAliased : bool
}.

Record ScssForward := mkForward {
  fw_link : string;
  fw_target : option string;
  fw_prefix : option string;
  fw_hide : list string
}.

Record ScssImport := mkImport {
  imp_link : string;
  imp_target : option string
}.

(** [IScssDocument]: JavaScript [Map]s iterate in insertion order, so the
    symbol and link maps are association lists in that order. *)
Record ScssDocument := mkDocument {
  d_uri : string;
  d_fileName : string;
  d_variables : list (string * ScssVariable);
  d_mixins : list (string * ScssMixin);
  d_functions : list (string * ScssFunction);
  d_imports : list (string * ScssImport);
  d_uses : list (string * ScssUse);
  d_forwards : list (string * ScssForward)
}.

(** [TextDocument] of the language-server protocol. *)
Record TextDocument := mkTextDocument {
  td_uri : string;
  td_version : Z;
  td_text : string
}.

(** [Map.prototype.values()] *)
Definition values {A} (m : list (string * A)) : list A := map snd m.

(** ** Variable completion (variable-completion.ts) *)

Inductive CompletionItemKind := KindColor | KindVariable.

Inductive CompletionItemTag := TagDeprecated.

Inductive Documentation :=
| DocString (s : string)
| DocMarkdown (value : string).

Record CompletionItem := mkItem {
  label : string;
  filterText : option string;
  insertText : option string;
  sortText : option string;
  commitCharacters : list string;
  kind : CompletionItemKind;
  detail : string;
  tags : list CompletionItemTag;
  documentation : Documentation
}.

Record CompletionContext := mkContext {
  word : string;
  namespace : option string;
  originalExtension : string
}.

(** The helpers that variable-completion.ts imports from utils/scss,
    utils/string, utils/sassdoc, color-completion and completion-utils.
    Their sources are not at hand, so the completion code is stated over
    any implementation of them. [String.prototype.toLowerCase] of the
    runtime goes with them: it lowers every cased letter of Unicode, and
    its tables are not modelled. *)
Class CompletionUtils := {
  toLowerCase : string -> string;
  isReferencingVariable : ScssVariable -> bool;
  getBaseValueFrom : ScssVariable -> ScssDocument -> ScssVariable;
  isColor : string -> option string;
  getLimitedString : string -> string;
  applySassDoc : ScssVariable -> string;
  asDollarlessVariable : string -> string;
  rePrivate : string -> bool
}.

Section VariableCompletion.
Context `{U : CompletionUtils}.

(** [label.replace(/^$[_-]/, '')]: in the pattern [$] is the unescaped
    end-of-input anchor, so it asks for a character after the end of the
    input and matches nothing; the replacement returns its subject. *)
Definition replaceSortPrefix (subject : string) : string := subject.

Definition isEmbedded (context : CompletionContext) : bool :=
  negb (String.eqb (originalExtension context) "scss").

(** One iteration of the [for (const variable of ...)] loop. [None] is a
    [continue]; [Some item] is the argument of [completions.push]. *)
Definition variableCompletionItem
    (scssDocument : ScssDocument) (currentDocument : TextDocument)
    (context : CompletionContext) (hiddenSymbols : list string)
    (prefix : string) (variable : ScssVariable) : option CompletionItem :=
  let value :=
    if isReferencingVariable variable
    then v_value (getBaseValueFrom variable scssDocument)
    else v_value variable in
  let color :=
    if JS.truthy value then isColor (default EmptyString value) else None in
  let completionKind :=
    if JS.truthy color then KindColor else KindVariable in
  let documentation0 :=
    getLimitedString (default EmptyString (JS.orElse (JS.orElse color value) (Some EmptyString))) in
  let detail0 := "Variable declared in " +:+ d_fileName scssDocument in
  let label0 := v_name variable in
  (* if (variable.mixin) { ... } else { ... } *)
  let branch : option (string * option string * string) :=
    if JS.truthy (v_mixin variable) then
      Some ("Argument from " +:+ default EmptyString (v_mixin variable) +:+ ", "
              +:+ toLowerCase detail0,
            None, documentation0)
    else
      let isPrivate := rePrivate (v_name variable) in
      let isFromCurrentDocument :=
        String.eqb (d_uri scssDocument) (td_uri currentDocument) in
      if isPrivate && negb isFromCurrentDocument then None
      else if JS.includes (v_name variable) hiddenSymbols then None
      else
        let sortText := if isPrivate then Some (replaceSortPrefix label0) else None in
        let sassdoc := applySassDoc variable in
        let documentation1 :=
          if JS.truthy (Some sassdoc)
          then documentation0 +:+ String "010"%char (String "010"%char sassdoc)
          else documentation0 in
        Some (detail0, sortText, documentation1) in
  match branch with
  | None => None
  | Some (detail1, sortText, documentation1) =>
      let embedded := isEmbedded context in
      let '(label1, filterText, insertText) :=
        if JS.truthy (namespace context) then
          let ns := default EmptyString (namespace context) in
          let label1 := "$" +:+ prefix +:+ asDollarlessVariable (v_name variable) in
          let insertText :=
            if JS.endsWithChar "."%char (word context)
            then (if embedded then EmptyString else ".") +:+ label1
            else if embedded then asDollarlessVariable label1 else label1 in
          let filterText :=
            if JS.endsWithChar "."%char (word context)
            then ns +:+ "." +:+ label1
            else label1 in
          (label1, Some filterText, Some insertText)
        else if embedded then
          (label0, None, Some (asDollarlessVariable label0))
        else (label0, None, None) in
      Some {| label := label1;
              filterText := filterText;
              insertText := insertText;
              sortText := sortText;
              commitCharacters := [";"; ","];
              kind := completionKind;
              detail := detail1;
              tags := match v_sassdoc variable with
                      | Some sd => if JS.truthy (sd_deprecated sd)
                                   then [TagDeprecated] else []
                      | None => []
                      end;
              documentation :=
                match completionKind with
                | KindColor => DocString documentation1
                | KindVariable => DocMarkdown documentation1
                end |}
  end.

(** The loop itself: [completions] starts empty and every iteration that
    does not [continue] pushes one item at the end. *)
Definition createVariableCompletionItems
    (scssDocument : ScssDocument) (currentDocument : TextDocument)
    (context : CompletionContext) (hiddenSymbols : list string)
    (prefix : string) : list CompletionItem :=
  fold_left
    (fun completions variable =>
       match variableCompletionItem scssDocument currentDocument context
               hiddenSymbols prefix variable with
       | Some item => completions ++ [item]
       | None => completions
       end)
    (values (d_variables scssDocument)) [].

End VariableCompletion.

(** ** Text utilities used by the extractor and the path resolver *)

Module Text.

Definition isSpace (c : ascii) : bool :=
  Ascii.eqb c " " || Ascii.eqb c "009" || Ascii.eqb c "010" || Ascii.eqb c "013".

Definition isQuote (c : ascii) : bool :=
  Ascii.eqb c "034" || Ascii.eqb c "'".

Definition isOpen (c : ascii) : bool :=
  Ascii.eqb c "(" || Ascii.eqb c "[".

Definition isClose (c : ascii) : bool :=
  Ascii.eqb c ")" || Ascii.eqb c "]".

Fixpoint trimStart (s : string) : string :=
  match s with
  | String c r => if isSpace c then trimStart r else s
  | EmptyString => EmptyString
  end.

Fixpoint trimEnd (s : string) : string :=
  match s with
  | String c r =>
      match trimEnd r with
      | EmptyString => if isSpace c then EmptyString else String c EmptyString
      | r' => String c r'
      end
  | EmptyString => EmptyString
  end.

Definition trim (s : string) : string := trimEnd (trimStart s).

(** Longest prefix whose characters satisfy [p], and the rest. *)
Fixpoint span (p : ascii -> bool) (s : string) : string * string :=
  match s with
  | String c r =>
      if p c then let '(a, b) := span p r in (String c a, b)
      else (EmptyString, s)
  | EmptyString => (EmptyString, EmptyString)
  end.

(** [s] without the prefix [p], when it starts with it. *)
Fixpoint stripPrefix (p s : string) : option string :=
  match p, s with
  | EmptyString, _ => Some s
  | String a p', String b s' =>
      if Ascii.eqb a b then stripPrefix p' s' else None
  | String _ _, EmptyString => None
  end.

Definition endsWith (suffix s : string) : bool :=
  JS.startsWith (String.rev suffix) (String.rev s).

(** [s.split(sep)] for a one-character separator. *)
Fixpoint split (sep : ascii) (s : string) : list string :=
  match s with
  | EmptyString => [EmptyString]
  | String c r =>
      if Ascii.eqb c sep then EmptyString :: split sep r
      else match split sep r with
           | h :: t => String c h :: t
           | [] => [String c EmptyString]
           end
  end.

Fixpoint join (sep : string) (l : list string) : string :=
  match l with
  | [] => EmptyString
  | [x] => x
  | x :: r => x +:+ sep +:+ join sep r
  end.

(** *** Quote- and bracket-aware scanning

    The scanner state is the bracket depth and the quote character of the
    string literal being read, if any. *)
Definition Mode : Type := nat * option ascii.

Definition top : Mode := (0, None).

Definition isTop (m : Mode) : bool :=
  match m with
  | (0, None) => true
  | _ => false
  end.

Definition scanChar (m : Mode) (c : ascii) : Mode :=
  match m with
  | (d, Some q) => if Ascii.eqb c q then (d, None) else m
  | (d, None) =>
      if isQuote c then (d, Some c)
      else if isOpen c then (S d, None)
      else if isClose c then (pred d, None)
      else m
  end.

(** Split at every occurrence of [sep] met at depth 0 outside a string
    literal. *)
Fixpoint splitTop (sep : ascii) (m : Mode) (s : string) : list string :=
  match s with
  | EmptyString => [EmptyString]
  | String c r =>
      if Ascii.eqb c sep && isTop m then EmptyString :: splitTop sep m r
      else match splitTop sep (scanChar m c) r with
           | h :: t => String c h :: t
           | [] => [String c EmptyString]
           end
  end.

(** The characters at which a statement ends. *)
Definition endsStatement (c : ascii) : bool :=
  Ascii.eqb c ";" || Ascii.eqb c "{" || Ascii.eqb c "}".

(** The statements of a text: it is cut at every [;], [{] and [}] met at
    depth 0 outside a string literal, so that a statement may run over
    several lines and a parameter list is never cut. *)
Fixpoint statements (m : Mode) (s : string) : list string :=
  match s with
  | EmptyString => [EmptyString]
  | String c r =>
      if endsStatement c && isTop m then EmptyString :: statements m r
      else match statements (scanChar m c) r with
           | h :: t => String c h :: t
           | [] => [String c EmptyString]
           end
  end.

(** Cut at the first occurrence of [sep] met at depth 0 outside a string
    literal; [None] as second component when there is none. *)
Fixpoint cutTop (sep : ascii) (m : Mode) (s : string) : string * option string :=
  match s with
  | EmptyString => (EmptyString, None)
  | String c r =>
      if Ascii.eqb c sep && isTop m then (EmptyString, Some r)
      else let '(a, b) := cutTop sep (scanChar m c) r in (String c a, b)
  end.

(** The text up to the parenthesis that closes the one just opened, and
    what follows it; [None] when it is never closed. *)
Fixpoint untilClose (m : Mode) (s : string) : option (string * string) :=
  match s with
  | EmptyString => None
  | String c r =>
      if Ascii.eqb c ")" && isTop m then Some (EmptyString, r)
      else match untilClose (scanChar m c) r with
           | Some (a, b) => Some (String c a, b)
           | None => None
           end
  end.

End Text.

(** ** File system capability *)

(** Modelled from the spec: the file system provider is not among the
    sources; section 6 gives its [exists(path)] and [readFile(path)]. A
    file that is there but cannot be read is [Unreadable]. *)
Inductive File :=
| Readable (content : string)
| Unreadable (reason : string).

(** Modelled from the spec: the files at hand, a finite map from URI to
    file. *)
Record FileSystem := mkFS { fs_files : gmap string File }.

(** Modelled from the spec: [exists(path)]; absence is a negative result. *)
Definition fsExists (fs : FileSystem) (uri : string) : bool :=
  bool_decide (is_Some (fs_files fs !! uri)).

Inductive result (A : Type) :=
| Ok (a : A)
| Err (message : string).
Arguments Ok {A} a.
Arguments Err {A} message.

(** Modelled from the spec: [readFile(path)]. *)
Definition readFile (fs : FileSystem) (uri : string) : result string :=
  match fs_files fs !! uri with
  | Some (Readable content) => Ok content
  | Some (Unreadable reason) => Err reason
  | None => Err ("ENOENT: " +:+ uri)
  end.

(** ** Path resolver

    The path resolver is not among the sources; this module follows
    section 4.1 of the specification. URIs are absolute, already canonical
    paths whose segments are separated by [/]. *)

Module PathResolver.

Definition stripQuotes (s : string) : string :=
  let s1 := match s with
            | String c r => if Text.isQuote c then r else s
            | EmptyString => EmptyString
            end in
  match JS.lastChar s1 with
  | Some c => if Text.isQuote c
              then String.substring 0 (String.length s1 - 1) s1 else s1
  | None => s1
  end.

(** The node-modules-style leading marker. *)
Definition stripModuleMarker (s : string) : string :=
  match s with
  | String "~" r => r
  | _ => s
  end.

(** Segments of a path, [.] and empty segments dropped and [..] applied. *)
Fixpoint normalize (acc : list string) (segments : list string) : list string :=
  match segments with
  | [] => acc
  | seg :: rest =>
      if String.eqb seg EmptyString || String.eqb seg "." then normalize acc rest
      else if String.eqb seg ".." then normalize (removelast acc) rest
      else normalize (acc ++ [seg]) rest
  end.

Definition segmentsOf (path : string) : list string :=
  normalize [] (Text.split "/" path).

Definition toPath (segments : list string) : string :=
  "/" +:+ Text.join "/" segments.

Definition hasStylesheetExtension (name : string) : bool :=
  Text.endsWith ".scss" name || Text.endsWith ".sass" name.

(** Modelled from the spec: the candidates of the path resolver (section
    4.1), which is not among the sources, in priority order: the reference
    as it is when it carries a stylesheet extension, otherwise [name.scss],
    [name.sass], the partial forms, the directory-index forms. *)
Definition candidates (fromURI rawReference : string) : list string :=
  let reference := stripModuleMarker (stripQuotes rawReference) in
  let dir := removelast (segmentsOf fromURI) in
  let segments := normalize dir (Text.split "/" reference) in
  match segments with
  | [] => []
  | _ =>
      let parent := removelast segments in
      let name := List.last segments EmptyString in
      if hasStylesheetExtension name then [toPath segments]
      else
        map toPath
          [ parent ++ [name +:+ ".scss"];
            parent ++ [name +:+ ".sass"];
            parent ++ ["_" +:+ name +:+ ".scss"];
            parent ++ ["_" +:+ name +:+ ".sass"];
            parent ++ [name; "_index.scss"];
            parent ++ [name; "_index.sass"];
            parent ++ [name; "index.scss"];
            parent ++ [name; "index.sass"] ]
  end.

(** Modelled from the spec: [resolve(fromURI, rawReference)] of the path
    resolver (section 4.1), which is not among the sources: the first
    candidate that exists, [None] when there is none. *)
Definition resolve (fs : FileSystem) (fromURI rawReference : string) : option string :=
  List.find (fsExists fs) (candidates fromURI rawReference).

End PathResolver.

(** ** Link and symbol extractor

    The parser is not among the sources; this module follows section 4.2 of
    the specification. The text is read statement by statement; a
    statement ends at a [;], [{] or [}] outside string literals and
    brackets, wherever the lines break. *)

Module Extractor.

Record RawUse := mkRawUse {
  ru_link : string;
  ru_alias : option string
}.

Record RawForward := mkRawForward {
  rf_link : string;
  rf_prefix : option string;
  rf_hide : list string
}.

Record Parsed := mkParsed {
  variables : list (string * ScssVariable);
  mixins : list (string * ScssMixin);
  functions : list (string * ScssFunction);
  uses : list RawUse;
  forwards : list RawForward;
  imports : list string
}.

Definition empty : Parsed := mkParsed [] [] [] [] [] [].

(** [Map.prototype.set]: an existing key keeps its place and gets the new
    value, a new key goes last. *)
Fixpoint mapSet {A} (key : string) (v : A) (m : list (string * A)) : list (string * A) :=
  match m with
  | [] => [(key, v)]
  | (k, w) :: r => if String.eqb k key then (k, v) :: r else (k, w) :: mapSet key v r
  end.

Definition nonBlank (s : string) : bool :=
  negb (String.eqb s EmptyString).

(** *** Parameter lists *)

(** Modelled from the spec: one parameter of a signature (section 4.2; the
    parser is not among the sources): the name before the first top-level
    colon, the default after it. No colon, or nothing after it, is no
    default: [null]. *)
Definition parseParameter (piece : string) : ScssParameter :=
  let '(before, after) := Text.cutTop ":" Text.top piece in
  {| p_name := Text.trim before;
     p_value := match after with
                | Some raw =>
                    let d := Text.trim raw in
                    if nonBlank d then Some d else None
                | None => None
                end |}.

(** Modelled from the spec: the parameter list of a signature (section
    4.2; the parser is not among the sources): the text between the
    parentheses, cut at top-level commas with quote and bracket depth
    tracked; blank pieces (an empty list, a trailing comma) are dropped. *)
Definition parseParameters (text : string) : list ScssParameter :=
  map parseParameter
    (filter (fun piece => nonBlank (Text.trim piece) = true)
       (Text.splitTop "," Text.top text)).

Definition isNameChar (c : ascii) : bool :=
  negb (Text.isSpace c || Ascii.eqb c "(" || Ascii.eqb c "{" || Ascii.eqb c ";").

(** Modelled from the spec: a mixin or function declaration (section 4.2;
    the parser is not among the sources): [name(parameters) ...] or
    [name ...] after [@mixin] / [@function]. *)
Definition parseSignature (s : string) : string * list ScssParameter :=
  let '(name, rest) := Text.span isNameChar (Text.trimStart s) in
  match Text.trimStart rest with
  | String "(" r =>
      match Text.untilClose Text.top r with
      | Some (inside, _) => (name, parseParameters inside)
      | None => (name, [])
      end
  | _ => (name, [])
  end.

(** *** Module links *)

(** The quoted reference that follows the at-keyword, and the rest. *)
Definition parseQuoted (s : string) : option (string * string) :=
  match Text.trimStart s with
  | String q r =>
      if Text.isQuote q then
        let '(url, rest) := Text.span (fun c => negb (Ascii.eqb c q)) r in
        match rest with
        | String _ rest' => Some (url, rest')
        | EmptyString => None
        end
      else None
  | EmptyString => None
  end.

Definition isClauseChar (c : ascii) : bool :=
  negb (Text.isSpace c || Ascii.eqb c ";").

(** The keyword [kw] followed by white space, when [s] starts with it. *)
Definition afterKeyword (kw s : string) : option string :=
  match Text.stripPrefix kw (Text.trimStart s) with
  | Some (String c r) => if Text.isSpace c then Some (Text.trimStart r) else None
  | _ => None
  end.

(** An optional [as <token>] clause. *)
Definition parseAs (s : string) : option string * string :=
  match afterKeyword "as" s with
  | Some r => let '(token, rest) := Text.span isClauseChar r in (Some token, rest)
  | None => (None, s)
  end.

(** An optional [hide <name>, <name> ...] clause. *)
Definition parseHide (s : string) : list string :=
  match afterKeyword "hide" s with
  | Some r =>
      let '(names, _) := Text.span (fun c => negb (Ascii.eqb c ";")) r in
      filter (fun n => nonBlank n = true) (map Text.trim (Text.split "," names))
  | None => []
  end.

(** [color-*] is the prefix [color-]. *)
Definition prefixOf (token : string) : string :=
  if JS.endsWithChar "*" token
  then String.substring 0 (String.length token - 1) token
  else token.

(** *** Statements *)

Definition parseVariable (offset : nat) (s : string) : option ScssVariable :=
  match Text.cutTop ":" Text.top s with
  | (before, Some after) =>
      let '(value, _) := Text.cutTop ";" Text.top after in
      Some {| v_name := Text.trim before;
              v_value := Some (Text.trim value);
              v_mixin := None;
              v_sassdoc := None;
              v_offset := offset |}
  | (_, None) => None
  end.

(** Modelled from the spec: the at-rule and declaration matcher of the
    extractor (section 4.2; the parser is not among the sources). One
    statement, starting at [offset], added to what was found so far. *)
Definition parseStatement (offset : nat) (line : string) (acc : Parsed) : Parsed :=
  let s := Text.trimStart line in
  let at_ := offset + (String.length line - String.length s) in
  match s with
  | String "$" _ =>
      match parseVariable at_ s with
      | Some v =>
          mkParsed (mapSet (v_name v) v (variables acc)) (mixins acc)
            (functions acc) (uses acc) (forwards acc) (imports acc)
      | None => acc
      end
  | _ =>
      match afterKeyword "@mixin" s, afterKeyword "@function" s with
      | Some r, _ =>
          let '(name, ps) := parseSignature r in
          mkParsed (variables acc) (mapSet name (mkMixin name ps at_) (mixins acc))
            (functions acc) (uses acc) (forwards acc) (imports acc)
      | None, Some r =>
          let '(name, ps) := parseSignature r in
          mkParsed (variables acc) (mixins acc)
            (mapSet name (mkFunction name ps at_) (functions acc))
            (uses acc) (forwards acc) (imports acc)
      | None, None =>
          match Text.stripPrefix "@use" s, Text.stripPrefix "@forward" s,
                Text.stripPrefix "@import" s with
          | Some r, _, _ =>
              match parseQuoted r with
              | Some (url, rest) =>
                  mkParsed (variables acc) (mixins acc) (functions acc)
                    (uses acc ++ [mkRawUse url (fst (parseAs rest))])
                    (forwards acc) (imports acc)
              | None => acc
              end
          | None, Some r, _ =>
              match parseQuoted r with
              | Some (url, rest) =>
                  let '(token, rest') := parseAs rest in
                  mkParsed (variables acc) (mixins acc) (functions acc) (uses acc)
                    (forwards acc
                       ++ [mkRawForward url (prefixOf <$> token) (parseHide rest')])
                    (imports acc)
              | None => acc
              end
          | None, None, Some r =>
              match parseQuoted r with
              | Some (url, _) =>
                  mkParsed (variables acc) (mixins acc) (functions acc) (uses acc)
                    (forwards acc) (imports acc ++ [url])
              | None => acc
              end
          | None, None, None => acc
          end
      end
  end.

(** The statements one after the other; each starts one character after
    the end of the one before. *)
Fixpoint parseStatements (offset : nat) (statements : list string) (acc : Parsed)
    : Parsed :=
  match statements with
  | [] => acc
  | statement :: rest =>
      parseStatements (offset + String.length statement + 1) rest
        (parseStatement offset statement acc)
  end.

(** The extractor on a text that starts at [offset], after what was found
    so far. *)
Definition parseFrom (offset : nat) (text : string) (acc : Parsed) : Parsed :=
  parseStatements offset (Text.statements Text.top text) acc.

(** Modelled from the spec: [parse(text)] of the extractor (section 4.2),
    which is not among the sources. *)
Definition parse (text : string) : Parsed :=
  parseFrom 0 text empty.

End Extractor.

(** ** Documents *)

Module Parser.

(** Final segment of a path. *)
Definition fileNameOf (uri : string) : string :=
  List.last (Text.split "/" uri) EmptyString.

(** Base file name without extension and privacy marker: the default
    namespace of a use. *)
Definition moduleNameOf (path : string) : string :=
  let base := List.hd EmptyString (Text.split "." (fileNameOf path)) in
  match base with
  | String "_" r => r
  | _ => base
  end.

(** Modelled from the spec: the self-reference guard of section 4.2 (the
    parser is not among the sources): the resolved target is the owning
    document's own URI. *)
Definition isSelf (uri : string) (target : option string) : bool :=
  match target with
  | Some t => String.eqb t uri
  | None => false
  end.

(** Links are keyed by their resolved identity; a link that did not
    resolve has none and is kept under its reference text. *)
Definition linkKey (link : string) (target : option string) : string :=
  default link target.

(** Modelled from the spec: one use link (sections 3 and 4.2; the parser
    is not among the sources), resolved against the document's own URI,
    dropped by the self-reference guard or inserted. The namespace is the
    alias, or the module name of the target. *)
Definition addUse (fs : FileSystem) (uri : string)
    (acc : list (string * ScssUse)) (raw : Extractor.RawUse) : list (string * ScssUse) :=
  let link := Extractor.ru_link raw in
  let target := PathResolver.resolve fs uri link in
  if isSelf uri target then acc
  else
    Extractor.mapSet (linkKey link target)
      {| use_link := link;
         use_target := target;
         use_namespace :=
           match Extractor.ru_alias raw with
           | Some a => Some a
           | None => Some (moduleNameOf (default link target))
           end;
         use_isAliased := bool_decide (is_Some (Extractor.ru_alias raw)) |}
      acc.

(** Modelled from the spec: one forward link, as [addUse]. *)
Definition addForward (fs : FileSystem) (uri : string)
    (acc : list (string * ScssForward)) (raw : Extractor.RawForward)
    : list (string * ScssForward) :=
  let link := Extractor.rf_link raw in
  let target := PathResolver.resolve fs uri link in
  if isSelf uri target then acc
  else
    Extractor.mapSet (linkKey link target)
      {| fw_link := link;
         fw_target := target;
         fw_prefix := Extractor.rf_prefix raw;
         fw_hide := Extractor.rf_hide raw |}
      acc.

(** Modelled from the spec: one import link, as [addUse]. *)
Definition addImport (fs : FileSystem) (uri : string)
    (acc : list (string * ScssImport)) (link : string) : list (string * ScssImport) :=
  let target := PathResolver.resolve fs uri link in
  if isSelf uri target then acc
  else
    Extractor.mapSet (linkKey link target)
      {| imp_link := link; imp_target := target |} acc.

(** Modelled from the spec: [parseDocument], which is not among the sources
    (its test is): the extractor is run on the text of the document, every
    link is resolved against the document's own URI, and the document record
    of section 3 is built. *)
Definition parseDocument (fs : FileSystem) (document : TextDocument) : ScssDocument :=
  let uri := td_uri document in
  let symbols := Extractor.parse (td_text document) in
  {| d_uri := uri;
     d_fileName := fileNameOf uri;
     d_variables := Extractor.variables symbols;
     d_mixins := Extractor.mixins symbols;
     d_functions := Extractor.functions symbols;
     d_imports := fold_left (addImport fs uri) (Extractor.imports symbols) [];
     d_uses := fold_left (addUse fs uri) (Extractor.uses symbols) [];
     d_forwards := fold_left (addForward fs uri) (Extractor.forwards symbols) [] |}.

End Parser.

(** Resolved targets of all the links of a document ([getLinks]). *)
Definition linkTargets (d : ScssDocument) : list string :=
  omap use_target (values (d_uses d))
    ++ omap fw_target (values (d_forwards d))
    ++ omap imp_target (values (d_imports d)).

(** [u] is the resolved target of a use, of a forward or of an import of
    the document. *)
Definition linked (d : ScssDocument) (u : string) : Prop :=
  (exists k l, (k, l) ∈ d_uses d /\ use_target l = Some u)
  \/ (exists k l, (k, l) ∈ d_forwards d /\ fw_target l = Some u)
  \/ (exists k l, (k, l) ∈ d_imports d /\ imp_target l = Some u).

(** Modelled from the spec: a link whose target could not be loaded is
    unresolved (sections 4.3 and 7; the scanner is not among the sources):
    its target is null, the rest of the link and of the record stays. *)
Definition dropTarget (gone : string -> bool) (target : option string)
    : option string :=
  match target with
  | Some t => if gone t then None else Some t
  | None => None
  end.

Definition unresolveBy (gone : string -> bool) (d : ScssDocument) : ScssDocument :=
  {| d_uri := d_uri d;
     d_fileName := d_fileName d;
     d_variables := d_variables d;
     d_mixins := d_mixins d;
     d_functions := d_functions d;
     d_imports :=
       map (fun entry =>
              (fst entry,
               mkImport (imp_link (snd entry))
                 (dropTarget gone (imp_target (snd entry)))))
           (d_imports d);
     d_uses :=
       map (fun entry =>
              (fst entry,
               mkUse (use_link (snd entry))
                 (dropTarget gone (use_target (snd entry)))
                 (use_namespace (snd entry)) (use_isAliased (snd entry))))
           (d_uses d);
     d_forwards :=
       map (fun entry =>
              (fst entry,
               mkForward (fw_link (snd entry))
                 (dropTarget gone (fw_target (snd entry)))
                 (fw_prefix (snd entry)) (fw_hide (snd entry))))
           (d_forwards d) |}.

Definition unresolve (uri : string) : ScssDocument -> ScssDocument :=
  unresolveBy (String.eqb uri).

(** ** Settings *)

Record ISettings := mkSettings {
  scannerExclude : list string;
  showErrors : bool;
  scanImportedFiles : bool
}.

(** ** Scanner

    The scanner and the store are not among the sources (the scanner test
    and the server that calls them are); this part follows sections 4.3 and
    7 of the specification. The store is a finite map from canonical URI to
    document record. The accepted-extension check and the step from a
    file's content to its record (extraction of the embedded region of a
    host file, extractor, link resolution) are taken as they come:
    [accepted] and [parse]. *)

(** A queued URI was passed to [scan] or found through a link. *)
Inductive Origin := Seed | Discovered.

(** Modelled from the spec: the document store (sections 2 and 6), which is
    not among the sources, as a map from canonical URI to record with
    whole-record [set]; next to it, the log of the [readFile] calls. *)
Record ScanState := mkScanState {
  st_store : gmap string ScssDocument;
  st_reads : list string
}.

Inductive Outcome :=
| Continue (queue : list (string * Origin)) (st : ScanState)
| Failed (message : string) (st : ScanState).

Inductive ScanResult :=
| Completed (st : ScanState)
| Rejected (message : string) (st : ScanState).

Section Scanner.
Variable fs : FileSystem.
Variable accepted : string -> bool.
Variable parse : TextDocument -> result ScssDocument.
Variable settings : ISettings.
(** The order in which queued files are taken up. *)
Variable sched : list (string * Origin) -> list (string * Origin).

(** Modelled from the spec: reading a queued file and running the
    extractor on it (section 4.3; the scanner is not among the sources).
    Either step may fail. *)
Definition load (uri : string) : result ScssDocument :=
  match readFile fs uri with
  | Ok content => parse (mkTextDocument uri 1 content)
  | Err message => Err message
  end.

Definition queued (uri : string) (queue : list (string * Origin)) : bool :=
  existsb (fun item => String.eqb (fst item) uri) queue.

(** Modelled from the spec: every resolved target that is in neither the
    store nor the queue is enqueued (section 4.3; the scanner is not among
    the sources). *)
Fixpoint enqueue (targets : list string) (store : gmap string ScssDocument)
    (queue : list (string * Origin)) : list (string * Origin) :=
  match targets with
  | [] => queue
  | t :: rest =>
      if bool_decide (is_Some (store !! t)) || queued t queue
      then enqueue rest store queue
      else enqueue rest store (queue ++ [(t, Discovered)])
  end.

(** Modelled from the spec: the treatment of one queued URI (sections 4.3
    and 7; the scanner is not among the sources). A URI that does not exist
    or is not of an accepted kind is skipped; a failure on a seed is handed
    to the caller, a failure on a discovered file is swallowed and the
    links to it are unresolved; a record is written to the store and, when
    import-following is enabled, its new targets are enqueued. *)
Definition visit (item : string * Origin) (rest : list (string * Origin))
    (st : ScanState) : Outcome :=
  let '(uri, origin) := item in
  if negb (fsExists fs uri) || negb (accepted uri) then Continue rest st
  else
    let reads := st_reads st ++ [uri] in
    match load uri with
    | Err message =>
        match origin with
        | Seed => Failed message (mkScanState (st_store st) reads)
        | Discovered =>
            Continue rest (mkScanState (unresolve uri <$> st_store st) reads)
        end
    | Ok document =>
        let store := <[uri := document]> (st_store st) in
        let queue :=
          if scanImportedFiles settings
          then enqueue (linkTargets document) store rest
          else rest in
        Continue queue (mkScanState store reads)
    end.

(** Modelled from the spec: the work loop of the scanner (section 4.3; the
    scanner is not among the sources), until the queue is empty. [None]
    when [fuel] runs out before the queue does. *)
Fixpoint drain (fuel : nat) (queue : list (string * Origin)) (st : ScanState)
    : option ScanResult :=
  match fuel with
  | O => None
  | S fuel' =>
      match sched queue with
      | [] => Some (Completed st)
      | item :: rest =>
          match visit item rest st with
          | Failed message st' => Some (Rejected message st')
          | Continue queue' st' => drain fuel' queue' st'
          end
      end
  end.

(** Modelled from the spec: [scan(seedURIs)] (section 4.3; the scanner is
    not among the sources): the queue is seeded with the seed URIs. *)
Definition scan (fuel : nat) (seeds : list string) (st : ScanState) : option ScanResult :=
  drain fuel (map (fun uri => (uri, Seed)) seeds) st.

(** A file the scanner takes up and turns into a record. *)
Definition scannable (uri : string) (d : ScssDocument) : Prop :=
  fsExists fs uri = true /\ accepted uri = true /\ load uri = Ok d.

(** A file the scanner takes up and fails on. *)
Definition failing (uri : string) (message : string) : Prop :=
  fsExists fs uri = true /\ accepted uri = true /\ load uri = Err message.

(** A file the scanner takes up and fails on, as a test. *)
Definition isFailing (uri : string) : bool :=
  fsExists fs uri && accepted uri
  && match load uri with
     | Err _ => true
     | Ok _ => false
     end.

(** The record of a file when a scan is over: with import-following, the
    links to files that failed to load are unresolved. *)
Definition settled (d : ScssDocument) : ScssDocument :=
  if scanImportedFiles settings then unresolveBy isFailing d else d.

(** The closure of the seeds under the use, forward and import links of
    the files taken up; links are followed only when import-following is
    enabled. *)
Inductive reach (seeds : list string) : string -> Prop :=
| reach_seed u d :
    u ∈ seeds -> scannable u d -> reach seeds u
| reach_link v d u d' :
    scanImportedFiles settings = true ->
    reach seeds v -> load v = Ok d -> linked d u ->
    scannable u d' -> reach seeds u.

(** How often [readFile] was called on a URI. *)
Definition readCount (uri : string) (st : ScanState) : nat :=
  length (filter (fun r => r = uri) (st_reads st)).

(** Modelled from the spec: [update(document)] (section 4.3; the scanner
    is not among the sources): one document is parsed again and its record
    replaced as a whole; a failure is handed to the caller. *)
Definition update (document : TextDocument) (store : gmap string ScssDocument)
    : result (gmap string ScssDocument) :=
  match parse document with
  | Ok record => Ok (<[td_uri document := record]> store)
  | Err message => Err message
  end.

End Scanner.

Definition emptyState : ScanState := mkScanState ∅ [].

(** The scanner over the modelled extractor, for style sheets proper: the
    accepted-extension check and the parse step used in the examples. *)
Definition acceptedScss (uri : string) : bool := Text.endsWith ".scss" uri.

Definition parseScss (fs : FileSystem) (document : TextDocument) : result ScssDocument :=
  Ok (Parser.parseDocument fs document).

(** Two orders of taking up queued files. *)
Definition fifo (queue : list (string * Origin)) : list (string * Origin) := queue.
Definition lifo (queue : list (string * Origin)) : list (string * Origin) := rev queue.

(** ** Server (server.ts)

    The two handlers of [SomeSassServer.listen] that call the scanner. *)

Record Diagnostic := mkDiagnostic {
  dg_message : string;
  dg_offset : nat
}.

Inductive Notification :=
| ShowErrorMessage (message : string)
| ConsoleError (message : string)
| SendDiagnostics (uri : string) (diagnostics : list Diagnostic).

(** Where a running [onDidChangeContent] handler is suspended.
    [AwaitDiagnostics] holds the diagnostics that the call of
    [doDiagnostics] resolves to. *)
Inductive Phase :=
| AwaitUpdate
| AwaitDiagnostics (diagnostics : list Diagnostic)
| Returned.

(** A running handler. [change.document] is a reference to the object that
    the text synchronizer keeps for the document: [h_document] is its
    address. [h_given] is the document as it stood when the handler was
    called, which is what the call of [update] made then has read. *)
Record Handler := mkHandler {
  h_document : nat;
  h_given : TextDocument;
  h_phase : Phase
}.

(** [TextDocuments] of vscode-languageserver with the [TextDocument] of
    vscode-languageserver-textdocument (server.ts, line 50): one object per
    opened document, kept under its URI, and updated in place on every
    change. [objects] are the objects by address, [documents] is the map
    from URI to the address of the synchronized object. *)
Record ServerState := mkServerState {
  objects : list TextDocument;
  documents : gmap string nat;
  storage : gmap string ScssDocument;
  handlers : list Handler;
  outbox : list Notification;
  (** The synchronized document as it stood each time diagnostics went
      out, newest first. This is bookkeeping for the statements: the
      notification itself is in [outbox] and carries no version. *)
  published : list TextDocument
}.

(** The notifications of the client and the steps of the event loop:
    [DidOpen] and [DidChange] carry the document as it is after them. *)
Inductive Event :=
| DidOpen (document : TextDocument)
| DidChange (document : TextDocument)
| DidClose (uri : string)
| Resume (handler : nat).

Section Server.
Variable fs : FileSystem.
Variable accepted : string -> bool.
Variable parse : TextDocument -> result ScssDocument.
Variable settings : ISettings.
Variable sched : list (string * Origin) -> list (string * Origin).
Variable doDiagnostics : TextDocument -> gmap string ScssDocument -> list Diagnostic.

(** [connection.onInitialized]: a fresh store, a scan of the files that
    [findFiles] returned, and the [catch] around it, which shows
    [String(error)]. The scanner rejects with an [Error] whose message is
    the one at hand. *)
Definition onInitialized (fuel : nat) (files : list string)
    : option (ScanState * list Notification) :=
  match scan fs accepted parse settings sched fuel files emptyState with
  | None => None
  | Some (Completed st) => Some (st, [])
  | Some (Rejected message st) =>
      Some (st, if showErrors settings
                then [ShowErrorMessage (JS.errorToString message)] else [])
  end.

(** What [change.document] holds now. A handler refers to an object that
    exists, so the other case does not arise. *)
Definition live (s : ServerState) (h : Handler) : TextDocument :=
  default (h_given h) (objects s !! h_document h).

(** [documents.onDidChangeContent], first part: the awaited [update] has
    settled. On success the handler goes on to call [doDiagnostics] on
    [change.document] as it is by then, and on the store. *)
Definition afterUpdate (h : Handler) (s : ServerState) : ServerState * Phase :=
  match update parse (h_given h) (storage s) with
  | Err message =>
      (mkServerState (objects s) (documents s) (storage s) (handlers s)
         (outbox s ++ [ConsoleError message]) (published s),
       Returned)
  | Ok store =>
      (mkServerState (objects s) (documents s) store (handlers s) (outbox s)
         (published s),
       AwaitDiagnostics (doDiagnostics (live s h) store))
  end.

(** Second part: the awaited [doDiagnostics] has settled; the version
    check and [sendDiagnostics]. Both sides of the check are read from
    objects: [documents.get(change.document.uri)] and [change.document]. *)
Definition afterDiagnostics (h : Handler) (diagnostics : list Diagnostic)
    (s : ServerState) : ServerState * Phase :=
  let document := live s h in
  let latestTextDocument :=
    match documents s !! td_uri document with
    | Some o => objects s !! o
    | None => None
    end in
  match latestTextDocument with
  | Some latest =>
      if Z.eqb (td_version latest) (td_version document) then
        (mkServerState (objects s) (documents s) (storage s) (handlers s)
           (outbox s ++ [SendDiagnostics (td_uri latest) diagnostics])
           (latest :: published s),
         Returned)
      else (s, Returned)
  | None => (s, Returned)
  end.

Definition setPhase (i : nat) (h : Handler) (sp : ServerState * Phase)
    : ServerState :=
  let '(s, phase) := sp in
  mkServerState (objects s) (documents s) (storage s)
    (<[i := mkHandler (h_document h) (h_given h) phase]> (handlers s))
    (outbox s) (published s).

(** One event of the server's event loop. Opening a document makes a new
    object and puts it under the URI; a change updates the synchronized
    object in place, and is ignored when there is none. Either way the
    handler is then called with that object. A handler runs up to its next
    [await]. *)
Definition step (s : ServerState) (e : Event) : ServerState :=
  match e with
  | DidOpen document =>
      let o := length (objects s) in
      mkServerState (objects s ++ [document])
        (<[td_uri document := o]> (documents s)) (storage s)
        (handlers s ++ [mkHandler o document AwaitUpdate]) (outbox s) (published s)
  | DidChange document =>
      match documents s !! td_uri document with
      | Some o =>
          match objects s !! o with
          | Some synced =>
              let updated :=
                mkTextDocument (td_uri synced) (td_version document)
                  (td_text document) in
              mkServerState (<[o := updated]> (objects s)) (documents s) (storage s)
                (handlers s ++ [mkHandler o updated AwaitUpdate]) (outbox s)
                (published s)
          | None => s
          end
      | None => s
      end
  | DidClose uri =>
      mkServerState (objects s) (delete uri (documents s)) (storage s) (handlers s)
        (outbox s) (published s)
  | Resume i =>
      match handlers s !! i with
      | Some h =>
          match h_phase h with
          | AwaitUpdate => setPhase i h (afterUpdate h s)
          | AwaitDiagnostics diagnostics =>
              setPhase i h (afterDiagnostics h diagnostics s)
          | Returned => s
          end
      | None => s
      end
  end.

Definition runEvents (s : ServerState) (events : list Event) : ServerState :=
  fold_left step events s.

End Server.

Definition initialServer : ServerState := mkServerState [] ∅ ∅ [] [] [].

(** ** Declarations as they are written

    The text of mixin and function declarations, given by its parts, to
    state what the extractor gives back for it. Nothing here goes through
    the scanner of the extractor. *)


Module Written.




























End Written.

(** *** What the scanner of the extractor makes of a text *)




(** [s], read from mode [m], meets no [stop] character at top level and
    ends at top level: its quotes and brackets are balanced. *)
Fixpoint closedFrom (stop : ascii -> bool) (m : Text.Mode) (s : string) : bool :=
  match s with
  | EmptyString => Text.isTop m
  | String c r =>
      if Text.isTop m && stop c then false
      else closedFrom stop (Text.scanChar m c) r
  end.








(** ** Helpers and inputs for the examples *)

(** [asDollarlessVariable]: the name without its sigil. *)
Definition dollarless (name : string) : string :=
  match name with
  | String "$" r => r
  | _ => name
  end.

(** The privacy convention that the sort-text pattern of the completion
    code names: a sigil followed by [_] or [-]. *)
Definition privateName (name : string) : bool :=
  match name with
  | String "$" (String c _) => Ascii.eqb c "_" || Ascii.eqb c "-"
  | _ => false
  end.

(** A plain implementation of the imported helpers, to run the completion
    code on examples: lower case on the ASCII range, no reference chasing,
    no colour detection, no doc comments. *)
Definition plainUtils : CompletionUtils := {|
  toLowerCase := JS.toLowerAscii;
  isReferencingVariable := fun _ => false;
  getBaseValueFrom := fun v _ => v;
  isColor := fun _ => None;
  getLimitedString := fun s => s;
  applySassDoc := fun _ => EmptyString;
  asDollarlessVariable := dollarless;
  rePrivate := privateName
|}.

Definition dq : string := String "034" EmptyString.
Definition nl : string := String "010" EmptyString.

(** [quoted s] is [s] between double quotes. *)
Definition quoted (s : string) : string := dq +:+ s +:+ dq.

Definition plainVariable (name value : string) : ScssVariable :=
  mkVariable name (Some value) None None 0.

Definition documentOf (uri : string) (vars : list ScssVariable) : ScssDocument :=
  mkDocument uri (Parser.fileNameOf uri)
    (map (fun v => (v_name v, v)) vars) [] [] [] [] [].

(** The module [colors] of the forward example: variables [$a] and [$c]
    (its third export, [b], is a callable and not in the variable map). *)
Definition colorsDocument : ScssDocument :=
  documentOf "/ws/colors.scss" [plainVariable "$a" "1"; plainVariable "$c" "3"].

(** A document with a private variable, and the same name as the argument
    of a mixin. *)
Definition secretsDocument : ScssDocument :=
  documentOf "/ws/secrets.scss" [plainVariable "$_secret" "1"].

Definition argumentsDocument : ScssDocument :=
  documentOf "/ws/secrets.scss" [mkVariable "$_secret" (Some "1") (Some "theme") None 0].

Definition indexText : TextDocument := mkTextDocument "/ws/index.scss" 1 EmptyString.
Definition secretsText : TextDocument := mkTextDocument "/ws/secrets.scss" 1 EmptyString.

Definition plainContext : CompletionContext := mkContext "$" None "scss".
Definition namespaceContext : CompletionContext := mkContext "colors." (Some "colors") "scss".

(** [colors] with [$a] as the argument of its mixin [tint]. *)
Definition tintDocument : ScssDocument :=
  documentOf "/ws/colors.scss" [mkVariable "$a" (Some "1") (Some "tint") None 0].

(** The self-reference example: [self.scss] uses [./self]. *)
Definition selfText : TextDocument :=
  mkTextDocument "/ws/self.scss" 1
    ("@use " +:+ quoted "./self" +:+ ";" +:+ nl +:+ "$var: 1px;").

Definition selfFs : FileSystem :=
  mkFS {[ "/ws/self.scss" := Readable (td_text selfText) ]}.

(** The same file next to a module it uses and forwards. *)
Definition mainText : TextDocument :=
  mkTextDocument "/ws/main.scss" 1
    ("@use " +:+ quoted "./main" +:+ ";" +:+ nl
       +:+ "@use " +:+ quoted "variables" +:+ " as vars;" +:+ nl
       +:+ "@forward " +:+ quoted "../ws/main.scss" +:+ ";" +:+ nl
       +:+ "@import " +:+ quoted "main.scss" +:+ ";").

Definition mainFs : FileSystem :=
  mkFS (<[ "/ws/main.scss" := Readable (td_text mainText) ]>
          {[ "/ws/_variables.scss" := Readable "$var: 1px;" ]}).

(** The scanner example: [index.scss] imports [variables.scss]. *)
Definition indexUri : string := "/ws/index.scss".
Definition variablesUri : string := "/ws/variables.scss".

Definition importText : string := "@import " +:+ quoted "variables.scss" +:+ ";".

Definition exampleFs : FileSystem :=
  mkFS (<[ indexUri := Readable importText ]>
          {[ variablesUri := Readable "$var: 1px;" ]}).

(** The same with a [variables.scss] that cannot be read, and with an
    [index.scss] that cannot be read. *)
Definition brokenFs : FileSystem :=
  mkFS (<[ indexUri := Readable importText ]>
          {[ variablesUri := Unreadable "EACCES" ]}).

Definition brokenSeedFs : FileSystem :=
  mkFS (<[ indexUri := Unreadable "EACCES" ]>
          {[ variablesUri := Readable "$var: 1px;" ]}).

(** Two files that link to each other, next to a file nothing links to. *)
Definition otherUri : string := "/ws/other.scss".

Definition cyclicFs : FileSystem :=
  mkFS (<[ indexUri := Readable ("@use " +:+ quoted "./variables" +:+ ";") ]>
          (<[ variablesUri := Readable ("@forward " +:+ quoted "index" +:+ ";") ]>
             {[ otherUri := Readable "$other: 0;" ]})).

(** A chain through each kind of link: [index.scss] uses the partial
    [_theme.scss], which forwards [colors.scss], which imports
    [palette.scss]; nothing links to [other.scss]. *)
Definition themeUri : string := "/ws/_theme.scss".
Definition colorsUri : string := "/ws/colors.scss".
Definition paletteUri : string := "/ws/palette.scss".

Definition chainFs : FileSystem :=
  mkFS (<[ indexUri := Readable ("@use " +:+ quoted "./theme" +:+ ";") ]>
          (<[ themeUri := Readable ("@forward " +:+ quoted "colors" +:+ ";") ]>
             (<[ colorsUri := Readable ("@import " +:+ quoted "palette.scss" +:+ ";") ]>
                (<[ paletteUri := Readable "$p: 1;" ]>
                   {[ otherUri := Readable "$other: 0;" ]})))).

Definition followImports : ISettings := mkSettings [] true true.
Definition seedsOnly : ISettings := mkSettings [] true false.

(** Two versions of one document, and a stand-in for [doDiagnostics] that
    reports the text it was given. *)
Definition firstVersion : TextDocument := mkTextDocument indexUri 1 "$a: 1;".
Definition secondVersion : TextDocument := mkTextDocument indexUri 2 "$b: 2;".

(** A document opened with no text. *)
Definition blankVersion : TextDocument := mkTextDocument indexUri 1 EmptyString.

Definition echoDiagnostics (document : TextDocument)
    (store : gmap string ScssDocument) : list Diagnostic :=
  [mkDiagnostic (td_text document) 0].

(** The document is opened and changed once; the change arrives while the
    handler of the opening is suspended, and its handler finishes first. *)
Definition overtaking : list Event :=
  [DidOpen firstVersion; DidChange secondVersion;
   Resume 1; Resume 1; Resume 0; Resume 0].

(** The same, with the change arriving while the first handler waits for
    its diagnostics. *)
Definition superseded : list Event :=
  [DidOpen firstVersion; Resume 0; DidChange secondVersion;
   Resume 1; Resume 1; Resume 0].

(** The change arrives while the first handler waits for its diagnostics,
    and that handler is the next to go on. *)
Definition changedMeanwhile : list Event :=
  [DidOpen firstVersion; Resume 0; DidChange secondVersion; Resume 0].

(** A module whose file name has capitals, with the argument of a mixin. *)
Definition themeDocument : ScssDocument :=
  documentOf "/ws/Theme.SCSS" [mkVariable "$size" (Some "1") (Some "Button") None 0].

(** ** The scanner's loop invariant *)

Section ScanInvariant.
Variable fs : FileSystem.
Variable accepted : string -> bool.
Variable parse : TextDocument -> result ScssDocument.
Variable settings : ISettings.
Variable seeds : list string.

(** [u] is the target of a link of a stored document, and links are
    followed. *)
Definition followed (st : ScanState) (u : string) : Prop :=
  scanImportedFiles settings = true
  /\ exists v d, st_store st !! v = Some d /\ u ∈ linkTargets d.

Record ScanInv (queue : list (string * Origin)) (st : ScanState) : Prop := {
  inv_nodup : NoDup queue.*1;
  inv_fresh : forall u, u ∈ queue.*1 -> st_store st !! u = None;
  inv_sound : forall u d, st_store st !! u = Some d ->
    reach fs accepted parse settings seeds u
    /\ exists d0 gone,
         scannable fs accepted parse u d0 /\ d = unresolveBy gone d0
         /\ forall t, gone t = true ->
               scanImportedFiles settings = true
               /\ isFailing fs accepted parse t = true;
  inv_closed : scanImportedFiles settings = true ->
    forall u d t, st_store st !! u = Some d -> t ∈ linkTargets d ->
      fsExists fs t = true -> accepted t = true ->
      is_Some (st_store st !! t) \/ t ∈ queue.*1;
  inv_seeds : forall u d, u ∈ seeds -> scannable fs accepted parse u d ->
    is_Some (st_store st !! u) \/ u ∈ queue.*1;
  inv_origin : forall u o, (u, o) ∈ queue ->
    match o with
    | Seed => u ∈ seeds
    | Discovered => followed st u
    end;
  inv_failing : forall u m, u ∈ seeds -> failing fs accepted parse u m ->
    (u, Seed) ∈ queue;
  inv_read_once : forall u, is_Some (st_store st !! u) -> readCount u st = 1;
  inv_unread : forall u d, scannable fs accepted parse u d ->
    st_store st !! u = None -> readCount u st = 0;
  inv_reads : forall u, u ∈ st_reads st ->
    fsExists fs u = true /\ accepted u = true
    /\ (u ∈ seeds \/ scanImportedFiles settings = true)
}.

(** Files of the file system not yet in the store. *)
Definition pending (st : ScanState) : nat :=
  size (dom (fs_files fs) ∖ dom (st_store st)).

(** What a finished scan guarantees. *)
Definition ScanPost (r : ScanResult) : Prop :=
  match r with
  | Completed st => ScanInv [] st
  | Rejected message st =>
      (exists u, u ∈ seeds /\ failing fs accepted parse u message)
      /\ forall u, is_Some (st_store st !! u) ->
           reach fs accepted parse settings seeds u
  end.

End ScanInvariant.

(** ** Server: watched files, configuration and requests (server.ts) *)

(** [FileChangeType] of the protocol. *)
Inductive FileChangeType := Created | Changed | Deleted.

Record FileEvent := mkFileEvent {
  fe_uri : string;
  fe_type : FileChangeType
}.

(** The loop of [onDidChangeWatchedFiles] on its way: the store and the
    [newFiles] collected so far, or the exception of an awaited [update] and
    the store as it was left. *)
Inductive Watched :=
| Pending (store : gmap string ScssDocument) (newFiles : list string)
| Thrown (message : string) (store : gmap string ScssDocument).

Section WatchedFiles.
Variable fs : FileSystem.
Variable accepted : string -> bool.
Variable parse : TextDocument -> result ScssDocument.
Variable settings : ISettings.
Variable sched : list (string * Origin) -> list (string * Origin).
(** A stored document is handed to [update] as the text document it is. *)
Variable asTextDocument : ScssDocument -> TextDocument.

(** One iteration of [for (const change of event.changes)]. *)
Definition watchChange (w : Watched) (change : FileEvent) : Watched :=
  match w with
  | Thrown _ _ => w
  | Pending store newFiles =>
      let uri := fe_uri change in
      match fe_type change with
      | Deleted => Pending (delete uri store) newFiles
      | Changed =>
          match store !! uri with
          | Some document =>
              match update parse (asTextDocument document) store with
              | Ok store' => Pending store' newFiles
              | Err message => Thrown message store
              end
          | None => Pending store (newFiles ++ [uri])
          end
      | Created => Pending store (newFiles ++ [uri])
      end
  end.

(** [connection.onDidChangeWatchedFiles], as it runs when no other handler
    touches the store between its awaits: the loop over the changes, then
    the scan of the new files on the store as the loop left it. *)
Definition onDidChangeWatchedFiles (fuel : nat) (changes : list FileEvent)
    (store : gmap string ScssDocument) : option ScanResult :=
  match fold_left watchChange changes (Pending store []) with
  | Thrown message store' => Some (Rejected message (mkScanState store' []))
  | Pending store' newFiles =>
      scan fs accepted parse settings sched fuel newFiles (mkScanState store' [])
  end.

End WatchedFiles.

(** The variables of [listen] after [onInitialized]: the current value of
    [settings], the settings object the scanner was constructed with, and
    the store. *)
Record Listener := mkListener {
  l_settings : ISettings;
  l_scannerSettings : ISettings;
  l_storage : gmap string ScssDocument
}.

(** What a request handler returns. *)
Inductive Reply (A : Type) :=
| Undefined
| Null
| Answered (a : A).
Arguments Undefined {A}.
Arguments Null {A}.
Arguments Answered {A} a.

Section Listening.
Variable fs : FileSystem.
Variable accepted : string -> bool.
(** [parseDocument] is handed the settings of the scanner that calls it. *)
Variable parseWith : ISettings -> TextDocument -> result ScssDocument.
Variable sched : list (string * Origin) -> list (string * Origin).
Variable asTextDocument : ScssDocument -> TextDocument.
Variable Answer : Type.
Variable getSCSSRegionsDocument : TextDocument -> nat * nat -> option (TextDocument * nat).
Variable doCompletion :
  TextDocument -> nat -> ISettings -> gmap string ScssDocument -> Answer.

(** [onInitialize] followed by [onInitialized]: [settings] is set from the
    initialization options, the scanner is constructed with it, and the
    files found are scanned. *)
Definition initialize (settings : ISettings) (fuel : nat) (files : list string)
    : option (Listener * list Notification) :=
  match onInitialized fs accepted (parseWith settings) settings sched fuel files with
  | Some (st, notes) => Some (mkListener settings settings (st_store st), notes)
  | None => None
  end.

(** [connection.onDidChangeConfiguration]: [settings = params.settings.somesass]. *)
Definition onDidChangeConfiguration (somesass : ISettings) (l : Listener) : Listener :=
  mkListener somesass (l_scannerSettings l) (l_storage l).

(** [onDidChangeWatchedFiles] on the listener's scanner and store. *)
Definition watchedFiles (fuel : nat) (changes : list FileEvent) (l : Listener)
    : option ScanResult :=
  onDidChangeWatchedFiles fs accepted (parseWith (l_scannerSettings l))
    (l_scannerSettings l) sched asTextDocument fuel changes (l_storage l).

(** [connection.onCompletion] *)
Definition onCompletion (documents : gmap string TextDocument) (l : Listener)
    (uri : string) (position : nat * nat) : Reply Answer :=
  match documents !! uri with
  | None => Undefined
  | Some textDocument =>
      match getSCSSRegionsDocument textDocument position with
      | None => Null
      | Some (document, offset) =>
          Answered (doCompletion document offset (l_settings l) (l_storage l))
      end
  end.

End Listening.

(** ** Counting what a run of the server did *)

Definition isSend (n : Notification) : bool :=
  match n with
  | SendDiagnostics _ _ => true
  | _ => false
  end.

Definition isSendFor (uri : string) (n : Notification) : bool :=
  match n with
  | SendDiagnostics u _ => String.eqb u uri
  | _ => false
  end.

Definition isConsoleError (n : Notification) : bool :=
  match n with
  | ConsoleError _ => true
  | _ => false
  end.

Definition isReturned (h : Handler) : bool :=
  match h_phase h with
  | Returned => true
  | _ => false
  end.

(** The documents of the [DidOpen] and [DidChange] events of a run, in
    order. *)
Fixpoint changesOf (events : list Event) : list TextDocument :=
  match events with
  | [] => []
  | DidOpen document :: rest => document :: changesOf rest
  | DidChange document :: rest => document :: changesOf rest
  | _ :: rest => changesOf rest
  end.

(** No event of the run opens or changes [uri]. *)
Definition noChangeOf (uri : string) (events : list Event) : Prop :=
  forall d, In d (changesOf events) -> td_uri d <> uri.

(** The document parses. *)
Definition parses (parse : TextDocument -> result ScssDocument) (d : TextDocument)
    : bool :=
  match parse d with
  | Ok _ => true
  | Err _ => false
  end.

(** The synchronized objects are kept under their own URI. *)
Definition keyedByUri (s : ServerState) : Prop :=
  forall uri o, documents s !! uri = Some o ->
    exists d, objects s !! o = Some d /\ td_uri d = uri.

(** What a run keeps true of the handlers and the notifications: there is
    at most a handler per change, and no more diagnostics went out than
    handlers returned. *)
Definition SendInv (events : list Event) (s : ServerState) : Prop :=
  length (handlers s) <= length (changesOf events)
  /\ length (List.filter isSend (outbox s)) <= length (List.filter isReturned (handlers s))
  /\ length (published s) = length (List.filter isSend (outbox s)).

(** Every record of the store was parsed from a document of the run. *)
Definition StoreInv (parse : TextDocument -> result ScssDocument)
    (events : list Event) (s : ServerState) : Prop :=
  forall uri record, storage s !! uri = Some record ->
    exists d, In d (changesOf events) /\ td_uri d = uri /\ parse d = Ok record.

(** The handlers were called with the documents of the run, in order. *)
Definition HandlersInv (events : list Event) (s : ServerState) : Prop :=
  (h_given <$> handlers s) `sublist_of` changesOf events.

(** A handler that has returned after a document that parses, and one
    that has returned after a document that does not. *)
Definition returnedWell (parse : TextDocument -> result ScssDocument) (h : Handler)
    : bool :=
  isReturned h && parses parse (h_given h).

Definition returnedBadly (parse : TextDocument -> result ScssDocument) (h : Handler)
    : bool :=
  isReturned h && negb (parses parse (h_given h)).

(** What a run keeps true of failures: a handler waits for diagnostics
    only after its document was parsed; diagnostics go out for handlers
    that returned after a document that parses, errors are logged for
    handlers that returned after one that does not. *)
Definition FailureInv (parse : TextDocument -> result ScssDocument)
    (s : ServerState) : Prop :=
  (forall i h diagnostics,
     handlers s !! i = Some h -> h_phase h = AwaitDiagnostics diagnostics ->
     parses parse (h_given h) = true)
  /\ length (List.filter isSend (outbox s))
     <= length (List.filter (returnedWell parse) (handlers s))
  /\ length (List.filter isConsoleError (outbox s))
     <= length (List.filter (returnedBadly parse) (handlers s))
  /\ (forall m, In (ConsoleError m) (outbox s) ->
        exists i h, handlers s !! i = Some h /\ parse (h_given h) = Err m).

(** What one step of the event loop does to the handlers, the store and
    the notifications, by cases: a handler is called; nothing happens to
    them; an [update] fails; an [update] succeeds; diagnostics are sent;
    diagnostics are dropped. *)
Inductive Effect (parse : TextDocument -> result ScssDocument)
    (s s' : ServerState) (e : Event) : Prop :=
| HandlerCalled h d :
    e = DidOpen d \/ e = DidChange d ->
    handlers s' = handlers s ++ [h] -> h_phase h = AwaitUpdate ->
    (keyedByUri s -> h_given h = d) ->
    storage s' = storage s -> outbox s' = outbox s -> published s' = published s ->
    Effect parse s s' e
| NothingDone :
    changesOf [e] = [] \/ (exists d, e = DidChange d /\ documents s !! td_uri d = None)
    \/ (exists d o, e = DidChange d /\ documents s !! td_uri d = Some o
                    /\ objects s !! o = None) ->
    handlers s' = handlers s ->
    storage s' = storage s -> outbox s' = outbox s -> published s' = published s ->
    Effect parse s s' e
| UpdateFailed i h m :
    e = Resume i -> handlers s !! i = Some h -> h_phase h = AwaitUpdate ->
    parse (h_given h) = Err m ->
    handlers s' = <[i := mkHandler (h_document h) (h_given h) Returned]> (handlers s) ->
    storage s' = storage s -> outbox s' = outbox s ++ [ConsoleError m] ->
    published s' = published s ->
    Effect parse s s' e
| UpdateDone i h record diagnostics :
    e = Resume i -> handlers s !! i = Some h -> h_phase h = AwaitUpdate ->
    parse (h_given h) = Ok record ->
    handlers s'
    = <[i := mkHandler (h_document h) (h_given h) (AwaitDiagnostics diagnostics)]>
        (handlers s) ->
    storage s' = <[td_uri (h_given h) := record]> (storage s) ->
    outbox s' = outbox s -> published s' = published s ->
    Effect parse s s' e
| DiagnosticsSent i h diagnostics o latest :
    e = Resume i -> handlers s !! i = Some h ->
    h_phase h = AwaitDiagnostics diagnostics ->
    documents s !! td_uri (live s h) = Some o -> objects s !! o = Some latest ->
    handlers s' = <[i := mkHandler (h_document h) (h_given h) Returned]> (handlers s) ->
    storage s' = storage s ->
    outbox s' = outbox s ++ [SendDiagnostics (td_uri latest) diagnostics] ->
    published s' = latest :: published s ->
    Effect parse s s' e
| DiagnosticsDropped i h diagnostics :
    e = Resume i -> handlers s !! i = Some h ->
    h_phase h = AwaitDiagnostics diagnostics ->
    handlers s' = <[i := mkHandler (h_document h) (h_given h) Returned]> (handlers s) ->
    storage s' = storage s -> outbox s' = outbox s -> published s' = published s ->
    Effect parse s s' e.

(** The store of a scan result. *)
Definition storeOf (r : ScanResult) : gmap string ScssDocument :=
  match r with
  | Completed st => st_store st
  | Rejected _ st => st_store st
  end.

(** ** Inputs for the examples of the watched-files handler *)

(** A stored document as a text document of the same URI. *)
Definition asPlainText (d : ScssDocument) : TextDocument :=
  mkTextDocument (d_uri d) 1 EmptyString.

(** [index.scss] imports a [variables.scss] that is gone from the disk. *)
Definition goneFs : FileSystem :=
  mkFS {[ indexUri := Readable importText ]}.

(** A store that still has a record for [variables.scss]. *)
Definition staleStore : gmap string ScssDocument :=
  {[ variablesUri := documentOf variablesUri [plainVariable "$var" "1px"] ]}.

(** A parse step that fails on empty text. *)
Definition strictParse (fs : FileSystem) (document : TextDocument)
    : result ScssDocument :=
  if String.eqb (td_text document) EmptyString then Err "empty document"
  else Ok (Parser.parseDocument fs document).

(** * Properties *)

(** ** The work queue *)

Section QueueFacts.

Lemma queued_spec uri (queue : list (string * Origin)) :
  queued uri queue = true <-> uri ∈ queue.*1.
Proof.
  unfold queued. rewrite existsb_exists, list_elem_of_fmap. split.
  - intros (item & Hin & E). apply String.eqb_eq in E.
    exists item. split; [done | by apply list_elem_of_In].
  - intros (item & -> & Hin). exists item.
    split; [by apply list_elem_of_In | apply String.eqb_refl].
Qed.

Lemma enqueue_keeps targets store (queue : list (string * Origin)) item :
  item ∈ queue -> item ∈ enqueue targets store queue.
Proof.
  revert queue. induction targets as [|t ts IH]; intros queue Hin; simpl.
  - done.
  - destruct (_ || _); apply IH; [done|].
    apply elem_of_app. by left.
Qed.

Lemma enqueue_adds targets (store : gmap string ScssDocument) queue t :
  t ∈ targets -> store !! t = None -> t ∈ (enqueue targets store queue).*1.
Proof.
  revert queue. induction targets as [|t' ts IH]; intros queue Hin Hnone; simpl.
  - by apply elem_of_nil in Hin.
  - apply elem_of_cons in Hin as [->|Hin].
    + destruct (bool_decide (is_Some (store !! t')) || queued t' queue) eqn:E.
      * apply orb_true_iff in E as [E|E].
        -- apply bool_decide_eq_true in E. rewrite Hnone in E.
           by destruct E.
        -- apply queued_spec, list_elem_of_fmap in E as (item & -> & Hitem).
           apply list_elem_of_fmap. exists item.
           split; [done | by apply enqueue_keeps].
      * apply list_elem_of_fmap. exists (t', Discovered). split; [done|].
        apply enqueue_keeps, elem_of_app. right. by apply list_elem_of_singleton.
    + destruct (_ || _); by apply IH.
Qed.

Lemma enqueue_inv targets (store : gmap string ScssDocument) queue u o :
  (u, o) ∈ enqueue targets store queue ->
  (u, o) ∈ queue \/ (o = Discovered /\ u ∈ targets /\ store !! u = None).
Proof.
  revert queue. induction targets as [|t ts IH]; intros queue Hin; simpl in *.
  - by left.
  - destruct (bool_decide (is_Some (store !! t)) || queued t queue) eqn:E.
    + destruct (IH _ Hin) as [?|(? & ? & ?)]; [by left|].
      right. repeat split; [done | by apply elem_of_cons; right | done].
    + destruct (IH _ Hin) as [H|(? & ? & ?)].
      * apply elem_of_app in H as [H|H]; [by left|].
        apply list_elem_of_singleton in H. injection H as -> ->.
        right. repeat split; [apply elem_of_cons; by left|].
        apply orb_false_iff in E as [E _].
        apply bool_decide_eq_false in E.
        destruct (store !! t) eqn:L; [|done].
        exfalso. apply E. eauto.
      * right. repeat split; [done | by apply elem_of_cons; right | done].
Qed.

Lemma enqueue_nodup targets (store : gmap string ScssDocument) queue :
  NoDup queue.*1 -> NoDup (enqueue targets store queue).*1.
Proof.
  revert queue. induction targets as [|t ts IH]; intros queue Hnd; simpl.
  - done.
  - destruct (bool_decide (is_Some (store !! t)) || queued t queue) eqn:E.
    + by apply IH.
    + apply IH. rewrite fmap_app. simpl.
      apply orb_false_iff in E as [_ E].
      apply NoDup_app. repeat split; [done| |apply NoDup_singleton].
      intros x Hx Hx'. apply list_elem_of_singleton in Hx'. subst x.
      apply queued_spec in Hx. congruence.
Qed.

End QueueFacts.

(** ** Unresolved links *)

Section Unresolving.

Lemma dropTarget_Some gone target t :
  dropTarget gone target = Some t <-> target = Some t /\ gone t = false.
Proof.
  destruct target as [x|]; simpl.
  - destruct (gone x) eqn:E; split.
    + done.
    + intros [H ?]. injection H as ->. congruence.
    + intros H. injection H as ->. done.
    + intros [H _]. done.
  - split; [done | by intros [? _]].
Qed.

Lemma omap_values {A} (target : A -> option string) (l : list (string * A)) t :
  t ∈ omap target (values l) <-> exists k x, (k, x) ∈ l /\ target x = Some t.
Proof.
  unfold values. rewrite list_elem_of_omap. split.
  - intros (x & Hx & Ht). apply list_elem_of_In, in_map_iff in Hx as ([k y] & <- & Hy).
    exists k, y. split; [by apply list_elem_of_In | done].
  - intros (k & x & Hx & Ht). exists x. split; [|done].
    apply list_elem_of_In, in_map_iff. exists (k, x).
    split; [done | by apply list_elem_of_In].
Qed.

(** The targets of a document are those of its uses, of its forwards and of
    its imports. *)
Lemma linked_targets d u : linked d u <-> u ∈ linkTargets d.
Proof.
  unfold linked, linkTargets. rewrite !elem_of_app, !omap_values. tauto.
Qed.

Lemma elem_of_map_entry {A B} (f : string * A -> string * B) (l : list (string * A)) k y :
  (k, y) ∈ map f l <-> exists e, e ∈ l /\ f e = (k, y).
Proof.
  rewrite list_elem_of_In, in_map_iff. split.
  - intros (e & E & He). exists e. split; [by apply list_elem_of_In | done].
  - intros (e & He & E). exists e. split; [done | by apply list_elem_of_In].
Qed.

Lemma uses_unresolveBy gone d t :
  (exists k l, (k, l) ∈ d_uses (unresolveBy gone d) /\ use_target l = Some t)
  <-> (exists k l, (k, l) ∈ d_uses d /\ use_target l = Some t) /\ gone t = false.
Proof.
  simpl. split.
  - intros (k & l & Hl & Ht). apply elem_of_map_entry in Hl as ([k' l'] & Hin & E).
    injection E as -> <-. simpl in Ht. apply dropTarget_Some in Ht as [Ht Hg].
    split; [by exists k, l' | done].
  - intros [(k & l & Hl & Ht) Hg]. eexists k, _. split.
    + apply elem_of_map_entry. exists (k, l). split; [done | reflexivity].
    + simpl. by apply dropTarget_Some.
Qed.

Lemma forwards_unresolveBy gone d t :
  (exists k l, (k, l) ∈ d_forwards (unresolveBy gone d) /\ fw_target l = Some t)
  <-> (exists k l, (k, l) ∈ d_forwards d /\ fw_target l = Some t) /\ gone t = false.
Proof.
  simpl. split.
  - intros (k & l & Hl & Ht). apply elem_of_map_entry in Hl as ([k' l'] & Hin & E).
    injection E as -> <-. simpl in Ht. apply dropTarget_Some in Ht as [Ht Hg].
    split; [by exists k, l' | done].
  - intros [(k & l & Hl & Ht) Hg]. eexists k, _. split.
    + apply elem_of_map_entry. exists (k, l). split; [done | reflexivity].
    + simpl. by apply dropTarget_Some.
Qed.

Lemma imports_unresolveBy gone d t :
  (exists k l, (k, l) ∈ d_imports (unresolveBy gone d) /\ imp_target l = Some t)
  <-> (exists k l, (k, l) ∈ d_imports d /\ imp_target l = Some t) /\ gone t = false.
Proof.
  simpl. split.
  - intros (k & l & Hl & Ht). apply elem_of_map_entry in Hl as ([k' l'] & Hin & E).
    injection E as -> <-. simpl in Ht. apply dropTarget_Some in Ht as [Ht Hg].
    split; [by exists k, l' | done].
  - intros [(k & l & Hl & Ht) Hg]. eexists k, _. split.
    + apply elem_of_map_entry. exists (k, l). split; [done | reflexivity].
    + simpl. by apply dropTarget_Some.
Qed.

(** The targets that are left are those that are not gone. *)
Lemma linkTargets_unresolveBy gone d t :
  t ∈ linkTargets (unresolveBy gone d) <-> t ∈ linkTargets d /\ gone t = false.
Proof.
  rewrite <- !linked_targets. unfold linked.
  rewrite uses_unresolveBy, forwards_unresolveBy, imports_unresolveBy. tauto.
Qed.

Lemma dropTarget_twice p q target :
  dropTarget q (dropTarget p target) = dropTarget (fun t => p t || q t) target.
Proof. destruct target as [t|]; simpl; [|done]. by destruct (p t); simpl. Qed.

Lemma unresolveBy_twice p q d :
  unresolveBy q (unresolveBy p d) = unresolveBy (fun t => p t || q t) d.
Proof.
  unfold unresolveBy. simpl. rewrite !map_map.
  f_equal; apply map_ext; intros [k l]; simpl; by rewrite dropTarget_twice.
Qed.

Lemma dropTarget_ext p q target :
  (forall t, target = Some t -> p t = q t) ->
  dropTarget p target = dropTarget q target.
Proof. intros H. destruct target as [t|]; simpl; [|done]. by rewrite (H t). Qed.

(** Only what is done to the targets of the document counts. *)
Lemma unresolveBy_ext p q d :
  (forall t, t ∈ linkTargets d -> p t = q t) ->
  unresolveBy p d = unresolveBy q d.
Proof.
  intros H. unfold unresolveBy.
  f_equal; apply map_ext_in; intros [k l] Hin; simpl; f_equal; f_equal;
    apply dropTarget_ext; intros t Ht; apply H, linked_targets;
    apply list_elem_of_In in Hin.
  - right; right. by exists k, l.
  - left. by exists k, l.
  - right; left. by exists k, l.
Qed.

Lemma unresolveBy_none d : unresolveBy (fun _ => false) d = d.
Proof.
  destruct d as [uri name vars mixins functions imports uses forwards].
  unfold unresolveBy. simpl. f_equal.
  - rewrite <- (map_id imports) at 2. apply map_ext. by intros [k [link [t|]]].
  - rewrite <- (map_id uses) at 2. apply map_ext. by intros [k [link [t|] ns al]].
  - rewrite <- (map_id forwards) at 2. apply map_ext. by intros [k [link [t|] pre hide]].
Qed.

End Unresolving.

(** ** The scanner *)

Section ScannerCorrect.
Variable fs : FileSystem.
Variable accepted : string -> bool.
Variable parse : TextDocument -> result ScssDocument.
Variable settings : ISettings.
Variable sched : list (string * Origin) -> list (string * Origin).
Hypothesis sched_perm : forall queue, sched queue ≡ₚ queue.
Variable seeds : list string.

Local Notation "'Inv'" := (ScanInv fs accepted parse settings seeds).
Local Notation "'Post'" := (ScanPost fs accepted parse settings seeds).

Lemma scannable_fun u d d' :
  scannable fs accepted parse u d -> scannable fs accepted parse u d' -> d = d'.
Proof. intros (_ & _ & H) (_ & _ & H'). congruence. Qed.

Lemma scannable_not_failing u d m :
  scannable fs accepted parse u d -> failing fs accepted parse u m -> False.
Proof. intros (_ & _ & H) (_ & _ & H'). congruence. Qed.

Lemma isFailing_spec u :
  isFailing fs accepted parse u = true <-> exists m, failing fs accepted parse u m.
Proof.
  unfold isFailing, failing. split.
  - intros H. apply andb_true_iff in H as [H Hl]. apply andb_true_iff in H as [He Ha].
    destruct (load fs parse u) as [d|m]; [done|]. by exists m.
  - intros (m & He & Ha & Hl). by rewrite He, Ha, Hl.
Qed.

Lemma scannable_not_isFailing u d :
  scannable fs accepted parse u d -> isFailing fs accepted parse u = false.
Proof.
  intros Hs. destruct (isFailing fs accepted parse u) eqn:E; [|done].
  apply isFailing_spec in E as [m Hm]. by destruct (scannable_not_failing u d m).
Qed.

Lemma initial_inv : NoDup seeds -> Inv (map (fun uri => (uri, Seed)) seeds) emptyState.
Proof.
  intros Hnd.
  assert (Hfst : (map (fun uri : string => (uri, Seed)) seeds).*1 = seeds).
  { clear. induction seeds as [|x l IH]; simpl; [done | by f_equal]. }
  split; simpl.
  - by rewrite Hfst.
  - intros; apply lookup_empty.
  - intros u d H. by rewrite lookup_empty in H.
  - intros _ u d t H. by rewrite lookup_empty in H.
  - intros u d Hu _. right. by rewrite Hfst.
  - intros u o Hin. apply list_elem_of_In, in_map_iff in Hin as (x & E & Hx).
    injection E as -> <-. by apply list_elem_of_In.
  - intros u m Hu _. apply list_elem_of_In, in_map_iff. exists u.
    split; [done | by apply list_elem_of_In].
  - intros u [d H]. by rewrite lookup_empty in H.
  - intros; reflexivity.
  - intros u H. by apply elem_of_nil in H.
Qed.

Lemma inv_perm queue queue' st : queue ≡ₚ queue' -> Inv queue st -> Inv queue' st.
Proof.
  intros Hp [H1 H2 H3 H4 H5 H6 H7 H8 H9 H10].
  split; try done.
  - by rewrite <- Hp.
  - intros u Hu. apply H2. by rewrite Hp.
  - intros Hf u d t Hu Ht He Ha.
    destruct (H4 Hf u d t Hu Ht He Ha); [by left | right; by rewrite <- Hp].
  - intros u d Hu Hs. destruct (H5 u d Hu Hs); [by left | right; by rewrite <- Hp].
  - intros u o Hin. apply H6. by rewrite Hp.
  - intros u m Hu Hm. rewrite <- Hp. by apply (H7 u m).
Qed.

Lemma readCount_snoc u x store' st :
  readCount u (mkScanState store' (st_reads st ++ [x]))
  = readCount u st + (if decide (x = u) then 1 else 0).
Proof.
  unfold readCount. simpl. rewrite filter_app, length_app. f_equal.
  rewrite filter_cons. destruct (decide (x = u)); reflexivity.
Qed.

Lemma pending_insert u d file (st : ScanState) reads :
  fs_files fs !! u = Some file -> st_store st !! u = None ->
  pending fs (mkScanState (<[u := d]> (st_store st)) reads) < pending fs st.
Proof.
  intros Hfile Hfresh. unfold pending. simpl. apply subset_size.
  rewrite dom_insert_L.
  assert (Hin : u ∈ dom (fs_files fs)) by (apply elem_of_dom; eauto).
  assert (Hout : u ∉ dom (st_store st)) by (by apply not_elem_of_dom).
  split.
  - intros x Hx. apply elem_of_difference in Hx as [Hx1 Hx2].
    apply elem_of_difference. split; [done|].
    intros Hx3. apply Hx2, elem_of_union. by right.
  - intros Hsub. assert (Hu : u ∈ dom (fs_files fs) ∖ dom (st_store st))
      by (by apply elem_of_difference).
    apply Hsub, elem_of_difference in Hu as [_ Hu].
    apply Hu, elem_of_union. left. by apply elem_of_singleton.
Qed.

(** Unresolving links changes no key of the store. *)
Lemma pending_unresolve u (st : ScanState) reads :
  pending fs (mkScanState (unresolve u <$> st_store st) reads) = pending fs st.
Proof. unfold pending. simpl. by rewrite dom_fmap_L. Qed.

Lemma fsExists_lookup u : fsExists fs u = true -> exists file, fs_files fs !! u = Some file.
Proof. unfold fsExists. intros H. by apply bool_decide_eq_true in H as [file ?]; eauto. Qed.

(** Skipping the head of the queue: the file is not there, or is not of an
    accepted kind. *)
Lemma visit_skip u o rest st :
  Inv ((u, o) :: rest) st ->
  negb (fsExists fs u) || negb (accepted u) = true ->
  Inv rest st.
Proof.
  intros [H1 H2 H3 H4 H5 H6 H7 H8 H9 H10] Hskip.
  assert (Hno : ~ (fsExists fs u = true /\ accepted u = true)).
  { intros [He Ha]. rewrite He, Ha in Hskip. discriminate. }
  simpl in H1. apply NoDup_cons in H1 as [Hu Hnd].
  split; try done.
  - intros x Hx. apply H2. simpl. apply elem_of_cons. by right.
  - intros Hf w d t Hw Ht He Ha.
    destruct (H4 Hf w d t Hw Ht He Ha) as [?|Hin]; [by left|].
    simpl in Hin. apply elem_of_cons in Hin as [->|?]; [|by right].
    by destruct Hno.
  - intros w d Hw Hs. destruct (H5 w d Hw Hs) as [?|Hin]; [by left|].
    simpl in Hin. apply elem_of_cons in Hin as [->|?]; [|by right].
    destruct Hs as (? & ? & _). by destruct Hno.
  - intros x o' Hx. apply H6. apply elem_of_cons. by right.
  - intros w m Hw Hm. specialize (H7 w m Hw Hm).
    apply elem_of_cons in H7 as [E|?]; [|done].
    injection E as -> ->. destruct Hm as (He & Ha & _). by destruct Hno.
Qed.

(** A discovered file that cannot be loaded: the failure is swallowed and
    the links to the file are unresolved. *)
Lemma visit_swallow u rest st m :
  Inv ((u, Discovered) :: rest) st ->
  fsExists fs u = true -> accepted u = true -> load fs parse u = Err m ->
  Inv rest (mkScanState (unresolve u <$> st_store st) (st_reads st ++ [u])).
Proof.
  intros [H1 H2 H3 H4 H5 H6 H7 H8 H9 H10] He Ha Hl.
  assert (Hno : forall d, ~ scannable fs accepted parse u d).
  { intros d (_ & _ & H). congruence. }
  assert (Hfail : isFailing fs accepted parse u = true).
  { apply isFailing_spec. by exists m. }
  assert (Hfollow : scanImportedFiles settings = true).
  { destruct (H6 u Discovered) as [? _]; [apply elem_of_cons; by left | done]. }
  simpl in H1. apply NoDup_cons in H1 as [Hu Hnd].
  assert (Hstored : forall w d', (unresolve u <$> st_store st) !! w = Some d' ->
            exists d, st_store st !! w = Some d /\ d' = unresolve u d).
  { intros w d' Hw. rewrite lookup_fmap in Hw.
    destruct (st_store st !! w) as [d|]; [|done]. injection Hw as <-. eauto. }
  assert (Hkeys : forall w, is_Some ((unresolve u <$> st_store st) !! w)
                            <-> is_Some (st_store st !! w)).
  { intros w. rewrite lookup_fmap. by rewrite fmap_is_Some. }
  split; simpl.
  - done.
  - intros x Hx. rewrite lookup_fmap, H2; [done|]. simpl. apply elem_of_cons. by right.
  - intros w d' Hw. destruct (Hstored w d' Hw) as (d & Hd & ->).
    destruct (H3 w d Hd) as (Hr & d0 & gone & Hs & -> & Hgone). split; [done|].
    exists d0, (fun t => gone t || String.eqb u t). split; [done|]. split.
    + unfold unresolve. by rewrite unresolveBy_twice.
    + intros t Ht. apply orb_true_iff in Ht as [Ht|Ht]; [by apply Hgone|].
      apply String.eqb_eq in Ht. by subst t.
  - intros Hf w d' t Hw Ht Het Hat.
    destruct (Hstored w d' Hw) as (d & Hd & ->).
    apply linkTargets_unresolveBy in Ht as [Ht Hne].
    apply String.eqb_neq in Hne.
    destruct (H4 Hf w d t Hd Ht Het Hat) as [?|Hin]; [left; by apply Hkeys|].
    simpl in Hin. apply elem_of_cons in Hin as [?|?]; [by subst t | by right].
  - intros w d Hw Hs. destruct (H5 w d Hw Hs) as [?|Hin]; [left; by apply Hkeys|].
    simpl in Hin. apply elem_of_cons in Hin as [->|?]; [|by right].
    by destruct (Hno d).
  - intros x o' Hx.
    assert (Hx' : (x, o') ∈ (u, Discovered) :: rest) by (apply elem_of_cons; by right).
    specialize (H6 x o' Hx'). destruct o'; [done|].
    destruct H6 as (_ & v & d & Hv & Ht). split; [done|].
    exists v, (unresolve u d). split.
    + simpl. by rewrite lookup_fmap, Hv.
    + apply linkTargets_unresolveBy. split; [done|]. apply String.eqb_neq.
      intros ->. apply Hu, list_elem_of_fmap. by exists (x, Discovered).
  - intros w m' Hw Hm. specialize (H7 w m' Hw Hm).
    apply elem_of_cons in H7 as [E|?]; [discriminate E | done].
  - intros w Hw. rewrite readCount_snoc. apply Hkeys in Hw.
    destruct (decide (u = w)) as [->|_].
    + destruct Hw as [d Hd]. rewrite H2 in Hd; [done|]. simpl. apply elem_of_cons. by left.
    + rewrite Nat.add_0_r. by apply H8.
  - intros w d Hs Hw. rewrite readCount_snoc.
    destruct (decide (u = w)) as [->|_]; [by destruct (Hno d)|].
    rewrite Nat.add_0_r. apply (H9 w d Hs).
    destruct (st_store st !! w) as [d1|] eqn:E; [|done].
    by rewrite lookup_fmap, E in Hw.
  - intros x Hx. apply elem_of_app in Hx as [Hx|Hx].
    + by apply H10.
    + apply list_elem_of_singleton in Hx. subst x. repeat split; [done..|]. by right.
Qed.

(** A file that loads: its record goes into the store and, when links are
    followed, its new targets go into the queue. *)
Lemma visit_store u o rest st doc :
  Inv ((u, o) :: rest) st ->
  scannable fs accepted parse u doc ->
  Inv (if scanImportedFiles settings
       then enqueue (linkTargets doc) (<[u := doc]> (st_store st)) rest
       else rest)
      (mkScanState (<[u := doc]> (st_store st)) (st_reads st ++ [u])).
Proof.
  intros [H1 H2 H3 H4 H5 H6 H7 H8 H9 H10] Hs.
  assert (Hfresh : st_store st !! u = None).
  { apply H2. simpl. apply elem_of_cons. by left. }
  simpl in H1. apply NoDup_cons in H1 as [Hu Hnd].
  set (store' := <[u := doc]> (st_store st)).
  set (st' := mkScanState store' (st_reads st ++ [u])).
  set (queue' := if scanImportedFiles settings
                 then enqueue (linkTargets doc) store' rest else rest).
  assert (Hsub : forall v d, st_store st !! v = Some d -> st_store st' !! v = Some d).
  { intros v d Hv. simpl. unfold store'. rewrite lookup_insert_ne; [done|].
    intros <-. congruence. }
  assert (Hkeep : forall item, item ∈ rest -> item ∈ queue').
  { intros item Hitem. unfold queue'. destruct (scanImportedFiles settings); [|done].
    by apply enqueue_keeps. }
  assert (Hkeep1 : forall x, x ∈ rest.*1 -> x ∈ queue'.*1).
  { intros x Hx. apply list_elem_of_fmap in Hx as (item & -> & Hitem).
    apply list_elem_of_fmap. exists item. split; [done | by apply Hkeep]. }
  assert (Hnew : forall x o', (x, o') ∈ queue' ->
            (x, o') ∈ rest
            \/ (scanImportedFiles settings = true /\ o' = Discovered
                /\ x ∈ linkTargets doc /\ store' !! x = None)).
  { intros x o' Hx. unfold queue' in Hx.
    destruct (scanImportedFiles settings) eqn:Hf; [|by left].
    apply enqueue_inv in Hx as [?|(? & ? & ?)]; [by left | right; done]. }
  assert (Hreach : reach fs accepted parse settings seeds u).
  { specialize (H6 u o). destruct o.
    - eapply reach_seed; [|exact Hs]. apply H6. apply elem_of_cons. by left.
    - destruct H6 as (Hf & v & d & Hv & Ht); [apply elem_of_cons; by left|].
      destruct (H3 v d Hv) as (Hr & d0 & gone & (? & ? & Hl) & -> & _).
      apply linkTargets_unresolveBy in Ht as [Ht _].
      apply (reach_link _ _ _ _ _ v d0 u doc); try done.
      by apply linked_targets. }
  assert (Hstored : forall t, is_Some (st_store st !! t) \/ t = u ->
            is_Some (store' !! t)).
  { intros t [[d Hd]| ->]; unfold store'.
    - destruct (decide (u = t)) as [->|?]; [congruence|].
      rewrite lookup_insert_ne; eauto.
    - rewrite lookup_insert_eq; eauto. }
  split; simpl; fold store'.
  - unfold queue'. destruct (scanImportedFiles settings); [|done].
    by apply enqueue_nodup.
  - intros x Hx. apply list_elem_of_fmap in Hx as ([x' o'] & -> & Hx). simpl.
    apply Hnew in Hx as [Hx|(_ & _ & _ & ?)]; [|done].
    assert (Hx1 : x' ∈ rest.*1).
    { apply list_elem_of_fmap. by exists (x', o'). }
    unfold store'. rewrite lookup_insert_ne; [|intros <-; done].
    apply H2. simpl. apply elem_of_cons. by right.
  - intros w d Hw. unfold store' in Hw.
    destruct (decide (u = w)) as [<-|Hne].
    + rewrite lookup_insert_eq in Hw. injection Hw as <-. split; [done|].
      exists doc, (fun _ => false). split; [done|].
      split; [by rewrite unresolveBy_none | done].
    + rewrite lookup_insert_ne in Hw by done. by apply H3.
  - intros Hf w d t Hw Ht Het Hat.
    destruct (store' !! t) eqn:Hst; [left; eauto|]. right.
    unfold store' in Hw. destruct (decide (u = w)) as [<-|Hne].
    + rewrite lookup_insert_eq in Hw. injection Hw as <-.
      unfold queue'. rewrite Hf. by apply enqueue_adds.
    + rewrite lookup_insert_ne in Hw by done.
      destruct (H4 Hf w d t Hw Ht Het Hat) as [Hin|Hin].
      * destruct (Hstored t) as [? ?]; [by left | congruence].
      * simpl in Hin. apply elem_of_cons in Hin as [->|?]; [|by apply Hkeep1].
        destruct (Hstored u) as [? ?]; [by right | congruence].
  - intros w d Hw Hs'.
    destruct (H5 w d Hw Hs') as [Hin|Hin].
    + left. apply Hstored. by left.
    + simpl in Hin. apply elem_of_cons in Hin as [->|?].
      * left. apply Hstored. by right.
      * right. by apply Hkeep1.
  - intros x o' Hx. apply Hnew in Hx as [Hx|(Hf & -> & Ht & _)].
    + assert (Hx' : (x, o') ∈ (u, o) :: rest) by (apply elem_of_cons; by right).
      specialize (H6 x o' Hx'). destruct o'; [done|].
      destruct H6 as (Hf & v & d & Hv & Ht). split; [done|].
      exists v, d. split; [by apply Hsub | done].
    + split; [done|]. exists u, doc. split; [|done].
      unfold st', store'. simpl. by rewrite lookup_insert_eq.
  - intros w m Hw Hm. apply Hkeep. specialize (H7 w m Hw Hm).
    apply elem_of_cons in H7 as [E|?]; [|done].
    injection E as -> ->. by destruct (scannable_not_failing u doc m).
  - intros w Hw. unfold st'. rewrite readCount_snoc.
    destruct (decide (u = w)) as [<-|Hne].
    + by rewrite (H9 u doc).
    + rewrite Nat.add_0_r. apply H8.
      unfold store' in Hw. by rewrite lookup_insert_ne in Hw.
  - intros w d Hs' Hw. unfold st'. rewrite readCount_snoc.
    unfold store' in Hw. destruct (decide (u = w)) as [<-|Hne].
    + by rewrite lookup_insert_eq in Hw.
    + rewrite lookup_insert_ne in Hw by done.
      rewrite Nat.add_0_r. by apply (H9 w d).
  - intros x Hx. apply elem_of_app in Hx as [Hx|Hx].
    + by apply H10.
    + apply list_elem_of_singleton in Hx. subst x.
      destruct Hs as (? & ? & ?). repeat split; [done..|].
      specialize (H6 u o). destruct o.
      * left. apply H6. apply elem_of_cons. by left.
      * right. destruct H6 as [? _]; [apply elem_of_cons; by left | done].
Qed.

(** The queue drains: with enough fuel the loop returns, and what it
    returns satisfies [ScanPost]. The store can only grow by files of the
    file system, and between two additions the queue only shrinks. *)
Lemma drain_total n : forall m queue st,
  pending fs st <= n -> length queue <= m -> Inv queue st ->
  exists fuel r,
    drain fs accepted parse settings sched fuel queue st = Some r /\ Post r.
Proof.
  induction n as [n IHn] using lt_wf_ind.
  induction m as [|m IHm]; intros queue st Hp Hlen HI.
  - destruct queue; [|simpl in Hlen; lia].
    exists 1, (Completed st). simpl.
    pose proof (sched_perm []) as Hs. apply Permutation_nil_r in Hs.
    rewrite Hs. done.
  - destruct (sched queue) as [|[u o] rest] eqn:Hs.
    + pose proof (sched_perm queue) as Hq. rewrite Hs in Hq.
      apply Permutation_nil in Hq. subst queue.
      exists 1, (Completed st). simpl. rewrite Hs. done.
    + pose proof (sched_perm queue) as Hq. rewrite Hs in Hq.
      assert (HI' : Inv ((u, o) :: rest) st) by (by apply (inv_perm queue)).
      assert (Hrest : length rest <= m).
      { apply Permutation_length in Hq. simpl in Hq. lia. }
      destruct (negb (fsExists fs u) || negb (accepted u)) eqn:Hskip.
      * destruct (IHm rest st Hp Hrest (visit_skip u o rest st HI' Hskip))
          as (fuel & r & Hr & HP).
        exists (S fuel), r. split; [|done].
        simpl. rewrite Hs. simpl. by rewrite Hskip.
      * apply orb_false_iff in Hskip as [He Ha].
        apply negb_false_iff in He, Ha.
        destruct (load fs parse u) as [doc|msg] eqn:Hl.
        -- assert (Hsc : scannable fs accepted parse u doc) by done.
           pose proof (visit_store u o rest st doc HI' Hsc) as HI''.
           destruct (fsExists_lookup u He) as [file Hfile].
           assert (Hfresh : st_store st !! u = None).
           { apply (inv_fresh _ _ _ _ _ _ _ HI'). simpl. apply elem_of_cons. by left. }
           pose proof (pending_insert u doc file st (st_reads st ++ [u]) Hfile Hfresh) as Hlt.
           assert (Hlt' : pending fs
                            (mkScanState (<[u := doc]> (st_store st)) (st_reads st ++ [u]))
                          < n) by lia.
           destruct (IHn _ Hlt' _ _ _ (Nat.le_refl _) (Nat.le_refl _) HI'')
             as (fuel & r & Hr & HP).
           exists (S fuel), r. split; [|done].
           simpl. rewrite Hs. simpl. by rewrite He, Ha, Hl.
        -- destruct o.
           ++ exists 1, (Rejected msg (mkScanState (st_store st) (st_reads st ++ [u]))).
              split; [simpl; rewrite Hs; simpl; by rewrite He, Ha, Hl|].
              split.
              ** exists u. split; [|done].
                 apply (inv_origin _ _ _ _ _ _ _ HI' u Seed). apply elem_of_cons. by left.
              ** intros w [d Hw]. by destruct (inv_sound _ _ _ _ _ _ _ HI' w d Hw).
           ++ pose proof (visit_swallow u rest st msg HI' He Ha Hl) as HI''.
              assert (Hp' : pending fs (mkScanState (unresolve u <$> st_store st)
                                          (st_reads st ++ [u])) <= n)
                by (by rewrite pending_unresolve).
              destruct (IHm rest _ Hp' Hrest HI'') as (fuel & r & Hr & HP).
              exists (S fuel), r. split; [|done].
              simpl. rewrite Hs. simpl. by rewrite He, Ha, Hl.
Qed.

(** Whatever the fuel, a result that the loop returns satisfies [ScanPost]. *)
Lemma drain_sound fuel : forall queue st r,
  Inv queue st ->
  drain fs accepted parse settings sched fuel queue st = Some r -> Post r.
Proof.
  induction fuel as [|fuel IH]; intros queue st r HI Hr; simpl in Hr; [done|].
  pose proof (sched_perm queue) as Hq.
  destruct (sched queue) as [|[u o] rest] eqn:Hs.
  - apply Permutation_nil in Hq. subst queue. injection Hr as <-. exact HI.
  - assert (HI' : Inv ((u, o) :: rest) st) by (by apply (inv_perm queue)).
    simpl in Hr.
    destruct (negb (fsExists fs u) || negb (accepted u)) eqn:Hskip.
    + apply (IH rest st r); [by apply (visit_skip u o)|done].
    + apply orb_false_iff in Hskip as [He Ha].
      apply negb_false_iff in He, Ha.
      destruct (load fs parse u) as [doc|msg] eqn:Hl.
      * eapply IH; [|exact Hr]. by apply (visit_store u o rest st doc).
      * destruct o.
        -- injection Hr as <-. split.
           ++ exists u. split; [|done].
              apply (inv_origin _ _ _ _ _ _ _ HI' u Seed). apply elem_of_cons. by left.
           ++ intros w [d Hw]. by destruct (inv_sound _ _ _ _ _ _ _ HI' w d Hw).
        -- eapply IH; [|exact Hr]. by apply (visit_swallow u rest st msg).
Qed.

(** [scan] on distinct seeds and a fresh store. *)
Lemma scan_total :
  NoDup seeds ->
  exists fuel r,
    scan fs accepted parse settings sched fuel seeds emptyState = Some r /\ Post r.
Proof.
  intros Hnd. unfold scan.
  by apply (drain_total _ _ _ _ (Nat.le_refl _) (Nat.le_refl _)), initial_inv.
Qed.

(** At the end every file that is reachable is in the store. *)
Lemma completed_reach st u :
  Inv [] st -> reach fs accepted parse settings seeds u -> is_Some (st_store st !! u).
Proof.
  intros HI Hr.
  induction Hr as [u d0 Hu Hs | v d0 u d' Hf Hv IH Hvl Ht Hs].
  - destruct (inv_seeds _ _ _ _ _ _ _ HI u d0 Hu Hs) as [?|Hin]; [done|].
    by apply elem_of_nil in Hin.
  - destruct IH as [dv Hdv].
    destruct (inv_sound _ _ _ _ _ _ _ HI v dv Hdv) as (_ & d1 & gone & Hs1 & -> & Hgone).
    assert (d1 = d0) by (destruct Hs1 as (_ & _ & ?); congruence). subst d1.
    assert (Hkept : u ∈ linkTargets (unresolveBy gone d0)).
    { apply linkTargets_unresolveBy. split; [by apply linked_targets|].
      destruct (gone u) eqn:E; [|done]. destruct (Hgone u E) as [_ Hfail].
      by rewrite (scannable_not_isFailing u d' Hs) in Hfail. }
    destruct Hs as (He & Ha & _).
    destruct (inv_closed _ _ _ _ _ _ _ HI Hf v _ u Hdv Hkept He Ha) as [?|Hin]; [done|].
    by apply elem_of_nil in Hin.
Qed.

(** At the end the links that are left lead to no file that fails. *)
Lemma completed_settled st u d0 gone :
  Inv [] st -> st_store st !! u = Some (unresolveBy gone d0) ->
  (forall t, gone t = true ->
     scanImportedFiles settings = true /\ isFailing fs accepted parse t = true) ->
  unresolveBy gone d0 = settled fs accepted parse settings d0.
Proof.
  intros HI Hu Hgone. unfold settled.
  destruct (scanImportedFiles settings) eqn:Hf.
  - apply unresolveBy_ext. intros t Ht.
    destruct (gone t) eqn:E; [symmetry; by apply Hgone|].
    destruct (isFailing fs accepted parse t) eqn:Hfail; [|done].
    assert (Hkept : t ∈ linkTargets (unresolveBy gone d0))
      by (by apply linkTargets_unresolveBy).
    apply isFailing_spec in Hfail as (m & He & Ha & Hl).
    destruct (inv_closed _ _ _ _ _ _ _ HI Hf u _ t Hu Hkept He Ha) as [[d Hd]|Hin].
    + destruct (inv_sound _ _ _ _ _ _ _ HI t d Hd) as (_ & d1 & _ & (_ & _ & ?) & _).
      congruence.
    + by apply elem_of_nil in Hin.
  - rewrite <- (unresolveBy_none d0) at 2. apply unresolveBy_ext.
    intros t _. destruct (gone t) eqn:E; [|done]. destruct (Hgone t E). congruence.
Qed.

(** At the end the store holds the closure of the seeds, each file with the
    record it loads to, the links to files that fail unresolved. *)
Lemma completed_store st u d :
  Inv [] st ->
  st_store st !! u = Some d
  <-> reach fs accepted parse settings seeds u
      /\ exists d0, load fs parse u = Ok d0
                    /\ d = settled fs accepted parse settings d0.
Proof.
  intros HI. split.
  - intros Hu.
    destruct (inv_sound _ _ _ _ _ _ _ HI u d Hu) as (Hr & d0 & gone & Hs & -> & Hgone).
    split; [done|]. exists d0. split; [by destruct Hs as (_ & _ & ?)|].
    by apply (completed_settled st u).
  - intros (Hr & d0 & Hl & ->).
    destruct (completed_reach st u HI Hr) as [d Hd]. rewrite Hd. f_equal.
    destruct (inv_sound _ _ _ _ _ _ _ HI u d Hd) as (_ & d1 & gone & Hs & -> & Hgone).
    assert (d1 = d0) by (destruct Hs as (_ & _ & ?); congruence). subst d1.
    by apply (completed_settled st u).
Qed.

(** A scan that completes met no failing seed. *)
Lemma completed_no_failing st u m :
  Inv [] st -> u ∈ seeds -> ~ failing fs accepted parse u m.
Proof.
  intros HI Hu Hm. by apply (inv_failing _ _ _ _ _ _ _ HI) , elem_of_nil in Hm.
Qed.

End ScannerCorrect.

(** ** JavaScript helpers *)

Lemma includes_In x xs : JS.includes x xs = true <-> In x xs.
Proof.
  unfold JS.includes. rewrite existsb_exists. split.
  - intros (y & Hy & E). apply String.eqb_eq in E. by subst.
  - intros H. exists x. split; [done | apply String.eqb_refl].
Qed.

Lemma includes_false x xs : JS.includes x xs = false <-> ~ In x xs.
Proof.
  rewrite <- includes_In. destruct (JS.includes x xs); split; try done.
Qed.

(** ** Variable completion *)

Lemma omap_pointwise {A B} (f g : A -> option B) (l : list A) :
  (forall x, f x = g x) -> omap f l = omap g l.
Proof.
  intros Hfg. induction l as [|x l IH]; [done|].
  change (omap f (x :: l)) with (match f x with Some y => y :: omap f l | None => omap f l end).
  change (omap g (x :: l)) with (match g x with Some y => y :: omap g l | None => omap g l end).
  rewrite Hfg, IH. done.
Qed.

Section CompletionFacts.
Context `{U : CompletionUtils}.
Variable scssDocument : ScssDocument.
Variable currentDocument : TextDocument.
Variable context : CompletionContext.
Variable hiddenSymbols : list string.

Lemma fold_push prefix vars acc :
  fold_left
    (fun completions variable =>
       match variableCompletionItem scssDocument currentDocument context
               hiddenSymbols prefix variable with
       | Some item => completions ++ [item]
       | None => completions
       end) vars acc
  = acc ++ omap (variableCompletionItem scssDocument currentDocument context
                   hiddenSymbols prefix) vars.
Proof.
  revert acc. induction vars as [|v vs IH]; intros acc; simpl.
  - by rewrite app_nil_r.
  - rewrite IH. destruct (variableCompletionItem _ _ _ _ _ v); [|done].
    by rewrite <- app_assoc.
Qed.

(** The loop pushes, in order, the items of the iterations that do not
    [continue]. *)
Lemma createVariableCompletionItems_omap prefix :
  createVariableCompletionItems scssDocument currentDocument context
    hiddenSymbols prefix
  = omap (variableCompletionItem scssDocument currentDocument context
            hiddenSymbols prefix)
      (values (d_variables scssDocument)).
Proof. unfold createVariableCompletionItems. by rewrite fold_push. Qed.

Lemma item_pushed prefix v item :
  v ∈ values (d_variables scssDocument) ->
  variableCompletionItem scssDocument currentDocument context hiddenSymbols
    prefix v = Some item ->
  item ∈ createVariableCompletionItems scssDocument currentDocument context
           hiddenSymbols prefix.
Proof.
  intros Hv Hitem. rewrite createVariableCompletionItems_omap.
  apply list_elem_of_omap. by exists v.
Qed.

Lemma pushed_item prefix item :
  item ∈ createVariableCompletionItems scssDocument currentDocument context
           hiddenSymbols prefix ->
  exists v, v ∈ values (d_variables scssDocument)
    /\ variableCompletionItem scssDocument currentDocument context
         hiddenSymbols prefix v = Some item.
Proof.
  rewrite createVariableCompletionItems_omap. intros H.
  by apply list_elem_of_omap in H.
Qed.

(** When the iteration for a variable with an owning mixin ends. *)
Lemma mixin_branch prefix v :
  JS.truthy (v_mixin v) = true ->
  exists item,
    variableCompletionItem scssDocument currentDocument context hiddenSymbols
      prefix v = Some item
    /\ detail item
       = "Argument from " +:+ default EmptyString (v_mixin v) +:+ ", "
           +:+ toLowerCase ("Variable declared in " +:+ d_fileName scssDocument)
    /\ sortText item = None.
Proof.
  intros Hm. unfold variableCompletionItem. rewrite Hm.
  destruct (JS.truthy (namespace context)), (isEmbedded context);
    eexists; split; reflexivity || (split; reflexivity).
Qed.

(** When the iteration for a variable without an owning mixin [continue]s. *)
Lemma plain_branch prefix v :
  JS.truthy (v_mixin v) = false ->
  variableCompletionItem scssDocument currentDocument context hiddenSymbols
    prefix v = None
  <-> (rePrivate (v_name v) = true /\ d_uri scssDocument <> td_uri currentDocument)
      \/ In (v_name v) hiddenSymbols.
Proof.
  intros Hm. unfold variableCompletionItem. rewrite Hm.
  rewrite <- includes_In, <- String.eqb_neq.
  destruct (rePrivate (v_name v));
    destruct (String.eqb (d_uri scssDocument) (td_uri currentDocument));
    destruct (JS.includes (v_name v) hiddenSymbols); simpl;
    destruct (JS.truthy (namespace context)), (isEmbedded context);
    split; intros H; try done; auto;
    destruct H as [[? ?]|?]; done.
Qed.

(** The label of an item, by the two cases of [context.namespace]. *)
Lemma item_label prefix v item :
  variableCompletionItem scssDocument currentDocument context hiddenSymbols
    prefix v = Some item ->
  label item
  = if JS.truthy (namespace context)
    then "$" +:+ prefix +:+ asDollarlessVariable (v_name v)
    else v_name v.
Proof.
  unfold variableCompletionItem.
  destruct (if JS.truthy (v_mixin v) then _ else _) as [[[d s] doc]|]; [|done].
  destruct (JS.truthy (namespace context)), (isEmbedded context);
    intros H; injection H as <-; reflexivity.
Qed.

(** Without a namespace the prefix plays no part in an iteration. *)
Lemma prefix_unused prefix v :
  JS.truthy (namespace context) = false ->
  variableCompletionItem scssDocument currentDocument context hiddenSymbols
    prefix v
  = variableCompletionItem scssDocument currentDocument context hiddenSymbols
      EmptyString v.
Proof.
  intros Hn. unfold variableCompletionItem. rewrite Hn.
  destruct (if JS.truthy (v_mixin v) then _ else _) as [[[d s] doc]|]; [|done].
  destruct (isEmbedded context); reflexivity.
Qed.

End CompletionFacts.

(** C9. In [createVariableCompletionItems] a variable with an owning mixin
    goes past both filters: whatever its name, the document it comes from
    and the hidden list, its iteration pushes an item, whose detail is the
    "Argument from" text. A variable without an owning mixin is dropped
    exactly when it is private and from another document, or hidden. *)
Theorem mixin_arguments_bypass_filters :
  forall (U : CompletionUtils) (doc : ScssDocument) (cur : TextDocument)
         (ctx : CompletionContext) (hidden : list string) (prefix : string)
         (v : ScssVariable),
    v ∈ values (d_variables doc) ->
    (JS.truthy (v_mixin v) = true ->
     exists item,
       variableCompletionItem doc cur ctx hidden prefix v = Some item
       /\ item ∈ createVariableCompletionItems doc cur ctx hidden prefix
       /\ detail item
          = "Argument from " +:+ default EmptyString (v_mixin v) +:+ ", "
              +:+ toLowerCase ("Variable declared in " +:+ d_fileName doc))
    /\ (JS.truthy (v_mixin v) = false ->
        (variableCompletionItem doc cur ctx hidden prefix v = None
         <-> (rePrivate (v_name v) = true /\ d_uri doc <> td_uri cur)
             \/ In (v_name v) hidden)).
Proof.
  intros U doc cur ctx hidden prefix v Hv. split.
  - intros Hm.
    destruct (mixin_branch doc cur ctx hidden prefix v Hm) as (item & Hi & Hd & _).
    exists item. repeat split; [done | by apply (item_pushed _ _ _ _ _ v) | done].
  - intros Hm. by apply plain_branch.
Qed.

Lemma mixin_arguments_bypass_filters_witness :
  mkVariable "$_secret" (Some "1") (Some "theme") None 0
    ∈ values (d_variables argumentsDocument)
  /\ exists item,
       variableCompletionItem (U := plainUtils) argumentsDocument indexText
         plainContext ["$_secret"] EmptyString
         (mkVariable "$_secret" (Some "1") (Some "theme") None 0) = Some item
       /\ item ∈ createVariableCompletionItems (U := plainUtils) argumentsDocument
                  indexText plainContext ["$_secret"] EmptyString
       /\ detail item
          = "Argument from theme, variable declared in secrets.scss".
Proof.
  assert (H : mkVariable "$_secret" (Some "1") (Some "theme") None 0
                ∈ values (d_variables argumentsDocument)) by (simpl; constructor).
  split; [exact H|].
  exact (proj1 (mixin_arguments_bypass_filters plainUtils argumentsDocument
                  indexText plainContext ["$_secret"] EmptyString _ H) eq_refl).
Defined.

(** C5, as the code has it. A private variable without an owning mixin
    pushes no item when the document it is declared in is not the current
    document; in its own document it is listed, unless its name is in the
    hidden list. *)
Theorem private_variables_stay_local :
  forall (U : CompletionUtils) (doc : ScssDocument) (cur : TextDocument)
         (ctx : CompletionContext) (hidden : list string) (prefix : string)
         (v : ScssVariable),
    JS.truthy (v_mixin v) = false ->
    rePrivate (v_name v) = true ->
    (d_uri doc <> td_uri cur ->
     variableCompletionItem doc cur ctx hidden prefix v = None)
    /\ (d_uri doc = td_uri cur -> ~ In (v_name v) hidden ->
        v ∈ values (d_variables doc) ->
        exists item,
          variableCompletionItem doc cur ctx hidden prefix v = Some item
          /\ item ∈ createVariableCompletionItems doc cur ctx hidden prefix).
Proof.
  intros U doc cur ctx hidden prefix v Hm Hp. split.
  - intros Hne. apply plain_branch; [done|]. by left.
  - intros He Hh Hv.
    destruct (variableCompletionItem doc cur ctx hidden prefix v) as [item|] eqn:Hi.
    + exists item. split; [done | by apply (item_pushed _ _ _ _ _ v)].
    + apply plain_branch in Hi as [[_ Hne]|Hin]; done.
Qed.

Lemma private_variables_stay_local_witness :
  variableCompletionItem (U := plainUtils) secretsDocument indexText plainContext
    [] EmptyString (plainVariable "$_secret" "1") = None
  /\ exists item,
       variableCompletionItem (U := plainUtils) secretsDocument secretsText
         plainContext [] EmptyString (plainVariable "$_secret" "1") = Some item
       /\ item ∈ createVariableCompletionItems (U := plainUtils) secretsDocument
                  secretsText plainContext [] EmptyString.
Proof.
  split.
  - apply (private_variables_stay_local plainUtils secretsDocument indexText
             plainContext [] EmptyString (plainVariable "$_secret" "1")
             eq_refl eq_refl).
    vm_compute. discriminate.
  - apply (private_variables_stay_local plainUtils secretsDocument secretsText
             plainContext [] EmptyString (plainVariable "$_secret" "1")
             eq_refl eq_refl).
    + reflexivity.
    + simpl. tauto.
    + simpl. constructor.
Defined.

(** C5 as stated fails: a private name from another document is listed when
    the variable has an owning mixin, and a private variable of the current
    document is not listed when its name is hidden. *)
Lemma private_mixin_argument_listed :
  (rePrivate (CompletionUtils := plainUtils) "$_secret" = true
   /\ d_uri argumentsDocument <> td_uri indexText
   /\ map label (createVariableCompletionItems (U := plainUtils) argumentsDocument
                   indexText plainContext [] EmptyString) = ["$_secret"])
  /\ (d_uri secretsDocument = td_uri secretsText
      /\ createVariableCompletionItems (U := plainUtils) secretsDocument
           secretsText plainContext ["$_secret"] EmptyString = []).
Proof. repeat split; try reflexivity. vm_compute. discriminate. Qed.

(** C10. Without a namespace in the completion context the prefix is not
    used: every item is labelled with the declared name of its variable and
    the whole result is the one for the empty prefix. With a namespace the
    label is the sigil, the prefix and the name without its sigil. *)
Theorem prefix_needs_namespace :
  forall (U : CompletionUtils) (doc : ScssDocument) (cur : TextDocument)
         (ctx : CompletionContext) (hidden : list string) (prefix : string),
    (JS.truthy (namespace ctx) = false ->
     (forall v item,
        variableCompletionItem doc cur ctx hidden prefix v = Some item ->
        label item = v_name v)
     /\ (forall item,
          item ∈ createVariableCompletionItems doc cur ctx hidden prefix ->
          exists v, v ∈ values (d_variables doc) /\ label item = v_name v)
     /\ createVariableCompletionItems doc cur ctx hidden prefix
        = createVariableCompletionItems doc cur ctx hidden EmptyString)
    /\ (JS.truthy (namespace ctx) = true ->
        forall v item,
          variableCompletionItem doc cur ctx hidden prefix v = Some item ->
          label item = "$" +:+ prefix +:+ asDollarlessVariable (v_name v)).
Proof.
  intros U doc cur ctx hidden prefix. split.
  - intros Hn. repeat split.
    + intros v item Hi. apply item_label in Hi. by rewrite Hn in Hi.
    + intros item Hi. apply pushed_item in Hi as (v & Hv & Hi).
      exists v. split; [done|]. apply item_label in Hi. by rewrite Hn in Hi.
    + rewrite !createVariableCompletionItems_omap.
      apply omap_pointwise. intros v. by apply prefix_unused.
  - intros Hn v item Hi. apply item_label in Hi. by rewrite Hn in Hi.
Qed.

Lemma prefix_needs_namespace_witness :
  map label (createVariableCompletionItems (U := plainUtils) colorsDocument
               indexText plainContext [] "color-") = ["$a"; "$c"]
  /\ createVariableCompletionItems (U := plainUtils) colorsDocument indexText
       plainContext [] "color-"
     = createVariableCompletionItems (U := plainUtils) colorsDocument indexText
         plainContext [] EmptyString.
Proof.
  split; [reflexivity|].
  exact (proj2 (proj2 (proj1 (prefix_needs_namespace plainUtils colorsDocument
                                indexText plainContext [] "color-") eq_refl))).
Defined.

(** C2, as the code has it. Through a forward hop whose hide list and
    prefix are handed to [createVariableCompletionItems], a variable without
    an owning mixin whose declared name is in the hide list pushes no item,
    whatever the prefix and whatever else the target declares: the list is
    matched against declared names, before any prefix is applied. Every item
    that is pushed comes from a variable that has an owning mixin or is not
    hidden, and is labelled with the sigil first: [$<prefix><name>] when the
    context carries a namespace, the declared name otherwise. For
    [@forward "colors" as color-* hide $a, b] over [$a] and [$c], the one
    variable listed is [$c], as [$color-c] under a namespace. *)
Theorem forward_hide_and_prefix :
  (forall (U : CompletionUtils) (doc : ScssDocument) (cur : TextDocument)
          (ctx : CompletionContext) (hidden : list string) (prefix : string)
          (v : ScssVariable),
     JS.truthy (v_mixin v) = false -> In (v_name v) hidden ->
     variableCompletionItem doc cur ctx hidden prefix v = None)
  /\ (forall (U : CompletionUtils) (doc : ScssDocument) (cur : TextDocument)
            (ctx : CompletionContext) (hidden : list string) (prefix : string)
            (item : CompletionItem),
       item ∈ createVariableCompletionItems doc cur ctx hidden prefix ->
       exists v,
         v ∈ values (d_variables doc)
         /\ (JS.truthy (v_mixin v) = true \/ ~ In (v_name v) hidden)
         /\ label item
            = if JS.truthy (namespace ctx)
              then "$" +:+ prefix +:+ asDollarlessVariable (v_name v)
              else v_name v)
  /\ map label (createVariableCompletionItems (U := plainUtils) colorsDocument
                 indexText namespaceContext ["$a"; "b"] "color-") = ["$color-c"]
  /\ map label (createVariableCompletionItems (U := plainUtils) colorsDocument
                 indexText plainContext ["$a"; "b"] "color-") = ["$c"].
Proof.
  repeat split.
  - intros U doc cur ctx hidden prefix v Hm Hh. apply plain_branch; [done|].
    by right.
  - intros U doc cur ctx hidden prefix item Hi.
    apply pushed_item in Hi as (v & Hv & Hi). exists v.
    split; [done|]. split; [|by apply (item_label doc cur ctx hidden)].
    destruct (JS.truthy (v_mixin v)) eqn:Hm; [by left|]. right. intros Hh.
    assert (Hnone : variableCompletionItem doc cur ctx hidden prefix v = None).
    { apply plain_branch; [done|]. by right. }
    congruence.
Qed.

Lemma forward_hide_and_prefix_witness :
  variableCompletionItem (U := plainUtils) colorsDocument indexText
    namespaceContext ["$a"; "b"] "color-" (plainVariable "$a" "1") = None.
Proof.
  apply (proj1 forward_hide_and_prefix plainUtils colorsDocument indexText
           namespaceContext ["$a"; "b"] "color-" (plainVariable "$a" "1") eq_refl).
  simpl. tauto.
Defined.

(** C2 as stated fails: the renamed variable is [$color-c], not [color-$c],
    and a hidden name is listed when the variable has an owning mixin. *)
Lemma forward_label_has_sigil_first :
  map label (createVariableCompletionItems (U := plainUtils) colorsDocument
               indexText namespaceContext ["$a"; "b"] "color-") <> ["color-$c"]
  /\ (In "$a" ["$a"; "b"]
      /\ map label (createVariableCompletionItems (U := plainUtils) tintDocument
                      indexText namespaceContext ["$a"; "b"] "color-")
         = ["$color-a"]).
Proof. repeat split; [vm_compute; discriminate | simpl; tauto]. Qed.

(** ** Documents and their links *)

Lemma mapSet_elem {A} key (x : A) m k v :
  (k, v) ∈ Extractor.mapSet key x m -> (k, v) ∈ m \/ v = x.
Proof.
  induction m as [|[k' w] m IH]; simpl.
  - intros H. apply list_elem_of_singleton in H. injection H as _ ->. by right.
  - destruct (String.eqb k' key).
    + intros H. apply elem_of_cons in H as [H|H].
      * injection H as _ ->. by right.
      * left. apply elem_of_cons. by right.
    + intros H. apply elem_of_cons in H as [H|H].
      * left. apply elem_of_cons. by left.
      * destruct (IH H) as [?|?]; [left; apply elem_of_cons; by right | by right].
Qed.

Section SelfReference.
Variable fs : FileSystem.
Variable uri : string.

Lemma isSelf_false target : Parser.isSelf uri target = false -> target <> Some uri.
Proof.
  destruct target as [t|]; simpl; [|done].
  intros H Heq. injection Heq as ->. by rewrite String.eqb_refl in H.
Qed.

Lemma uses_not_self raws acc :
  (forall k l, (k, l) ∈ acc -> use_target l <> Some uri) ->
  forall k l, (k, l) ∈ fold_left (Parser.addUse fs uri) raws acc ->
              use_target l <> Some uri.
Proof.
  revert acc. induction raws as [|raw raws IH]; intros acc Hacc; simpl; [done|].
  apply IH. intros k l. unfold Parser.addUse.
  destruct (Parser.isSelf uri _) eqn:Hs; [by apply Hacc|].
  intros H. apply mapSet_elem in H as [H| ->]; [by apply (Hacc k)|].
  simpl. by apply isSelf_false.
Qed.

Lemma forwards_not_self raws acc :
  (forall k l, (k, l) ∈ acc -> fw_target l <> Some uri) ->
  forall k l, (k, l) ∈ fold_left (Parser.addForward fs uri) raws acc ->
              fw_target l <> Some uri.
Proof.
  revert acc. induction raws as [|raw raws IH]; intros acc Hacc; simpl; [done|].
  apply IH. intros k l. unfold Parser.addForward.
  destruct (Parser.isSelf uri _) eqn:Hs; [by apply Hacc|].
  intros H. apply mapSet_elem in H as [H| ->]; [by apply (Hacc k)|].
  simpl. by apply isSelf_false.
Qed.

Lemma imports_not_self raws acc :
  (forall k l, (k, l) ∈ acc -> imp_target l <> Some uri) ->
  forall k l, (k, l) ∈ fold_left (Parser.addImport fs uri) raws acc ->
              imp_target l <> Some uri.
Proof.
  revert acc. induction raws as [|raw raws IH]; intros acc Hacc; simpl; [done|].
  apply IH. intros k l. unfold Parser.addImport.
  destruct (Parser.isSelf uri _) eqn:Hs; [by apply Hacc|].
  intros H. apply mapSet_elem in H as [H| ->]; [by apply (Hacc k)|].
  simpl. by apply isSelf_false.
Qed.

End SelfReference.

(** C3. Whatever the text and the files around it, no link whose resolved
    target is the document's own URI is in the uses, forwards or imports of
    the record that [parseDocument] builds, and so the document is not among
    its own link targets. [@use "./self"] inside [self.scss] leaves no use
    while the variable declared next to it is extracted; in [main.scss] the
    three self-references are dropped and the link to the other module is
    kept. *)
Theorem no_self_links :
  (forall (fs : FileSystem) (document : TextDocument),
     let record := Parser.parseDocument fs document in
     (forall k l, (k, l) ∈ d_uses record -> use_target l <> Some (td_uri document))
     /\ (forall k l, (k, l) ∈ d_forwards record ->
                     fw_target l <> Some (td_uri document))
     /\ (forall k l, (k, l) ∈ d_imports record ->
                     imp_target l <> Some (td_uri document))
     /\ td_uri document ∉ linkTargets record)
  /\ (d_uses (Parser.parseDocument selfFs selfText) = []
      /\ map fst (d_variables (Parser.parseDocument selfFs selfText)) = ["$var"])
  /\ (map fst (d_uses (Parser.parseDocument mainFs mainText)) = ["/ws/_variables.scss"]
      /\ d_forwards (Parser.parseDocument mainFs mainText) = []
      /\ d_imports (Parser.parseDocument mainFs mainText) = []).
Proof.
  split; [|by vm_compute].
  intros fs document record.
  assert (Hu : forall k l, (k, l) ∈ d_uses record -> use_target l <> Some (td_uri document)).
  { apply uses_not_self. intros k l H. by apply elem_of_nil in H. }
  assert (Hf : forall k l, (k, l) ∈ d_forwards record ->
                 fw_target l <> Some (td_uri document)).
  { apply forwards_not_self. intros k l H. by apply elem_of_nil in H. }
  assert (Hi : forall k l, (k, l) ∈ d_imports record ->
                 imp_target l <> Some (td_uri document)).
  { apply imports_not_self. intros k l H. by apply elem_of_nil in H. }
  repeat split; try done.
  unfold linkTargets, values. intros H.
  rewrite !elem_of_app, !list_elem_of_omap in H.
  destruct H as [(l & Hl & Ht)|[(l & Hl & Ht)|(l & Hl & Ht)]];
    apply list_elem_of_In, in_map_iff in Hl as ([k l'] & <- & Hl);
    apply list_elem_of_In in Hl; simpl in Ht.
  - by apply (Hu k l').
  - by apply (Hf k l').
  - by apply (Hi k l').
Qed.

Lemma no_self_links_witness :
  ("/ws/_variables.scss",
   mkUse "variables" (Some "/ws/_variables.scss") (Some "vars") true)
    ∈ d_uses (Parser.parseDocument mainFs mainText)
  /\ Some "/ws/_variables.scss" <> Some (td_uri mainText).
Proof.
  assert (H : ("/ws/_variables.scss",
               mkUse "variables" (Some "/ws/_variables.scss") (Some "vars") true)
                ∈ d_uses (Parser.parseDocument mainFs mainText))
    by (vm_compute; constructor).
  split; [exact H|].
  exact (proj1 (proj1 no_self_links mainFs mainText) _ _ H).
Defined.

(** ** Parameter lists *)

Section ScanningText.


Lemma append_cons c s r : String c s +:+ r = String c (s +:+ r).
Proof. reflexivity. Qed.




Lemma isTop_top m : Text.isTop m = true -> m = Text.top.
Proof. destruct m as [[|d] [q|]]; simpl; intros H; try discriminate H; reflexivity. Qed.





Lemma closedFrom_app stop a : forall m b,
  closedFrom stop m a = true -> closedFrom stop Text.top b = true ->
  closedFrom stop m (a +:+ b) = true.
Proof.
  induction a as [|c a IH]; intros m b Ha Hb; simpl in Ha.
  - apply isTop_top in Ha. by subst m.
  - rewrite append_cons. simpl.
    destruct (Text.isTop m && stop c); [done|]. by apply IH.
Qed.

Lemma closedFrom_weaken (stop stop' : ascii -> bool) s : forall m,
  (forall c, stop' c = true -> stop c = true) ->
  closedFrom stop m s = true -> closedFrom stop' m s = true.
Proof.
  induction s as [|c s IH]; intros m Hw Hs; simpl in *; [done|].
  destruct (Text.isTop m) eqn:Hm; simpl in *.
  - destruct (stop c) eqn:Hc; [done|].
    destruct (stop' c) eqn:Hc'; [by rewrite (Hw c Hc') in Hc|]. by apply IH.
  - by apply IH.
Qed.






End ScanningText.

Section ScannerAndText.
















End ScannerAndText.

Section WhiteSpace.
















End WhiteSpace.

Section WrittenParameters.











End WrittenParameters.

Section WrittenDeclarations.










Lemma parseStatement_blank offset acc :
  Extractor.parseStatement offset EmptyString acc = acc.
Proof. reflexivity. Qed.











End WrittenDeclarations.



(** ** Scans *)

Section ScanResults.
Variable fs : FileSystem.
Variable accepted : string -> bool.
Variable parse : TextDocument -> result ScssDocument.
Variable settings : ISettings.
Variable seeds : list string.

(** A scan of distinct seeds without a failing seed completes, with the
    invariant on the empty queue. *)
Lemma scan_completes sched :
  (forall queue, sched queue ≡ₚ queue) ->
  NoDup seeds ->
  (forall u m, u ∈ seeds -> ~ failing fs accepted parse u m) ->
  exists fuel st,
    scan fs accepted parse settings sched fuel seeds emptyState = Some (Completed st)
    /\ ScanInv fs accepted parse settings seeds [] st.
Proof.
  intros Hperm Hnd Hok.
  destruct (scan_total fs accepted parse settings sched Hperm seeds Hnd)
    as (fuel & [st|msg st] & Hr & HP).
  - by exists fuel, st.
  - destruct HP as [(u & Hu & Hf) _]. by destruct (Hok u msg).
Qed.

(** A scan with a failing seed is rejected. *)
Lemma scan_rejects sched u m :
  (forall queue, sched queue ≡ₚ queue) ->
  NoDup seeds -> u ∈ seeds -> failing fs accepted parse u m ->
  exists fuel m' st,
    scan fs accepted parse settings sched fuel seeds emptyState = Some (Rejected m' st)
    /\ exists u', u' ∈ seeds /\ failing fs accepted parse u' m'.
Proof.
  intros Hperm Hnd Hu Hf.
  destruct (scan_total fs accepted parse settings sched Hperm seeds Hnd)
    as (fuel & [st|msg st] & Hr & HP).
  - by destruct (completed_no_failing fs accepted parse settings seeds st u m).
  - exists fuel, msg, st. split; [done|]. by destruct HP.
Qed.

(** Whatever the fuel and the order, a completed scan has the invariant on
    the empty queue. *)
Lemma scan_sound sched fuel st :
  (forall queue, sched queue ≡ₚ queue) ->
  NoDup seeds ->
  scan fs accepted parse settings sched fuel seeds emptyState = Some (Completed st) ->
  ScanInv fs accepted parse settings seeds [] st.
Proof.
  intros Hperm Hnd Hr.
  apply (drain_sound fs accepted parse settings sched Hperm seeds fuel _ _ _
           (initial_inv fs accepted parse settings seeds Hnd) Hr).
Qed.

Lemma inv_dom st u :
  ScanInv fs accepted parse settings seeds [] st ->
  u ∈ dom (st_store st) <-> reach fs accepted parse settings seeds u.
Proof.
  intros HI. rewrite elem_of_dom. split.
  - intros [d Hd]. by apply (completed_store fs accepted parse settings seeds st u d).
  - by apply completed_reach.
Qed.

(** At the end every link of a stored record that is still resolved, be it
    a use, a forward or an import, leads to a stored file, unless the
    scanner skips that file. *)
Lemma completed_links st u d t :
  ScanInv fs accepted parse settings seeds [] st ->
  scanImportedFiles settings = true ->
  st_store st !! u = Some d -> linked d t ->
  fsExists fs t = true -> accepted t = true ->
  is_Some (st_store st !! t).
Proof.
  intros HI Hf Hu Ht He Ha. apply linked_targets in Ht.
  destruct (inv_closed _ _ _ _ _ _ _ HI Hf u d t Hu Ht He Ha) as [?|Hin]; [done|].
  by apply elem_of_nil in Hin.
Qed.

(** No link of a settled record leads to a file that fails. *)
Lemma settled_links d t :
  scanImportedFiles settings = true ->
  linked (settled fs accepted parse settings d) t ->
  linked d t /\ isFailing fs accepted parse t = false.
Proof.
  intros Hf. unfold settled. rewrite Hf, !linked_targets.
  apply linkTargets_unresolveBy.
Qed.

(** Without import-following a settled record is the record as loaded. *)
Lemma settled_off d :
  scanImportedFiles settings = false -> settled fs accepted parse settings d = d.
Proof. intros Hf. unfold settled. by rewrite Hf. Qed.

(** Where nothing that is linked fails, too. *)
Lemma settled_sound d :
  (forall t, linked d t -> isFailing fs accepted parse t = false) ->
  settled fs accepted parse settings d = d.
Proof.
  intros H. unfold settled. destruct (scanImportedFiles settings); [|done].
  rewrite <- (unresolveBy_none d) at 2. apply unresolveBy_ext.
  intros t Ht. by apply H, linked_targets.
Qed.

(** Without import-following only seeds are reachable. *)
Lemma reach_seeds_only u :
  scanImportedFiles settings = false ->
  reach fs accepted parse settings seeds u ->
  u ∈ seeds /\ exists d, scannable fs accepted parse u d.
Proof.
  intros Hoff Hr. destruct Hr as [u d Hu Hs|v d u d' Hon]; [eauto|congruence].
Qed.

End ScanResults.

Lemma NoDup_one (D : string) : NoDup [D].
Proof. apply NoDup_singleton. Qed.

(** C1. With import-following enabled, [scan([D])] on a fresh store
    completes (given enough fuel, and unless [D] itself cannot be loaded),
    whatever the order in which queued files are taken up; the store then
    holds exactly the files reachable from [D] through the use, forward
    and import links of the files loaded on the way, each with the record
    it loads to (links to files that fail to load unresolved); every use,
    every forward and every import of a stored record that is resolved to a
    file the scanner takes up leads to a stored file; and [readFile] was
    called once on each stored file. Two orders give the same store. For
    [index.scss] importing an existing [variables.scss] the store has the
    two entries and the two files were read once each, first in first out
    as well as last in first out; a chain of a use, a forward and an import
    is followed to its end; two files that link to each other are each
    stored and read once, and a file nothing links to is left out. *)
Theorem scan_reaches_closure :
  (forall fs accepted parse settings sched D,
     scanImportedFiles settings = true ->
     (forall queue, sched queue ≡ₚ queue) ->
     (forall m, ~ failing fs accepted parse D m) ->
     exists fuel st,
       scan fs accepted parse settings sched fuel [D] emptyState = Some (Completed st)
       /\ (forall u, u ∈ dom (st_store st) <-> reach fs accepted parse settings [D] u)
       /\ (forall u d, st_store st !! u = Some d
                       <-> reach fs accepted parse settings [D] u
                           /\ exists d0, load fs parse u = Ok d0
                                         /\ d = settled fs accepted parse settings d0)
       /\ (forall u d, st_store st !! u = Some d ->
             (forall k l t, (k, l) ∈ d_uses d -> use_target l = Some t ->
                            fsExists fs t = true -> accepted t = true ->
                            t ∈ dom (st_store st))
             /\ (forall k l t, (k, l) ∈ d_forwards d -> fw_target l = Some t ->
                               fsExists fs t = true -> accepted t = true ->
                               t ∈ dom (st_store st))
             /\ (forall k l t, (k, l) ∈ d_imports d -> imp_target l = Some t ->
                               fsExists fs t = true -> accepted t = true ->
                               t ∈ dom (st_store st)))
       /\ (forall u, u ∈ dom (st_store st) -> readCount u st = 1))
  /\ (forall fs accepted parse settings sched sched' D fuel fuel' st st',
        (forall queue, sched queue ≡ₚ queue) ->
        (forall queue, sched' queue ≡ₚ queue) ->
        scan fs accepted parse settings sched fuel [D] emptyState = Some (Completed st) ->
        scan fs accepted parse settings sched' fuel' [D] emptyState = Some (Completed st') ->
        st_store st = st_store st')
  /\ (exists st,
        scan exampleFs acceptedScss (parseScss exampleFs) followImports fifo 3
          [indexUri] emptyState = Some (Completed st)
        /\ dom (st_store st) = {[ indexUri; variablesUri ]}
        /\ size (st_store st) = 2
        /\ st_reads st = [indexUri; variablesUri])
  /\ (exists st,
        scan exampleFs acceptedScss (parseScss exampleFs) followImports lifo 3
          [indexUri] emptyState = Some (Completed st)
        /\ dom (st_store st) = {[ indexUri; variablesUri ]}
        /\ size (st_store st) = 2
        /\ st_reads st = [indexUri; variablesUri])
  /\ (exists st,
        scan chainFs acceptedScss (parseScss chainFs) followImports fifo 5
          [indexUri] emptyState = Some (Completed st)
        /\ dom (st_store st) = {[ indexUri; themeUri; colorsUri; paletteUri ]}
        /\ size (st_store st) = 4
        /\ st_reads st = [indexUri; themeUri; colorsUri; paletteUri]
        /\ fsExists chainFs otherUri = true)
  /\ (exists st,
        scan cyclicFs acceptedScss (parseScss cyclicFs) followImports fifo 3
          [indexUri] emptyState = Some (Completed st)
        /\ dom (st_store st) = {[ indexUri; variablesUri ]}
        /\ st_reads st = [indexUri; variablesUri]
        /\ fsExists cyclicFs otherUri = true).
Proof.
  split; [|split; [|split; [|split; [|split]]]].
  - intros fs accepted parse settings sched D Hon Hperm Hok.
    destruct (scan_completes fs accepted parse settings [D] sched Hperm (NoDup_one D))
      as (fuel & st & Hr & HI).
    { intros u m Hu. apply list_elem_of_singleton in Hu. subst u. apply Hok. }
    exists fuel, st. split; [done|]. split; [|split; [|split]].
    + intros u. by apply inv_dom.
    + intros u d. by apply completed_store.
    + intros u d Hu.
      assert (Hlinks : forall t, linked d t -> fsExists fs t = true ->
                                 accepted t = true -> t ∈ dom (st_store st)).
      { intros t Ht He Ha. apply elem_of_dom.
        by apply (completed_links fs accepted parse settings [D] st u d t). }
      repeat split; intros k l t Hl Ht; apply Hlinks.
      * left. by exists k, l.
      * right; left. by exists k, l.
      * right; right. by exists k, l.
    + intros u Hu. apply (inv_read_once _ _ _ _ _ _ _ HI). by apply elem_of_dom.
  - intros fs accepted parse settings sched sched' D fuel fuel' st st' Hp Hp' Hr Hr'.
    pose proof (scan_sound fs accepted parse settings [D] sched fuel st Hp
                  (NoDup_one D) Hr) as HI.
    pose proof (scan_sound fs accepted parse settings [D] sched' fuel' st' Hp'
                  (NoDup_one D) Hr') as HI'.
    apply map_eq. intros u.
    destruct (st_store st !! u) as [d|] eqn:Hd.
    + symmetry. apply (completed_store fs accepted parse settings [D] st' u d HI').
      by apply (completed_store fs accepted parse settings [D] st u d HI).
    + destruct (st_store st' !! u) as [d'|] eqn:Hd'; [|done].
      apply (completed_store fs accepted parse settings [D] st' u d' HI') in Hd'.
      apply (completed_store fs accepted parse settings [D] st u d' HI) in Hd'.
      congruence.
  - eexists. split; [vm_compute; reflexivity|]. by vm_compute.
  - eexists. split; [vm_compute; reflexivity|]. by vm_compute.
  - eexists. split; [vm_compute; reflexivity|]. by vm_compute.
  - eexists. split; [vm_compute; reflexivity|]. by vm_compute.
Qed.

Lemma scan_reaches_closure_witness :
  exists fuel st,
    scan chainFs acceptedScss (parseScss chainFs) followImports lifo fuel
      [indexUri] emptyState = Some (Completed st)
    /\ (forall u, u ∈ dom (st_store st)
                  <-> reach chainFs acceptedScss (parseScss chainFs)
                        followImports [indexUri] u)
    /\ (forall u d, st_store st !! u = Some d
                    <-> reach chainFs acceptedScss (parseScss chainFs)
                          followImports [indexUri] u
                        /\ exists d0, load chainFs (parseScss chainFs) u = Ok d0
                                      /\ d = settled chainFs acceptedScss
                                               (parseScss chainFs) followImports d0)
    /\ (forall u d, st_store st !! u = Some d ->
          (forall k l t, (k, l) ∈ d_uses d -> use_target l = Some t ->
                         fsExists chainFs t = true -> acceptedScss t = true ->
                         t ∈ dom (st_store st))
          /\ (forall k l t, (k, l) ∈ d_forwards d -> fw_target l = Some t ->
                            fsExists chainFs t = true -> acceptedScss t = true ->
                            t ∈ dom (st_store st))
          /\ (forall k l t, (k, l) ∈ d_imports d -> imp_target l = Some t ->
                            fsExists chainFs t = true -> acceptedScss t = true ->
                            t ∈ dom (st_store st)))
    /\ (forall u, u ∈ dom (st_store st) -> readCount u st = 1).
Proof.
  apply (proj1 scan_reaches_closure chainFs acceptedScss (parseScss chainFs)
           followImports lifo indexUri).
  - reflexivity.
  - intros queue. unfold lifo. symmetry. apply Permutation_rev.
  - intros m (_ & _ & H). vm_compute in H. discriminate.
Defined.

(** C4. With import-following disabled, a scan of distinct seeds on a fresh
    store completes (unless a seed cannot be loaded) and leaves in the store
    the seeds that load and nothing else, each with the record it loads to,
    links included; [readFile] is called on seeds only. For [index.scss]
    importing an existing [variables.scss], the store holds [index.scss]
    alone, its record has the import link with its resolved target, and
    [variables.scss] is not read. *)
Theorem scan_without_following :
  (forall fs accepted parse settings sched seeds,
     scanImportedFiles settings = false ->
     (forall queue, sched queue ≡ₚ queue) ->
     NoDup seeds ->
     (forall u m, u ∈ seeds -> ~ failing fs accepted parse u m) ->
     exists fuel st,
       scan fs accepted parse settings sched fuel seeds emptyState = Some (Completed st)
       /\ (forall u d, st_store st !! u = Some d
                       <-> u ∈ seeds /\ scannable fs accepted parse u d)
       /\ (forall u, u ∈ st_reads st -> u ∈ seeds))
  /\ (exists st record,
        scan exampleFs acceptedScss (parseScss exampleFs) seedsOnly fifo 2
          [indexUri] emptyState = Some (Completed st)
        /\ dom (st_store st) = {[ indexUri ]}
        /\ st_reads st = [indexUri]
        /\ st_store st !! indexUri = Some record
        /\ d_imports record
           = [(variablesUri, mkImport "variables.scss" (Some variablesUri))]
        /\ fsExists exampleFs variablesUri = true).
Proof.
  split.
  - intros fs accepted parse settings sched seeds Hoff Hperm Hnd Hok.
    destruct (scan_completes fs accepted parse settings seeds sched Hperm Hnd Hok)
      as (fuel & st & Hr & HI).
    exists fuel, st. split; [done|]. split.
    + intros u d.
      rewrite (completed_store fs accepted parse settings seeds st u d HI). split.
      * intros (Hreach & d0 & Hl & ->).
        rewrite (settled_off fs accepted parse settings d0 Hoff).
        destruct (reach_seeds_only fs accepted parse settings seeds u Hoff Hreach)
          as (Hu & d' & He & Ha & _).
        done.
      * intros [Hu Hs]. split; [by apply (reach_seed _ _ _ _ _ u d)|].
        exists d. rewrite (settled_off fs accepted parse settings d Hoff).
        by destruct Hs as (_ & _ & ?).
    + intros u Hu.
      destruct (inv_reads _ _ _ _ _ _ _ HI u Hu) as (_ & _ & [?|Hon]); [done|].
      congruence.
  - eexists. eexists. split; [vm_compute; reflexivity|].
    split; [by vm_compute|]. split; [by vm_compute|].
    split; [vm_compute; reflexivity|]. split; by vm_compute.
Qed.

Lemma scan_without_following_witness :
  exists fuel st,
    scan exampleFs acceptedScss (parseScss exampleFs) seedsOnly lifo fuel
      [indexUri] emptyState = Some (Completed st)
    /\ (forall u d, st_store st !! u = Some d
                    <-> u ∈ [indexUri]
                        /\ scannable exampleFs acceptedScss (parseScss exampleFs) u d)
    /\ (forall u, u ∈ st_reads st -> u ∈ [indexUri]).
Proof.
  apply (proj1 scan_without_following exampleFs acceptedScss (parseScss exampleFs)
           seedsOnly lifo [indexUri]).
  - reflexivity.
  - intros queue. unfold lifo. symmetry. apply Permutation_rev.
  - apply NoDup_singleton.
  - intros u m Hu (_ & _ & H). apply list_elem_of_singleton in Hu. subst u.
    vm_compute in H. discriminate.
Defined.

(** C7. A scan of distinct seeds one of which cannot be loaded is rejected
    with the message of a seed that cannot be loaded, and [onInitialized]
    hands [String(error)] to [showErrorMessage] when [showErrors] is set,
    and drops the error otherwise; [update] hands a failure of its parse
    on. A file that cannot be loaded and is no seed does not stop the scan:
    the scan completes, the file has no entry in the store, with
    import-following no use, forward or import of a stored record is
    resolved to it, and every other file reachable through the files that
    do load is there with its record, in which only links to files that
    fail are touched. For [index.scss] importing an unreadable
    [variables.scss] the scan completes with [index.scss] in the store,
    its import unresolved; with [index.scss] itself unreadable,
    [onInitialized] shows the error. *)
Theorem failures_seed_and_discovered :
  (forall fs accepted parse settings sched seeds u m,
     (forall queue, sched queue ≡ₚ queue) ->
     NoDup seeds -> u ∈ seeds -> failing fs accepted parse u m ->
     exists fuel m' st,
       scan fs accepted parse settings sched fuel seeds emptyState
       = Some (Rejected m' st)
       /\ (exists u', u' ∈ seeds /\ failing fs accepted parse u' m')
       /\ onInitialized fs accepted parse settings sched fuel seeds
          = Some (st, if showErrors settings
                      then [ShowErrorMessage (JS.errorToString m')] else []))
  /\ (forall (parse : TextDocument -> result ScssDocument) change store m,
        parse change = Err m -> update parse change store = Err m)
  /\ (forall fs accepted parse settings sched seeds v m,
        (forall queue, sched queue ≡ₚ queue) ->
        NoDup seeds ->
        (forall u m', u ∈ seeds -> ~ failing fs accepted parse u m') ->
        failing fs accepted parse v m ->
        exists fuel st,
          scan fs accepted parse settings sched fuel seeds emptyState
          = Some (Completed st)
          /\ st_store st !! v = None
          /\ (scanImportedFiles settings = true ->
              forall u d, st_store st !! u = Some d ->
                (forall k l, (k, l) ∈ d_uses d -> use_target l <> Some v)
                /\ (forall k l, (k, l) ∈ d_forwards d -> fw_target l <> Some v)
                /\ (forall k l, (k, l) ∈ d_imports d -> imp_target l <> Some v))
          /\ (forall u d, st_store st !! u = Some d
                          <-> reach fs accepted parse settings seeds u
                              /\ exists d0,
                                   load fs parse u = Ok d0
                                   /\ d = settled fs accepted parse settings d0)
          /\ (forall u d d0 t, st_store st !! u = Some d -> load fs parse u = Ok d0 ->
                d_variables d = d_variables d0 /\ d_mixins d = d_mixins d0
                /\ d_functions d = d_functions d0
                /\ (linked d0 t -> isFailing fs accepted parse t = false ->
                    linked d t)))
  /\ (exists st record,
        scan brokenFs acceptedScss (parseScss brokenFs) followImports fifo 3
          [indexUri] emptyState = Some (Completed st)
        /\ dom (st_store st) = {[ indexUri ]}
        /\ st_reads st = [indexUri; variablesUri]
        /\ st_store st !! indexUri = Some record
        /\ map snd (d_imports record) = [mkImport "variables.scss" None])
  /\ onInitialized brokenSeedFs acceptedScss (parseScss brokenSeedFs) followImports
       fifo 3 [indexUri]
     = Some (mkScanState ∅ [indexUri], [ShowErrorMessage "Error: EACCES"]).
Proof.
  split; [|split; [|split; [|split]]].
  - intros fs accepted parse settings sched seeds u m Hperm Hnd Hu Hf.
    destruct (scan_rejects fs accepted parse settings seeds sched u m Hperm Hnd Hu Hf)
      as (fuel & m' & st & Hr & Hu').
    exists fuel, m', st. repeat split; [done..|].
    unfold onInitialized. by rewrite Hr.
  - intros parse change store m Hp. unfold update. by rewrite Hp.
  - intros fs accepted parse settings sched seeds v m Hperm Hnd Hok Hf.
    destruct (scan_completes fs accepted parse settings seeds sched Hperm Hnd Hok)
      as (fuel & st & Hr & HI).
    pose proof (completed_store fs accepted parse settings seeds st) as Hstore.
    exists fuel, st. split; [done|]. split; [|split; [|split]].
    + destruct (st_store st !! v) as [d|] eqn:Hd; [|done].
      apply (Hstore v d HI) in Hd as (_ & d0 & Hl & _).
      destruct Hf as (_ & _ & ?). congruence.
    + intros Hon u d Hu. apply (Hstore u d HI) in Hu as (_ & d0 & _ & ->).
      assert (Hnot : ~ linked (settled fs accepted parse settings d0) v).
      { intros Hv. apply (settled_links fs accepted parse settings d0 v Hon) in Hv as [_ Hv].
        assert (isFailing fs accepted parse v = true) by (apply isFailing_spec; eauto).
        congruence. }
      repeat split; intros k l Hl Ht; apply Hnot.
      * left. by exists k, l.
      * right; left. by exists k, l.
      * right; right. by exists k, l.
    + intros u d. by apply Hstore.
    + intros u d d0 t Hu Hl. apply (Hstore u d HI) in Hu as (_ & d1 & Hl1 & ->).
      assert (d1 = d0) by congruence. subst d1. unfold settled.
      destruct (scanImportedFiles settings); [|done].
      repeat split. intros Ht Hfail. apply linked_targets, linkTargets_unresolveBy.
      split; [by apply linked_targets | done].
  - eexists. eexists. split; [vm_compute; reflexivity|].
    split; [by vm_compute|]. split; [by vm_compute|].
    split; [vm_compute; reflexivity|]. by vm_compute.
  - by vm_compute.
Qed.

Lemma failures_seed_and_discovered_witness :
  (exists fuel m' st,
     scan brokenSeedFs acceptedScss (parseScss brokenSeedFs) followImports fifo fuel
       [indexUri] emptyState = Some (Rejected m' st)
     /\ (exists u', u' ∈ [indexUri]
                    /\ failing brokenSeedFs acceptedScss (parseScss brokenSeedFs) u' m')
     /\ onInitialized brokenSeedFs acceptedScss (parseScss brokenSeedFs)
          followImports fifo fuel [indexUri]
        = Some (st, if showErrors followImports
                    then [ShowErrorMessage (JS.errorToString m')] else []))
  /\ (exists fuel st,
        scan brokenFs acceptedScss (parseScss brokenFs) followImports fifo fuel
          [indexUri] emptyState = Some (Completed st)
        /\ st_store st !! variablesUri = None
        /\ (scanImportedFiles followImports = true ->
            forall u d, st_store st !! u = Some d ->
              (forall k l, (k, l) ∈ d_uses d -> use_target l <> Some variablesUri)
              /\ (forall k l, (k, l) ∈ d_forwards d -> fw_target l <> Some variablesUri)
              /\ (forall k l, (k, l) ∈ d_imports d -> imp_target l <> Some variablesUri))
        /\ (forall u d, st_store st !! u = Some d
                        <-> reach brokenFs acceptedScss (parseScss brokenFs)
                              followImports [indexUri] u
                            /\ exists d0,
                                 load brokenFs (parseScss brokenFs) u = Ok d0
                                 /\ d = settled brokenFs acceptedScss
                                          (parseScss brokenFs) followImports d0)
        /\ (forall u d d0 t, st_store st !! u = Some d ->
              load brokenFs (parseScss brokenFs) u = Ok d0 ->
              d_variables d = d_variables d0 /\ d_mixins d = d_mixins d0
              /\ d_functions d = d_functions d0
              /\ (linked d0 t ->
                  isFailing brokenFs acceptedScss (parseScss brokenFs) t = false ->
                  linked d t))).
Proof.
  split.
  - apply (proj1 failures_seed_and_discovered brokenSeedFs acceptedScss
             (parseScss brokenSeedFs) followImports fifo [indexUri] indexUri "EACCES").
    + intros queue. reflexivity.
    + apply NoDup_singleton.
    + by apply list_elem_of_singleton.
    + by vm_compute.
  - apply (proj1 (proj2 (proj2 failures_seed_and_discovered)) brokenFs acceptedScss
             (parseScss brokenFs) followImports fifo [indexUri] variablesUri "EACCES").
    + intros queue. reflexivity.
    + apply NoDup_singleton.
    + intros u m' Hu (_ & _ & H). apply list_elem_of_singleton in Hu. subst u.
      vm_compute in H. discriminate.
    + by vm_compute.
Defined.

(** ** The change handler *)

(** While a document stays open, the handler's [change.document] and
    [documents.get(change.document.uri)] are the same object, so the two
    versions that the check compares are equal: a handler that gets to the
    check sends its diagnostics, whatever has changed since it was called. *)
Lemma check_compares_an_object_with_itself
    (parse : TextDocument -> result ScssDocument)
    (doDiagnostics : TextDocument -> gmap string ScssDocument -> list Diagnostic)
    (s : ServerState) (i : nat) (h : Handler) (diagnostics : list Diagnostic)
    (latest : TextDocument) :
  handlers s !! i = Some h -> h_phase h = AwaitDiagnostics diagnostics ->
  objects s !! h_document h = Some latest ->
  documents s !! td_uri latest = Some (h_document h) ->
  outbox (step parse doDiagnostics s (Resume i))
  = outbox s ++ [SendDiagnostics (td_uri latest) diagnostics].
Proof.
  intros Hi Hp Ho Hd. simpl. rewrite Hi, Hp. unfold afterDiagnostics, live.
  rewrite Ho. simpl. by rewrite Hd, Ho, Z.eqb_refl.
Qed.

(** C8, as the code has it. The version check of the change handler reads
    both versions from objects, [documents.get(change.document.uri)] and
    [change.document], and while the document stays open these are one
    object, which every change updates in place: the check passes
    whatever has changed since the handler was called. When a change
    arrives while the handler of the version before waits for its
    diagnostics, that handler sends the diagnostics computed for the
    superseded text, for a document that is at version 2; when the handler
    of the change finishes first, they are sent all the same, and last.
    When the change arrives before the first [update] settles, both
    handlers send, and the store keeps the record written last, that of
    the first version ([update] taken to read the document when it is
    called). *)
Theorem superseded_diagnostics_are_sent :
  (let s := runEvents (parseScss exampleFs) echoDiagnostics initialServer
              changedMeanwhile in
   outbox s = [SendDiagnostics indexUri [mkDiagnostic "$a: 1;" 0]]
   /\ objects s = [secondVersion]
   /\ documents s !! indexUri = Some 0)
  /\ (let s := runEvents (parseScss exampleFs) echoDiagnostics initialServer superseded in
   outbox s = [SendDiagnostics indexUri [mkDiagnostic "$b: 2;" 0];
               SendDiagnostics indexUri [mkDiagnostic "$a: 1;" 0]]
   /\ objects s = [secondVersion]
   /\ documents s !! indexUri = Some 0
   /\ storage s !! indexUri = Some (Parser.parseDocument exampleFs secondVersion))
  /\ (let s := runEvents (parseScss exampleFs) echoDiagnostics initialServer overtaking in
      outbox s = [SendDiagnostics indexUri [mkDiagnostic "$b: 2;" 0];
                  SendDiagnostics indexUri [mkDiagnostic "$b: 2;" 0]]
      /\ objects s = [secondVersion]
      /\ storage s !! indexUri = Some (Parser.parseDocument exampleFs firstVersion)).
Proof. split; [|split]; by vm_compute. Qed.

(** * Further properties *)

(** ** Variable completion *)

Section CompletionOrder.
Context `{U : CompletionUtils}.
Variable scssDocument : ScssDocument.
Variable currentDocument : TextDocument.

Lemma omap_cons {A B} (f : A -> option B) x l :
  omap f (x :: l)
  = match f x with
    | Some y => y :: omap f l
    | None => omap f l
    end.
Proof. reflexivity. Qed.

Lemma omap_agree {A B} (f g : A -> option B) (l : list A) :
  (forall x, x ∈ l -> f x = g x) -> omap f l = omap g l.
Proof.
  induction l as [|x l IH]; intros Hfg; [done|].
  rewrite !omap_cons, (Hfg x) by (apply elem_of_cons; by left).
  rewrite IH; [done|]. intros y Hy. apply Hfg, elem_of_cons. by right.
Qed.

Lemma omap_sublist {A B} (f g : A -> option B) (l : list A) :
  (forall x, f x = None \/ f x = g x) -> omap f l `sublist_of` omap g l.
Proof.
  intros Hfg. induction l as [|x l IH]; [done|].
  rewrite !omap_cons. destruct (Hfg x) as [-> | ->].
  - destruct (g x); [by apply sublist_cons | done].
  - destruct (g x); [by apply sublist_skip | done].
Qed.

Lemma includes_app x h m :
  JS.includes x (h ++ m) = JS.includes x h || JS.includes x m.
Proof. unfold JS.includes. apply existsb_app. Qed.

Lemma includes_agree x h1 h2 :
  (In x h1 <-> In x h2) -> JS.includes x h1 = JS.includes x h2.
Proof.
  intros H. destruct (JS.includes x h2) eqn:E.
  - apply includes_In, H, includes_In, E.
  - apply includes_false. intros Hin. apply H, includes_In in Hin. congruence.
Qed.

(** The hidden list enters an iteration through one membership test. *)
Lemma item_hidden_agree context h1 h2 prefix v :
  JS.includes (v_name v) h1 = JS.includes (v_name v) h2 ->
  variableCompletionItem scssDocument currentDocument context h1 prefix v
  = variableCompletionItem scssDocument currentDocument context h2 prefix v.
Proof. intros H. unfold variableCompletionItem. by rewrite H. Qed.

Lemma item_hidden_more context h m prefix v :
  variableCompletionItem scssDocument currentDocument context (h ++ m) prefix v = None
  \/ variableCompletionItem scssDocument currentDocument context (h ++ m) prefix v
     = variableCompletionItem scssDocument currentDocument context h prefix v.
Proof.
  destruct (JS.includes (v_name v) m) eqn:Hm.
  - destruct (JS.truthy (v_mixin v)) eqn:Hx.
    + right. unfold variableCompletionItem. by rewrite Hx.
    + left. apply plain_branch; [done|]. right.
      apply includes_In. by rewrite includes_app, Hm, orb_true_r.
  - right. apply item_hidden_agree. by rewrite includes_app, Hm, orb_false_r.
Qed.

(** The current document enters an iteration through the privacy test. *)
Lemma item_current_agree context hidden prefix cur' v :
  rePrivate (v_name v) = false \/ JS.truthy (v_mixin v) = true ->
  variableCompletionItem scssDocument currentDocument context hidden prefix v
  = variableCompletionItem scssDocument cur' context hidden prefix v.
Proof.
  unfold variableCompletionItem. intros [H|H]; rewrite H; reflexivity.
Qed.

Lemma item_word_agree w w' ns ext hidden prefix v :
  JS.truthy ns = false ->
  variableCompletionItem scssDocument currentDocument (mkContext w ns ext) hidden
    prefix v
  = variableCompletionItem scssDocument currentDocument (mkContext w' ns ext) hidden
      prefix v.
Proof.
  intros Hn. unfold variableCompletionItem, isEmbedded. simpl. by rewrite Hn.
Qed.

Lemma item_sortText context hidden prefix v item :
  variableCompletionItem scssDocument currentDocument context hidden prefix v
  = Some item ->
  sortText item
  = if JS.truthy (v_mixin v) then None
    else if rePrivate (v_name v) then Some (v_name v) else None.
Proof.
  unfold variableCompletionItem, replaceSortPrefix.
  destruct (JS.truthy (v_mixin v)).
  - destruct (JS.truthy (namespace context)), (isEmbedded context);
      intros H; by injection H as <-.
  - destruct (rePrivate (v_name v));
      destruct (String.eqb (d_uri scssDocument) (td_uri currentDocument));
      simpl; try done;
      destruct (JS.includes (v_name v) hidden); try done;
      destruct (JS.truthy (namespace context)), (isEmbedded context);
      intros H; by injection H as <-.
Qed.

End CompletionOrder.

Lemma toLowerAscii_app a b :
  JS.toLowerAscii (a +:+ b) = JS.toLowerAscii a +:+ JS.toLowerAscii b.
Proof.
  induction a as [|c a IH]; [done|].
  rewrite append_cons. simpl. by rewrite IH.
Qed.

Lemma isAscii_app a b : JS.isAscii (a +:+ b) = JS.isAscii a && JS.isAscii b.
Proof.
  induction a as [|c a IH]; [done|].
  rewrite append_cons. simpl. by rewrite IH, andb_assoc.
Qed.

Lemma omap_length {A B} (f : A -> option B) (l : list A) :
  length (omap f l) <= length l.
Proof.
  induction l as [|x l IH]; [done|].
  rewrite omap_cons. destruct (f x); simpl; lia.
Qed.

Lemma omap_map_sublist {A B C} (f : A -> option B) (g : B -> C) (h : A -> C)
    (l : list A) :
  (forall x y, f x = Some y -> g y = h x) ->
  map g (omap f l) `sublist_of` map h l.
Proof.
  intros Hfg. induction l as [|x l IH]; [done|].
  rewrite omap_cons. destruct (f x) as [y|] eqn:E; simpl.
  - rewrite (Hfg x y E). by apply sublist_skip.
  - by apply sublist_cons.
Qed.

(** X1. The items come in the iteration order of the variable map, at most
    one per variable: their labels are a subsequence of the labels that the
    variables would get, and there are never more items than variables. *)
Theorem completion_items_in_order :
  forall (U : CompletionUtils) (doc : ScssDocument) (cur : TextDocument)
         (ctx : CompletionContext) (hidden : list string) (prefix : string),
    map label (createVariableCompletionItems doc cur ctx hidden prefix)
      `sublist_of`
      map (fun v => if JS.truthy (namespace ctx)
                    then "$" +:+ prefix +:+ asDollarlessVariable (v_name v)
                    else v_name v)
          (values (d_variables doc))
    /\ length (createVariableCompletionItems doc cur ctx hidden prefix)
       <= length (d_variables doc).
Proof.
  intros U doc cur ctx hidden prefix.
  rewrite createVariableCompletionItems_omap. split.
  - apply omap_map_sublist. intros v item. apply item_label.
  - etransitivity; [apply omap_length|]. unfold values. by rewrite length_map.
Qed.

(** X2. Hiding more never adds an item or changes one: the items for a
    longer hidden list are a subsequence of the items for the shorter one. *)
Theorem hiding_more_only_removes :
  forall (U : CompletionUtils) (doc : ScssDocument) (cur : TextDocument)
         (ctx : CompletionContext) (hidden more : list string) (prefix : string),
    createVariableCompletionItems doc cur ctx (hidden ++ more) prefix
      `sublist_of` createVariableCompletionItems doc cur ctx hidden prefix.
Proof.
  intros U doc cur ctx hidden more prefix.
  rewrite !createVariableCompletionItems_omap.
  apply omap_sublist. intros v. apply item_hidden_more.
Qed.

(** X3. The hidden list counts as a set of names, and only for the names the
    document declares: two lists that agree on the declared names give the
    same items, whatever their order, their repetitions and the other names
    in them. *)
Theorem hidden_list_is_a_set :
  forall (U : CompletionUtils) (doc : ScssDocument) (cur : TextDocument)
         (ctx : CompletionContext) (h1 h2 : list string) (prefix : string),
    (forall v, v ∈ values (d_variables doc) ->
               (In (v_name v) h1 <-> In (v_name v) h2)) ->
    createVariableCompletionItems doc cur ctx h1 prefix
    = createVariableCompletionItems doc cur ctx h2 prefix.
Proof.
  intros U doc cur ctx h1 h2 prefix Hagree.
  rewrite !createVariableCompletionItems_omap.
  apply omap_agree. intros v Hv.
  by apply item_hidden_agree, includes_agree, Hagree.
Qed.

Lemma hidden_list_is_a_set_witness :
  createVariableCompletionItems (U := plainUtils) colorsDocument indexText
    namespaceContext ["$a"; "b"] "color-"
  = createVariableCompletionItems (U := plainUtils) colorsDocument indexText
      namespaceContext ["zebra"; "$a"; "$a"] "color-".
Proof.
  apply (hidden_list_is_a_set plainUtils colorsDocument indexText namespaceContext
           ["$a"; "b"] ["zebra"; "$a"; "$a"] "color-").
  intros v Hv. simpl in Hv.
  apply elem_of_cons in Hv as [->|Hv];
    [|apply list_elem_of_singleton in Hv; subst v]; simpl; split;
    intros H; repeat (destruct H as [H|H]; try discriminate H; auto).
Defined.

(** X4. The sort text of an item is set exactly for a private variable
    without an owning mixin, and then it is the declared name as it is: the
    marker after the sigil is not removed, and under a namespace the sort
    text stays the declared name while the label is rebuilt. *)
Theorem sort_text_is_declared_name :
  forall (U : CompletionUtils) (doc : ScssDocument) (cur : TextDocument)
         (ctx : CompletionContext) (hidden : list string) (prefix : string)
         (v : ScssVariable) (item : CompletionItem),
    variableCompletionItem doc cur ctx hidden prefix v = Some item ->
    sortText item
    = if JS.truthy (v_mixin v) then None
      else if rePrivate (v_name v) then Some (v_name v) else None.
Proof. intros U doc cur ctx hidden prefix v item. apply item_sortText. Qed.

Lemma sort_text_is_declared_name_witness :
  exists item,
    variableCompletionItem (U := plainUtils) secretsDocument secretsText
      namespaceContext [] "color-" (plainVariable "$_secret" "1") = Some item
    /\ label item = "$color-_secret"
    /\ sortText item = Some "$_secret".
Proof.
  eexists. split; [reflexivity|]. split; [reflexivity|].
  exact (sort_text_is_declared_name plainUtils secretsDocument secretsText
           namespaceContext [] "color-" (plainVariable "$_secret" "1") _ eq_refl).
Defined.

(** X5. For the argument of a mixin declared in a file whose name is
    ASCII, the detail names the file with its letters [A] to [Z] in lower
    case, whatever their case in the file name; the name of the mixin keeps
    its case. [toLowerCase] is any function that does to ASCII strings what
    the runtime's does; file names with other characters are left out. *)
Theorem argument_detail_lowers_file_name :
  forall (U : CompletionUtils) (doc : ScssDocument) (cur : TextDocument)
         (ctx : CompletionContext) (hidden : list string) (prefix : string)
         (v : ScssVariable) (item : CompletionItem) (mixin : string),
    (forall s, JS.isAscii s = true -> toLowerCase s = JS.toLowerAscii s) ->
    JS.isAscii (d_fileName doc) = true ->
    v_mixin v = Some mixin -> mixin <> EmptyString ->
    variableCompletionItem doc cur ctx hidden prefix v = Some item ->
    detail item
    = "Argument from " +:+ mixin +:+ ", variable declared in "
        +:+ JS.toLowerAscii (d_fileName doc).
Proof.
  intros U doc cur ctx hidden prefix v item mixin Hlow Hascii Hm Hne Hi.
  assert (Ht : JS.truthy (v_mixin v) = true).
  { rewrite Hm. by destruct mixin. }
  destruct (mixin_branch doc cur ctx hidden prefix v Ht) as (item' & Hi' & Hd & _).
  rewrite Hi in Hi'. injection Hi' as <-.
  rewrite Hd, Hm, Hlow by (by rewrite isAscii_app, Hascii).
  rewrite toLowerAscii_app. reflexivity.
Qed.

Lemma argument_detail_lowers_file_name_witness :
  exists item,
    variableCompletionItem (U := plainUtils) themeDocument indexText plainContext
      [] EmptyString (mkVariable "$size" (Some "1") (Some "Button") None 0)
    = Some item
    /\ d_fileName themeDocument = "Theme.SCSS"
    /\ detail item = "Argument from Button, variable declared in theme.scss".
Proof.
  eexists. split; [reflexivity|]. split; [reflexivity|].
  apply (argument_detail_lowers_file_name plainUtils themeDocument indexText
           plainContext [] EmptyString
           (mkVariable "$size" (Some "1") (Some "Button") None 0) _ "Button").
  - intros s _. reflexivity.
  - reflexivity.
  - reflexivity.
  - discriminate.
  - reflexivity.
Defined.

(** X6. The current document matters only through private variables: when
    every variable of the document has an owning mixin or a name that is
    not private, the items are the same whichever document is current. *)
Theorem current_document_matters_for_private_only :
  forall (U : CompletionUtils) (doc : ScssDocument) (cur cur' : TextDocument)
         (ctx : CompletionContext) (hidden : list string) (prefix : string),
    (forall v, v ∈ values (d_variables doc) ->
               rePrivate (v_name v) = false \/ JS.truthy (v_mixin v) = true) ->
    createVariableCompletionItems doc cur ctx hidden prefix
    = createVariableCompletionItems doc cur' ctx hidden prefix.
Proof.
  intros U doc cur cur' ctx hidden prefix Hpub.
  rewrite !createVariableCompletionItems_omap.
  apply omap_agree. intros v Hv. by apply item_current_agree, Hpub.
Qed.

Lemma current_document_matters_for_private_only_witness :
  createVariableCompletionItems (U := plainUtils) colorsDocument indexText
    plainContext [] EmptyString
  = createVariableCompletionItems (U := plainUtils) colorsDocument secretsText
      plainContext [] EmptyString.
Proof.
  apply (current_document_matters_for_private_only plainUtils colorsDocument
           indexText secretsText plainContext [] EmptyString).
  intros v Hv. left. simpl in Hv.
  apply elem_of_cons in Hv as [->|Hv];
    [|apply list_elem_of_singleton in Hv; subst v]; reflexivity.
Defined.

(** X7. Without a namespace the word being completed plays no part: two
    contexts that differ in the word only give the same items. *)
Theorem word_matters_under_namespace_only :
  forall (U : CompletionUtils) (doc : ScssDocument) (cur : TextDocument)
         (w w' : string) (ns : option string) (ext : string)
         (hidden : list string) (prefix : string),
    JS.truthy ns = false ->
    createVariableCompletionItems doc cur (mkContext w ns ext) hidden prefix
    = createVariableCompletionItems doc cur (mkContext w' ns ext) hidden prefix.
Proof.
  intros U doc cur w w' ns ext hidden prefix Hn.
  rewrite !createVariableCompletionItems_omap.
  apply omap_pointwise. intros v. by apply item_word_agree.
Qed.

Lemma word_matters_under_namespace_only_witness :
  createVariableCompletionItems (U := plainUtils) colorsDocument indexText
    (mkContext "$" None "vue") [] EmptyString
  = createVariableCompletionItems (U := plainUtils) colorsDocument indexText
      (mkContext "colors." None "vue") [] EmptyString.
Proof.
  exact (word_matters_under_namespace_only plainUtils colorsDocument indexText
           "$" "colors." None "vue" [] EmptyString eq_refl).
Defined.

(** ** Watched files *)

Section WatchedFilesFacts.
Variable fs : FileSystem.
Variable accepted : string -> bool.
Variable parse : TextDocument -> result ScssDocument.
Variable settings : ISettings.
Variable sched : list (string * Origin) -> list (string * Origin).
Variable asTextDocument : ScssDocument -> TextDocument.

Local Notation "'loop'" := (fold_left (watchChange parse asTextDocument)).

Lemma thrown_stays changes m store :
  loop changes (Thrown m store) = Thrown m store.
Proof. induction changes as [|c changes IH]; [done|]. simpl. apply IH. Qed.

Lemma watch_deleted store newFiles c :
  fe_type c = Deleted ->
  watchChange parse asTextDocument (Pending store newFiles) c
  = Pending (delete (fe_uri c) store) newFiles.
Proof. intros H. unfold watchChange. by rewrite H. Qed.

Lemma watch_changed store newFiles c d :
  fe_type c = Changed -> store !! fe_uri c = Some d ->
  watchChange parse asTextDocument (Pending store newFiles) c
  = match update parse (asTextDocument d) store with
    | Ok store' => Pending store' newFiles
    | Err message => Thrown message store
    end.
Proof. intros H Hd. unfold watchChange. by rewrite H, Hd. Qed.

(** A scan of no file completes at once and reads nothing. *)
Lemma scan_nothing fuel st :
  (forall queue, sched queue ≡ₚ queue) ->
  scan fs accepted parse settings sched (S fuel) [] st = Some (Completed st).
Proof.
  intros Hperm. unfold scan. simpl.
  pose proof (Hperm []) as H. apply Permutation_nil_r in H. by rewrite H.
Qed.

Lemma loop_deletes changes : forall store newFiles,
  (forall c, In c changes -> fe_type c = Deleted) ->
  exists store',
    loop changes (Pending store newFiles) = Pending store' newFiles
    /\ forall u, (In u (map fe_uri changes) -> store' !! u = None)
                 /\ (~ In u (map fe_uri changes) -> store' !! u = store !! u).
Proof.
  induction changes as [|c changes IH]; intros store newFiles Hdel.
  - exists store. split; [done|]. intros u. split; [intros []|done].
  - cbn [fold_left]. rewrite watch_deleted by (apply Hdel; by left).
    destruct (IH (delete (fe_uri c) store) newFiles) as (store' & Hl & Hs).
    { intros c' Hc'. apply Hdel. by right. }
    exists store'. split; [done|]. intros u. split.
    + intros [Heq|Hin].
      * destruct (Hs u) as [H1 H2].
        destruct (In_dec String.string_dec u (map fe_uri changes)) as [Hi|Hi].
        -- by apply H1.
        -- rewrite (H2 Hi), <- Heq. apply lookup_delete_eq.
      * by apply (Hs u).
    + intros Hnot. destruct (Hs u) as [_ H2].
      rewrite H2 by (intros Hin; apply Hnot; by right).
      apply lookup_delete_ne. intros Heq. apply Hnot. by left.
Qed.

Lemma loop_changes changes : forall (store0 store : gmap string ScssDocument),
  (forall d, exists r, parse d = Ok r) ->
  (forall c, In c changes -> fe_type c = Changed) ->
  (forall c, In c changes -> is_Some (store0 !! fe_uri c)) ->
  (forall u, is_Some (store0 !! u) -> is_Some (store !! u)) ->
  exists store',
    loop changes (Pending store []) = Pending store' []
    /\ forall u, is_Some (store0 !! u) -> is_Some (store' !! u).
Proof.
  induction changes as [|c changes IH]; intros store0 store Hparse Hch Hin Hsub.
  - by exists store.
  - cbn [fold_left].
    destruct (Hsub (fe_uri c)) as [d Hd]; [apply Hin; by left|].
    rewrite (watch_changed _ _ _ d) by (done || apply Hch; by left).
    unfold update.
    destruct (Hparse (asTextDocument d)) as [r ->].
    apply IH; try done.
    + intros c' Hc'. apply Hch. by right.
    + intros c' Hc'. apply Hin. by right.
    + intros u Hu. destruct (Hsub u Hu) as [d' Hd'].
      destruct (decide (td_uri (asTextDocument d) = u)) as [<-|Hne].
      * rewrite lookup_insert_eq. eauto.
      * rewrite lookup_insert_ne by done. eauto.
Qed.

(** A batch of changes of distinct stored files: each record is replaced
    by the parse of the stored document, the others stay. *)
Lemma loop_reparses changes : forall (store0 store : gmap string ScssDocument),
  (forall d, td_uri (asTextDocument d) = d_uri d) ->
  (forall k d, store0 !! k = Some d -> d_uri d = k) ->
  (forall d, exists r, parse d = Ok r) ->
  (forall c, In c changes -> fe_type c = Changed) ->
  (forall c, In c changes -> is_Some (store0 !! fe_uri c)) ->
  NoDup (map fe_uri changes) ->
  (forall u, In u (map fe_uri changes) -> store !! u = store0 !! u) ->
  exists store',
    loop changes (Pending store []) = Pending store' []
    /\ forall u,
         (In u (map fe_uri changes) ->
          exists d r, store0 !! u = Some d /\ parse (asTextDocument d) = Ok r
                      /\ store' !! u = Some r)
         /\ (~ In u (map fe_uri changes) -> store' !! u = store !! u).
Proof.
  induction changes as [|c changes IH];
    intros store0 store Hast Hkey Hparse Hch Hin Hnd Hsame.
  - exists store. split; [done|]. intros u. split; [intros []|done].
  - cbn [map] in Hnd. apply NoDup_cons in Hnd as [Hfresh Hnd].
    destruct (Hin c) as [d Hd]; [by left|].
    assert (Hcur : store !! fe_uri c = Some d).
    { rewrite Hsame; [done|]. by left. }
    cbn [fold_left]. rewrite (watch_changed _ _ _ d) by (done || apply Hch; by left).
    unfold update. destruct (Hparse (asTextDocument d)) as [r Hr]. rewrite Hr.
    rewrite Hast, (Hkey _ _ Hd).
    destruct (IH store0 (<[fe_uri c := r]> store) Hast Hkey Hparse) as (store' & Hl & Hs).
    + intros c' Hc'. apply Hch. by right.
    + intros c' Hc'. apply Hin. by right.
    + done.
    + intros u Hu. rewrite lookup_insert_ne; [apply Hsame; by right|].
      intros <-. apply Hfresh. by apply list_elem_of_In.
    + exists store'. split; [done|]. intros u. split.
      * intros [<-|Hu]; [|by apply Hs].
        exists d, r. repeat split; [done..|].
        destruct (Hs (fe_uri c)) as [_ Hout]. rewrite Hout.
        -- by rewrite lookup_insert_eq.
        -- intros Hu. apply Hfresh. by apply list_elem_of_In.
      * intros Hu. destruct (Hs u) as [_ Hout]. rewrite Hout.
        -- rewrite lookup_insert_ne; [done|]. intros <-. apply Hu. by left.
        -- intros Hu'. apply Hu. by right.
Qed.

(** The scanner writes records for files that exist only. *)
Lemma drain_keeps_absent fuel : forall queue st r u,
  fsExists fs u = false -> st_store st !! u = None ->
  drain fs accepted parse settings sched fuel queue st = Some r ->
  storeOf r !! u = None.
Proof.
  induction fuel as [|fuel IH]; intros queue st r u Hgone Hu Hr; [done|].
  simpl in Hr. destruct (sched queue) as [|[v o] rest].
  - by injection Hr as <-.
  - unfold visit in Hr.
    destruct (negb (fsExists fs v) || negb (accepted v)) eqn:Hskip.
    + by apply (IH rest st).
    + destruct (load fs parse v) as [doc|msg].
      * apply (IH _ _ r u Hgone) in Hr; [done|]. simpl.
        rewrite lookup_insert_ne; [done|]. intros ->.
        rewrite Hgone in Hskip. discriminate.
      * destruct o.
        -- by injection Hr as <-.
        -- apply (IH rest _ r u Hgone) in Hr; [done|]. simpl.
           by rewrite lookup_fmap, Hu.
Qed.

Lemma loop_deleted_stays_out u changes : forall store newFiles,
  (forall d, td_uri (asTextDocument d) = d_uri d) ->
  (forall doc r, parse doc = Ok r -> d_uri r = td_uri doc) ->
  (forall k d, store !! k = Some d -> d_uri d = k) ->
  store !! u = None \/ In (mkFileEvent u Deleted) changes ->
  forall store' newFiles',
    loop changes (Pending store newFiles) = Pending store' newFiles' ->
    store' !! u = None.
Proof.
  induction changes as [|c changes IH];
    intros store newFiles Has Hparse Hkey Hu store' newFiles' Hl.
  - injection Hl as <- _. by destruct Hu as [?|[]].
  - simpl in Hl. destruct c as [k [| |]]; simpl in Hl.
    + apply (IH store (newFiles ++ [k])) in Hl; try done.
      destruct Hu as [?|[Hc|?]]; [by left | discriminate Hc | by right].
    + destruct (store !! k) as [d|] eqn:Hk.
      * unfold update in Hl.
        destruct (parse (asTextDocument d)) as [r|m] eqn:Hp;
          [|by rewrite thrown_stays in Hl].
        pose proof (Hkey k d Hk) as Hdk.
        assert (Hrk : td_uri (asTextDocument d) = k) by (by rewrite Has).
        rewrite Hrk in Hl.
        apply IH in Hl; try done.
        -- intros k' d'. destruct (decide (k = k')) as [<-|Hne].
           ++ rewrite lookup_insert_eq. intros H. injection H as <-.
              by rewrite (Hparse _ _ Hp), Hrk.
           ++ rewrite lookup_insert_ne by done. apply Hkey.
        -- destruct Hu as [Hn|[Hc|?]]; [|discriminate Hc | by right].
           left. rewrite lookup_insert_ne; [done|]. intros ->. congruence.
      * apply (IH store (newFiles ++ [k])) in Hl; try done.
        destruct Hu as [?|[Hc|?]]; [by left | discriminate Hc | by right].
    + apply IH in Hl; try done.
      * intros k' d' H. apply lookup_delete_Some in H as [_ H]. by apply Hkey.
      * destruct Hu as [Hn|[Hc|?]]; [| |by right].
        -- left. destruct (decide (k = u)) as [->|Hne];
             [apply lookup_delete_eq | by rewrite lookup_delete_ne].
        -- injection Hc as ->. left. apply lookup_delete_eq.
Qed.

End WatchedFilesFacts.

(** X8. A batch of [Deleted] events removes the records of the named files
    from the store and leaves every other record as it was; the scan that
    ends the handler has no file to scan, so no file is read. *)
Theorem deleted_files_leave_the_store :
  forall fs accepted parse settings sched asTextDocument fuel changes
         (store : gmap string ScssDocument),
    (forall queue, sched queue ≡ₚ queue) ->
    (forall c, In c changes -> fe_type c = Deleted) ->
    exists st,
      onDidChangeWatchedFiles fs accepted parse settings sched asTextDocument
        (S fuel) changes store = Some (Completed st)
      /\ st_reads st = []
      /\ forall u, (In u (map fe_uri changes) -> st_store st !! u = None)
                   /\ (~ In u (map fe_uri changes) -> st_store st !! u = store !! u).
Proof.
  intros fs accepted parse settings sched asTextDocument fuel changes store Hperm Hdel.
  destruct (loop_deletes parse asTextDocument changes store [] Hdel)
    as (store' & Hl & Hs).
  exists (mkScanState store' []). unfold onDidChangeWatchedFiles. rewrite Hl.
  split; [by apply scan_nothing|]. by split.
Qed.

Lemma deleted_files_leave_the_store_witness :
  exists st,
    onDidChangeWatchedFiles goneFs acceptedScss (parseScss goneFs) followImports fifo
      asPlainText 1 [mkFileEvent variablesUri Deleted] staleStore
    = Some (Completed st)
    /\ st_reads st = []
    /\ forall u, (In u [variablesUri] -> st_store st !! u = None)
                 /\ (~ In u [variablesUri] -> st_store st !! u = staleStore !! u).
Proof.
  apply (deleted_files_leave_the_store goneFs acceptedScss (parseScss goneFs)
           followImports fifo asPlainText 0 [mkFileEvent variablesUri Deleted]
           staleStore).
  - intros queue. reflexivity.
  - intros c [<-|[]]. reflexivity.
Defined.

(** X9. A batch of [Changed] events for files that are in the store hands
    the stored documents to [update] and reads no file: when no parse fails
    the handler completes without a call of [readFile], nothing is scanned,
    and every file that was in the store still is. When the files of the
    batch are distinct (and the store is keyed by the URI of its documents,
    which they keep as text documents), the record of each of them is the
    parse of the document that was stored, and every other record is as it
    was. *)
Theorem changed_files_are_not_read :
  forall fs accepted parse settings sched asTextDocument fuel changes
         (store : gmap string ScssDocument),
    (forall queue, sched queue ≡ₚ queue) ->
    (forall d, exists r, parse d = Ok r) ->
    (forall c, In c changes -> fe_type c = Changed) ->
    (forall c, In c changes -> is_Some (store !! fe_uri c)) ->
    exists st,
      onDidChangeWatchedFiles fs accepted parse settings sched asTextDocument
        (S fuel) changes store = Some (Completed st)
      /\ st_reads st = []
      /\ (forall u, is_Some (store !! u) -> is_Some (st_store st !! u))
      /\ ((forall d, td_uri (asTextDocument d) = d_uri d) ->
          (forall k d, store !! k = Some d -> d_uri d = k) ->
          NoDup (map fe_uri changes) ->
          forall u,
            (In u (map fe_uri changes) ->
             exists d r, store !! u = Some d /\ parse (asTextDocument d) = Ok r
                         /\ st_store st !! u = Some r)
            /\ (~ In u (map fe_uri changes) -> st_store st !! u = store !! u)).
Proof.
  intros fs accepted parse settings sched asTextDocument fuel changes store
    Hperm Hparse Hch Hin.
  destruct (loop_changes parse asTextDocument changes store store Hparse Hch Hin)
    as (store' & Hl & Hs); [done|].
  exists (mkScanState store' []). unfold onDidChangeWatchedFiles. rewrite Hl.
  split; [by apply scan_nothing|]. split; [done|]. split; [done|].
  intros Hast Hkey Hnd.
  destruct (loop_reparses parse asTextDocument changes store store Hast Hkey Hparse
              Hch Hin Hnd) as (store'' & Hl' & Hs'); [done|].
  rewrite Hl in Hl'. injection Hl' as <-. exact Hs'.
Qed.

Lemma changed_files_are_not_read_witness :
  exists st,
    onDidChangeWatchedFiles goneFs acceptedScss (parseScss goneFs) followImports fifo
      asPlainText 1 [mkFileEvent variablesUri Changed] staleStore
    = Some (Completed st)
    /\ st_reads st = []
    /\ (forall u, is_Some (staleStore !! u) -> is_Some (st_store st !! u))
    /\ ((forall d, td_uri (asPlainText d) = d_uri d) ->
        (forall k d, staleStore !! k = Some d -> d_uri d = k) ->
        NoDup (map fe_uri [mkFileEvent variablesUri Changed]) ->
        forall u,
          (In u (map fe_uri [mkFileEvent variablesUri Changed]) ->
           exists d r, staleStore !! u = Some d
                       /\ parseScss goneFs (asPlainText d) = Ok r
                       /\ st_store st !! u = Some r)
          /\ (~ In u (map fe_uri [mkFileEvent variablesUri Changed]) ->
              st_store st !! u = staleStore !! u)).
Proof.
  apply (changed_files_are_not_read goneFs acceptedScss (parseScss goneFs)
           followImports fifo asPlainText 0 [mkFileEvent variablesUri Changed]
           staleStore).
  - intros queue. reflexivity.
  - intros d. eexists. reflexivity.
  - intros c [<-|[]]. reflexivity.
  - intros c [<-|[]]. eexists. reflexivity.
Defined.

(** X10. A file that a batch deletes and that is gone from the file system
    is not in the store when the handler completes, whatever else the batch
    changes or creates and whatever the scan of the new files finds: the
    loop does not bring it back and the scanner writes no record for a file
    that does not exist. The store is keyed by the URI of its documents and
    parsing keeps the URI. *)
Theorem deleted_gone_file_stays_out :
  forall fs accepted parse settings sched asTextDocument fuel changes
         (store : gmap string ScssDocument) u st,
    (forall d, td_uri (asTextDocument d) = d_uri d) ->
    (forall doc r, parse doc = Ok r -> d_uri r = td_uri doc) ->
    (forall k d, store !! k = Some d -> d_uri d = k) ->
    In (mkFileEvent u Deleted) changes ->
    fsExists fs u = false ->
    onDidChangeWatchedFiles fs accepted parse settings sched asTextDocument
      fuel changes store = Some (Completed st) ->
    st_store st !! u = None.
Proof.
  intros fs accepted parse settings sched asTextDocument fuel changes store u st
    Has Hparse Hkey Hdel Hgone Hr.
  unfold onDidChangeWatchedFiles in Hr.
  destruct (fold_left (watchChange parse asTextDocument) changes (Pending store []))
    as [store' newFiles|m store'] eqn:Hl; [|discriminate Hr].
  assert (Hu : store' !! u = None).
  { apply (loop_deleted_stays_out parse asTextDocument u changes store []
             Has Hparse Hkey (or_intror Hdel) store' newFiles Hl). }
  apply (drain_keeps_absent fs accepted parse settings sched fuel _
           (mkScanState store' []) (Completed st) u Hgone Hu Hr).
Qed.

Lemma deleted_gone_file_stays_out_witness :
  exists st,
    onDidChangeWatchedFiles goneFs acceptedScss (parseScss goneFs) followImports fifo
      asPlainText 3
      [mkFileEvent variablesUri Deleted; mkFileEvent indexUri Created] staleStore
    = Some (Completed st)
    /\ st_store st !! variablesUri = None
    /\ is_Some (st_store st !! indexUri).
Proof.
  eexists. split; [vm_compute; reflexivity|]. split.
  - apply (deleted_gone_file_stays_out goneFs acceptedScss (parseScss goneFs)
             followImports fifo asPlainText 3
             [mkFileEvent variablesUri Deleted; mkFileEvent indexUri Created]
             staleStore variablesUri).
    + reflexivity.
    + intros doc r H. injection H as <-. reflexivity.
    + intros k d H. unfold staleStore in H.
      apply lookup_singleton_Some in H as [<- <-]. reflexivity.
    + simpl. by left.
    + by vm_compute.
    + vm_compute. reflexivity.
  - eexists. vm_compute. reflexivity.
Defined.

(** X11. When the [update] of a changed file throws, the handler rejects
    with that error at once: the changes after it are not looked at, no scan
    is started and no file is read, and what the changes before it did to
    the store stays done. *)
Theorem failed_update_stops_the_batch :
  forall fs accepted parse settings sched asTextDocument fuel pre post
         (store store1 : gmap string ScssDocument) newFiles u d m,
    fold_left (watchChange parse asTextDocument) pre (Pending store [])
    = Pending store1 newFiles ->
    store1 !! u = Some d ->
    parse (asTextDocument d) = Err m ->
    onDidChangeWatchedFiles fs accepted parse settings sched asTextDocument fuel
      (pre ++ mkFileEvent u Changed :: post) store
    = Some (Rejected m (mkScanState store1 [])).
Proof.
  intros fs accepted parse settings sched asTextDocument fuel pre post store store1
    newFiles u d m Hpre Hu Hp.
  unfold onDidChangeWatchedFiles. rewrite fold_left_app, Hpre. cbn [fold_left].
  rewrite (watch_changed parse asTextDocument store1 newFiles _ d) by done.
  unfold update. rewrite Hp. by rewrite thrown_stays.
Qed.

Lemma failed_update_stops_the_batch_witness :
  onDidChangeWatchedFiles goneFs acceptedScss (strictParse goneFs) followImports fifo
    asPlainText 3
    ([mkFileEvent otherUri Deleted]
       ++ mkFileEvent variablesUri Changed :: [mkFileEvent indexUri Created])
    staleStore
  = Some (Rejected "empty document" (mkScanState staleStore [])).
Proof.
  apply (failed_update_stops_the_batch goneFs acceptedScss (strictParse goneFs)
           followImports fifo asPlainText 3 [mkFileEvent otherUri Deleted]
           [mkFileEvent indexUri Created] staleStore staleStore []
           variablesUri (documentOf variablesUri [plainVariable "$var" "1px"])
           "empty document").
  - by vm_compute.
  - by vm_compute.
  - reflexivity.
Defined.

(** ** Configuration and requests *)

(** X12. A change of configuration reaches the requests and not the
    scanner: after [onDidChangeConfiguration] a completion request hands the
    new settings to [doCompletion], while a watched-files batch is still
    handled by the scanner with the settings of the initialization, on the
    same store. *)
Theorem configuration_does_not_reach_the_scanner :
  forall fs accepted parseWith sched asTextDocument (Answer : Type)
         getSCSSRegionsDocument
         (doCompletion : TextDocument -> nat -> ISettings ->
                         gmap string ScssDocument -> Answer)
         settings somesass fuel files l notes,
    initialize fs accepted parseWith sched settings fuel files = Some (l, notes) ->
    (forall fuel' changes,
       watchedFiles fs accepted parseWith sched asTextDocument fuel' changes
         (onDidChangeConfiguration somesass l)
       = onDidChangeWatchedFiles fs accepted (parseWith settings) settings sched
           asTextDocument fuel' changes (l_storage l))
    /\ (forall (documents : gmap string TextDocument) uri position textDocument
               document offset,
          documents !! uri = Some textDocument ->
          getSCSSRegionsDocument textDocument position = Some (document, offset) ->
          onCompletion Answer getSCSSRegionsDocument doCompletion documents
            (onDidChangeConfiguration somesass l) uri position
          = Answered (doCompletion document offset somesass (l_storage l))).
Proof.
  intros fs accepted parseWith sched asTextDocument Answer getSCSSRegionsDocument
    doCompletion settings somesass fuel files l notes Hinit.
  unfold initialize in Hinit.
  destruct (onInitialized fs accepted (parseWith settings) settings sched fuel files)
    as [[st notes']|]; [|discriminate Hinit].
  injection Hinit as <- <-. split.
  - intros fuel' changes. reflexivity.
  - intros documents uri position textDocument document offset Hd Hr.
    unfold onCompletion. by rewrite Hd, Hr.
Qed.

Lemma configuration_does_not_reach_the_scanner_witness :
  exists l notes,
    initialize exampleFs acceptedScss (fun _ => parseScss exampleFs) fifo
      followImports 3 [] = Some (l, notes)
    /\ exists st,
         watchedFiles exampleFs acceptedScss (fun _ => parseScss exampleFs) fifo
           asPlainText 3 [mkFileEvent indexUri Created]
           (onDidChangeConfiguration seedsOnly l) = Some (Completed st)
         /\ dom (st_store st) = {[ indexUri; variablesUri ]}.
Proof.
  destruct (initialize exampleFs acceptedScss (fun _ => parseScss exampleFs) fifo
              followImports 3 []) as [[l notes]|] eqn:H;
    [|vm_compute in H; discriminate H].
  exists l, notes. split; [reflexivity|].
  rewrite (proj1 (configuration_does_not_reach_the_scanner exampleFs acceptedScss
                    (fun _ => parseScss exampleFs) fifo asPlainText ISettings
                    (fun d _ => Some (d, 0)) (fun _ _ s _ => s)
                    followImports seedsOnly 3 [] l notes H)).
  vm_compute in H. injection H as <- _.
  eexists. split; [vm_compute; reflexivity|]. by vm_compute.
Defined.

(** ** Runs of the change handler *)

Section HandlerRuns.
Variable parse : TextDocument -> result ScssDocument.
Variable doDiagnostics : TextDocument -> gmap string ScssDocument -> list Diagnostic.

Local Notation "'run'" := (runEvents parse doDiagnostics).
Local Notation "'next'" := (step parse doDiagnostics).

Lemma changesOf_app a b : changesOf (a ++ b) = changesOf a ++ changesOf b.
Proof.
  induction a as [|e a IH]; [done|]. destruct e; simpl; by rewrite ?IH.
Qed.

Lemma count_snoc {A} (p : A -> bool) l x :
  length (List.filter p (l ++ [x]))
  = length (List.filter p l) + (if p x then 1 else 0).
Proof.
  rewrite List.filter_app, length_app. simpl. by destruct (p x).
Qed.

Lemma count_le {A} (p : A -> bool) l : length (List.filter p l) <= length l.
Proof. induction l as [|x l IH]; simpl; [lia|]. destruct (p x); simpl; lia. Qed.

Lemma count_impl {A} (p q : A -> bool) l :
  (forall x, p x = true -> q x = true) ->
  length (List.filter p l) <= length (List.filter q l).
Proof.
  intros H. induction l as [|x l IH]; simpl; [lia|].
  destruct (p x) eqn:E; [rewrite (H x E); simpl; lia|].
  destruct (q x); simpl; lia.
Qed.

Lemma count_fmap {A B} (f : A -> B) (p : B -> bool) l :
  length (List.filter p (f <$> l)) = length (List.filter (fun x => p (f x)) l).
Proof.
  induction l as [|x l IH]; [done|]. cbn [fmap list_fmap List.filter].
  destruct (p (f x)); simpl; by rewrite IH.
Qed.

Lemma count_sublist {A} (p : A -> bool) (l k : list A) :
  l `sublist_of` k -> length (List.filter p l) <= length (List.filter p k).
Proof.
  induction 1 as [|x l k _ IH|x l k _ IH]; simpl; [lia| |].
  - destruct (p x); simpl; lia.
  - destruct (p x); simpl; lia.
Qed.

(** A handler for which [p] did not hold is replaced. *)
Lemma count_insert (p : Handler -> bool) (l : list Handler) : forall i h h',
  l !! i = Some h -> p h = false ->
  length (List.filter p (<[i := h']> l))
  = length (List.filter p l) + (if p h' then 1 else 0).
Proof.
  induction l as [|x l IH]; intros i h h' Hi Hh; [done|].
  destruct i as [|i]; simpl in *.
  - injection Hi as ->. rewrite Hh. destruct (p h'); simpl; lia.
  - destruct (p x); simpl; rewrite (IH i h h' Hi Hh); lia.
Qed.

Lemma run_snoc s events e : run s (events ++ [e]) = next (run s events) e.
Proof. unfold runEvents. by rewrite fold_left_app. Qed.

Lemma run_cons s events e : run s (e :: events) = run (next s e) events.
Proof. done. Qed.

Lemma run_app s a b : run s (a ++ b) = run (run s a) b.
Proof. unfold runEvents. by rewrite fold_left_app. Qed.

(** What a step does, by cases. *)
Lemma step_effect s e : Effect parse s (next s e) e.
Proof.
  destruct e as [document|document|uri|i]; simpl.
  - by eapply (HandlerCalled _ _ _ _ _ document); [left| | | | | |].
  - destruct (documents s !! td_uri document) as [o|] eqn:Ho.
    + destruct (objects s !! o) as [synced|] eqn:Hs.
      * eapply (HandlerCalled _ _ _ _ _ document); [by right|done..| |done|done|done].
        intros K. simpl. destruct (K _ _ Ho) as (d & Hd & Hu).
        rewrite Hs in Hd. injection Hd as <-. rewrite Hu. by destruct document.
      * apply NothingDone; [|done..]. right; right. by exists document, o.
    + apply NothingDone; [|done..]. right; left. by exists document.
  - apply NothingDone; [by left|done..].
  - destruct (handlers s !! i) as [h|] eqn:Hi; [|by apply NothingDone; [left|..]].
    destruct (h_phase h) as [|diagnostics|] eqn:Hp; [| |by apply NothingDone; [left|..]].
    + unfold afterUpdate, update.
      destruct (parse (h_given h)) as [record|m] eqn:E.
      * by eapply (UpdateDone _ _ _ _ i h record).
      * by eapply (UpdateFailed _ _ _ _ i h m).
    + unfold afterDiagnostics.
      destruct (documents s !! td_uri (live s h)) as [o|] eqn:Ho;
        [|by eapply (DiagnosticsDropped _ _ _ _ i h)].
      destruct (objects s !! o) as [latest|] eqn:Hl;
        [|by eapply (DiagnosticsDropped _ _ _ _ i h)].
      destruct (Z.eqb (td_version latest) (td_version (live s h)));
        [by eapply (DiagnosticsSent _ _ _ _ i h diagnostics o latest)
        |by eapply (DiagnosticsDropped _ _ _ _ i h)].
Qed.

(** The synchronized documents, which the handlers do not touch. *)
Lemma resume_documents s i :
  objects (next s (Resume i)) = objects s
  /\ documents (next s (Resume i)) = documents s.
Proof.
  simpl. destruct (handlers s !! i) as [h|]; [|done].
  destruct (h_phase h) as [|diagnostics|]; [| |done].
  - unfold afterUpdate. by destruct (update parse (h_given h) (storage s)).
  - unfold afterDiagnostics.
    destruct (match documents s !! td_uri (live s h) with
              | Some o => objects s !! o
              | None => None
              end) as [latest|]; [|done].
    by destruct (Z.eqb (td_version latest) (td_version (live s h))).
Qed.

(** The objects stay under their URI. *)
Lemma keyed_step s e : keyedByUri s -> keyedByUri (next s e).
Proof.
  intros K. destruct e as [document|document|u|i].
  - intros uri o H. simpl in H |- *.
    apply lookup_insert_Some in H as [[<- <-]|[_ H]].
    + exists document. split; [|done]. by rewrite lookup_app_r, Nat.sub_diag.
    + destruct (K _ _ H) as (d & Hd & Hu). exists d. split; [|done].
      by apply lookup_app_l_Some.
  - simpl. destruct (documents s !! td_uri document) as [o|] eqn:Ho; [|done].
    destruct (objects s !! o) as [synced|] eqn:Hs; [|done].
    intros uri o' H. simpl in H |- *. destruct (K _ _ H) as (d & Hd & Hu).
    destruct (decide (o = o')) as [<-|Hne].
    + rewrite Hs in Hd. injection Hd as <-. eexists. split.
      * apply list_lookup_insert_eq. by apply lookup_lt_Some in Hs.
      * exact Hu.
    + exists d. split; [|done]. by rewrite list_lookup_insert_ne.
  - intros uri o H. simpl in H |- *. apply lookup_delete_Some in H as [_ H].
    by apply K.
  - destruct (resume_documents s i) as [Ho Hd]. intros uri o H.
    rewrite Hd in H. rewrite Ho. by apply K.
Qed.

Lemma keyed_run events : keyedByUri (run initialServer events).
Proof.
  induction events as [|e events IH] using rev_ind.
  - intros uri d H. done.
  - rewrite run_snoc. by apply keyed_step.
Qed.

Lemma unreturned h phase : h_phase h = phase -> phase <> Returned -> isReturned h = false.
Proof. unfold isReturned. intros -> H. by destruct phase. Qed.

(** A handler whose phase changes is called with what it was called with. *)
Lemma given_insert (l : list Handler) i h phase :
  l !! i = Some h ->
  h_given <$> <[i := mkHandler (h_document h) (h_given h) phase]> l = h_given <$> l.
Proof.
  intros Hi. rewrite list_fmap_insert. cbn [h_given].
  apply list_insert_id. by rewrite list_lookup_fmap, Hi.
Qed.

Lemma changes_one e d : e = DidOpen d \/ e = DidChange d -> changesOf [e] = [d].
Proof. by intros [-> | ->]. Qed.

(** What a run keeps true, one event at a time. *)
Lemma send_step events s e :
  SendInv events s -> SendInv (events ++ [e]) (next s e).
Proof.
  intros (Hlen & Hle & Hpub). unfold SendInv. rewrite changesOf_app, length_app.
  destruct (step_effect s e)
    as [h d He Hh Hp Hg Hs Ho Hpb | He Hh Hs Ho Hpb
       | i h m He Hi Hp Hm Hh Hs Ho Hpb | i h record diagnostics He Hi Hp Hm Hh Hs Ho Hpb
       | i h diagnostics o latest He Hi Hp Hd Hl Hh Hs Ho Hpb
       | i h diagnostics He Hi Hp Hh Hs Ho Hpb];
    rewrite Hh, Ho, Hpb.
  - rewrite (changes_one e d He), length_app, count_snoc.
    unfold isReturned at 2. rewrite Hp. simpl. lia.
  - lia.
  - rewrite length_insert, count_snoc.
    rewrite (count_insert isReturned _ i h _ Hi (unreturned h _ Hp ltac:(done))).
    simpl. lia.
  - rewrite length_insert.
    rewrite (count_insert isReturned _ i h _ Hi (unreturned h _ Hp ltac:(done))).
    simpl. lia.
  - rewrite length_insert, count_snoc.
    rewrite (count_insert isReturned _ i h _ Hi (unreturned h _ Hp ltac:(done))).
    simpl. lia.
  - rewrite length_insert.
    rewrite (count_insert isReturned _ i h _ Hi (unreturned h _ Hp ltac:(done))).
    simpl. lia.
Qed.

Lemma send_run events : SendInv events (run initialServer events).
Proof.
  induction events as [|e events IH] using rev_ind.
  - unfold SendInv. simpl. lia.
  - rewrite run_snoc. by apply send_step.
Qed.

(** The handlers and the changes of a run. *)
Lemma handlers_step events s e :
  keyedByUri s -> HandlersInv events s -> HandlersInv (events ++ [e]) (next s e).
Proof.
  intros K HI. unfold HandlersInv. rewrite changesOf_app.
  assert (Hweak : (h_given <$> handlers s) `sublist_of` changesOf events ++ changesOf [e]).
  { rewrite <- (app_nil_r (h_given <$> handlers s)).
    apply sublist_app; [done | apply sublist_nil_l]. }
  destruct (step_effect s e)
    as [h d He Hh Hp Hg Hs Ho Hpb | He Hh Hs Ho Hpb
       | i h m He Hi Hp Hm Hh Hs Ho Hpb | i h record diagnostics He Hi Hp Hm Hh Hs Ho Hpb
       | i h diagnostics o latest He Hi Hp Hd Hl Hh Hs Ho Hpb
       | i h diagnostics He Hi Hp Hh Hs Ho Hpb];
    rewrite Hh; rewrite ?(given_insert _ i h _ Hi); try done.
  rewrite fmap_app, (changes_one e d He). cbn [fmap list_fmap]. rewrite (Hg K).
  by apply sublist_app.
Qed.

Lemma handlers_run events : HandlersInv events (run initialServer events).
Proof.
  induction events as [|e events IH] using rev_ind.
  - apply sublist_nil_l.
  - rewrite run_snoc. apply handlers_step; [apply keyed_run | done].
Qed.

Lemma handler_given events s i h :
  HandlersInv events s -> handlers s !! i = Some h -> In (h_given h) (changesOf events).
Proof.
  intros HI Hi. apply list_elem_of_In. eapply elem_of_sublist; [|exact HI].
  apply list_elem_of_fmap. exists h. split; [done|]. by eapply list_elem_of_lookup_2.
Qed.

(** The store and the changes of a run. *)
Lemma store_step events s e :
  HandlersInv events s -> StoreInv parse events s ->
  StoreInv parse (events ++ [e]) (next s e).
Proof.
  intros HI SI.
  assert (Hweak : forall uri record, storage s !! uri = Some record ->
            exists d, In d (changesOf (events ++ [e])) /\ td_uri d = uri
                      /\ parse d = Ok record).
  { intros uri record H. destruct (SI uri record H) as (d & Hd & Hu & Hp).
    exists d. rewrite changesOf_app, in_app_iff. auto. }
  intros uri record.
  destruct (step_effect s e)
    as [h d He Hh Hp Hg Hs Ho Hpb | He Hh Hs Ho Hpb
       | i h m He Hi Hp Hm Hh Hs Ho Hpb | i h r diagnostics He Hi Hp Hm Hh Hs Ho Hpb
       | i h diagnostics o latest He Hi Hp Hd Hl Hh Hs Ho Hpb
       | i h diagnostics He Hi Hp Hh Hs Ho Hpb];
    rewrite Hs; try apply Hweak.
  intros H. destruct (decide (td_uri (h_given h) = uri)) as [E|Hne].
  - rewrite <- E, lookup_insert_eq in H. injection H as <-.
    exists (h_given h). split; [|done].
    rewrite changesOf_app, in_app_iff. left. by apply (handler_given events s i).
  - rewrite lookup_insert_ne in H by done. by apply Hweak.
Qed.

Lemma store_run events : StoreInv parse events (run initialServer events).
Proof.
  induction events as [|e events IH] using rev_ind.
  - intros uri record H. done.
  - rewrite run_snoc. apply store_step; [apply handlers_run|done].
Qed.

(** While a document is closed, no event but an opening or a change of it
    puts it back or sends diagnostics for it. *)
Lemma closed_step uri s e :
  keyedByUri s -> documents s !! uri = None ->
  (forall d, In d (changesOf [e]) -> td_uri d <> uri) ->
  documents (next s e) !! uri = None
  /\ List.filter (isSendFor uri) (outbox (next s e))
     = List.filter (isSendFor uri) (outbox s).
Proof.
  intros K Hclosed Hother. split.
  - destruct e as [document|document|u|i].
    + simpl. rewrite lookup_insert_ne; [done|]. apply Hother. by left.
    + simpl. destruct (documents s !! td_uri document) as [o|]; [|done].
      by destruct (objects s !! o).
    + simpl. apply lookup_delete_None. by right.
    + by destruct (resume_documents s i) as [_ ->].
  - destruct (step_effect s e)
      as [h d He Hh Hp Hg Hs Ho Hpb | He Hh Hs Ho Hpb
         | i h m He Hi Hp Hm Hh Hs Ho Hpb | i h r diagnostics He Hi Hp Hm Hh Hs Ho Hpb
         | i h diagnostics o latest He Hi Hp Hd Hl Hh Hs Ho Hpb
         | i h diagnostics He Hi Hp Hh Hs Ho Hpb];
      rewrite Ho; try done.
    + rewrite List.filter_app. simpl. by rewrite app_nil_r.
    + rewrite List.filter_app. simpl.
      destruct (String.eqb (td_uri latest) uri) eqn:E; [|by rewrite app_nil_r].
      apply String.eqb_eq in E. destruct (K _ _ Hd) as (d' & Hd' & Hu).
      rewrite Hl in Hd'. injection Hd' as <-. rewrite <- Hu, E, Hclosed in Hd. done.
Qed.

Lemma closed_run uri : forall post s,
  keyedByUri s -> documents s !! uri = None -> noChangeOf uri post ->
  List.filter (isSendFor uri) (outbox (run s post))
  = List.filter (isSendFor uri) (outbox s).
Proof.
  induction post as [|e post IH]; intros s K Hclosed Hnone; [done|].
  rewrite run_cons.
  destruct (closed_step uri s e K Hclosed) as [Hc Ho].
  { intros d Hd. apply Hnone. change (e :: post) with ([e] ++ post).
    rewrite changesOf_app, in_app_iff. by left. }
  rewrite IH, Ho; [done|by apply keyed_step|done|].
  intros d Hd. apply Hnone. change (e :: post) with ([e] ++ post).
  rewrite changesOf_app, in_app_iff. by right.
Qed.

(** Failures, one event at a time. *)
Lemma failure_step s e : FailureInv parse s -> FailureInv parse (next s e).
Proof.
  intros (Hwait & Hsend & Herr & Hlog).
  assert (Hwell : forall h phase, h_phase h = phase -> phase <> Returned ->
                                  returnedWell parse h = false).
  { intros h phase Hp Hne. unfold returnedWell. by rewrite (unreturned h phase Hp Hne). }
  assert (Hbad : forall h phase, h_phase h = phase -> phase <> Returned ->
                                 returnedBadly parse h = false).
  { intros h phase Hp Hne. unfold returnedBadly. by rewrite (unreturned h phase Hp Hne). }
  assert (Hkeep : forall i h phase j h',
            handlers s !! i = Some h ->
            <[i := mkHandler (h_document h) (h_given h) phase]> (handlers s) !! j = Some h' ->
            (j = i /\ h' = mkHandler (h_document h) (h_given h) phase)
            \/ (j <> i /\ handlers s !! j = Some h')).
  { intros i h phase j h' Hi Hj. destruct (decide (i = j)) as [->|Hne].
    - left. rewrite list_lookup_insert_eq in Hj by (by apply lookup_lt_Some in Hi).
      by injection Hj as <-.
    - right. rewrite list_lookup_insert_ne in Hj by done. by split; [intros ->|]. }
  assert (Hlogged : forall i h phase m,
            handlers s !! i = Some h ->
            (exists j h', handlers s !! j = Some h' /\ parse (h_given h') = Err m) ->
            exists j h',
              <[i := mkHandler (h_document h) (h_given h) phase]> (handlers s) !! j
              = Some h' /\ parse (h_given h') = Err m).
  { intros i h phase m Hi (j & h' & Hj & Hm). destruct (decide (i = j)) as [->|Hne].
    - rewrite Hi in Hj. injection Hj as <-.
      exists j, (mkHandler (h_document h) (h_given h) phase). split; [|exact Hm].
      apply list_lookup_insert_eq. by apply lookup_lt_Some in Hi.
    - exists j, h'. split; [|done]. by rewrite list_lookup_insert_ne. }
  assert (Hreturned : forall o g,
            returnedWell parse (mkHandler o g Returned) = parses parse g) by done.
  assert (Hreturned' : forall o g,
            returnedBadly parse (mkHandler o g Returned) = negb (parses parse g)) by done.
  unfold FailureInv.
  destruct (step_effect s e)
    as [h d He Hh Hp Hg Hs Ho Hpb | He Hh Hs Ho Hpb
       | i h m He Hi Hp Hm Hh Hs Ho Hpb | i h r diagnostics He Hi Hp Hm Hh Hs Ho Hpb
       | i h diagnostics o latest He Hi Hp Hd Hl Hh Hs Ho Hpb
       | i h diagnostics He Hi Hp Hh Hs Ho Hpb];
    rewrite Hh, Ho.
  - rewrite !count_snoc, (Hwell h _ Hp), (Hbad h _ Hp) by done.
    split; [|split; [lia|split; [lia|]]].
    + intros j h' diagnostics Hj Hph. apply lookup_app_Some in Hj as [Hj|[_ Hj]].
      * by apply (Hwait j h' diagnostics).
      * apply list_lookup_singleton_Some in Hj as [_ <-]. congruence.
    + intros m Hm. destruct (Hlog m Hm) as (j & h' & Hj & Hp').
      exists j, h'. split; [by apply lookup_app_l_Some | done].
  - done.
  - assert (Hparses : parses parse (h_given h) = false)
      by (unfold parses; by rewrite Hm).
    rewrite !count_snoc.
    rewrite (count_insert (returnedWell parse) _ i h _ Hi (Hwell h _ Hp ltac:(done))).
    rewrite (count_insert (returnedBadly parse) _ i h _ Hi (Hbad h _ Hp ltac:(done))).
    rewrite Hreturned, Hreturned', Hparses. simpl.
    split; [|split; [lia|split; [lia|]]].
    + intros j h' diagnostics Hj Hph.
      destruct (Hkeep i h _ j h' Hi Hj) as [[_ ->]|[_ Hj']]; [done|].
      by apply (Hwait j h' diagnostics).
    + intros m' Hin. apply in_app_iff in Hin as [Hin|[Hin|[]]].
      * by apply Hlogged, Hlog.
      * injection Hin as <-.
        exists i, (mkHandler (h_document h) (h_given h) Returned). split; [|exact Hm].
        apply list_lookup_insert_eq. by apply lookup_lt_Some in Hi.
  - rewrite (count_insert (returnedWell parse) _ i h _ Hi (Hwell h _ Hp ltac:(done))).
    rewrite (count_insert (returnedBadly parse) _ i h _ Hi (Hbad h _ Hp ltac:(done))).
    rewrite (Hwell (mkHandler (h_document h) (h_given h) (AwaitDiagnostics diagnostics))
               _ eq_refl ltac:(done)).
    rewrite (Hbad (mkHandler (h_document h) (h_given h) (AwaitDiagnostics diagnostics))
               _ eq_refl ltac:(done)).
    split; [|split; [lia|split; [lia|]]].
    + intros j h' diagnostics' Hj Hph.
      destruct (Hkeep i h _ j h' Hi Hj) as [[_ ->]|[_ Hj']].
      * unfold parses. cbn [h_given]. by rewrite Hm.
      * by apply (Hwait j h' diagnostics').
    + intros m' Hin. by apply Hlogged, Hlog.
  - pose proof (Hwait i h diagnostics Hi Hp) as Hparses.
    rewrite !count_snoc.
    rewrite (count_insert (returnedWell parse) _ i h _ Hi (Hwell h _ Hp ltac:(done))).
    rewrite (count_insert (returnedBadly parse) _ i h _ Hi (Hbad h _ Hp ltac:(done))).
    rewrite Hreturned, Hreturned', Hparses. simpl.
    split; [|split; [lia|split; [lia|]]].
    + intros j h' diagnostics' Hj Hph.
      destruct (Hkeep i h _ j h' Hi Hj) as [[_ ->]|[_ Hj']]; [done|].
      by apply (Hwait j h' diagnostics').
    + intros m' Hin. apply in_app_iff in Hin as [Hin|[Hin|[]]]; [|done].
      by apply Hlogged, Hlog.
  - pose proof (Hwait i h diagnostics Hi Hp) as Hparses.
    rewrite (count_insert (returnedWell parse) _ i h _ Hi (Hwell h _ Hp ltac:(done))).
    rewrite (count_insert (returnedBadly parse) _ i h _ Hi (Hbad h _ Hp ltac:(done))).
    rewrite Hreturned, Hreturned', Hparses. simpl.
    split; [|split; [lia|split; [lia|]]].
    + intros j h' diagnostics' Hj Hph.
      destruct (Hkeep i h _ j h' Hi Hj) as [[_ ->]|[_ Hj']]; [done|].
      by apply (Hwait j h' diagnostics').
    + intros m' Hin. by apply Hlogged, Hlog.
Qed.

Lemma failure_run events : FailureInv parse (run initialServer events).
Proof.
  induction events as [|e events IH] using rev_ind.
  - unfold FailureInv. simpl. repeat split; try lia; try done.
  - rewrite run_snoc. by apply failure_step.
Qed.

(** X13. In [documents.onDidChangeContent] of server.ts: along any run of the
    server from its start, no more diagnostics notifications have gone out
    than documents were opened or changed, whatever the order in which the
    suspended handlers are resumed and however often; each one that went
    out is logged once. *)
Theorem one_notification_per_change_at_most : forall events,
  length (List.filter isSend (outbox (run initialServer events)))
    <= length (changesOf events)
  /\ length (published (run initialServer events))
     = length (List.filter isSend (outbox (run initialServer events))).
Proof.
  intros events. destruct (send_run events) as (Hlen & Hle & Hpub).
  split; [|done].
  pose proof (count_le isReturned (handlers (run initialServer events))). lia.
Qed.

(** X14. In [documents.onDidChangeContent] of server.ts: the change handler
    is the only writer of the store in a run: every record in it is the
    parse of a document as it was opened or changed during the run, kept
    under that document's URI. *)
Theorem store_holds_parsed_changes : forall events uri record,
  storage (run initialServer events) !! uri = Some record ->
  exists d, In d (changesOf events) /\ td_uri d = uri /\ parse d = Ok record.
Proof. intros events uri record H. by apply (store_run events). Qed.

(** X15. In [documents.onDidChangeContent] of server.ts: once a document is
    closed, the handlers still suspended for it send nothing: until the
    document is opened again, no diagnostics go out for its URI. *)
Theorem closed_document_gets_no_diagnostics : forall pre post uri,
  noChangeOf uri post ->
  List.filter (isSendFor uri) (outbox (run initialServer (pre ++ DidClose uri :: post)))
  = List.filter (isSendFor uri) (outbox (run initialServer pre)).
Proof.
  intros pre post uri Hnone. rewrite run_app, run_cons.
  rewrite closed_run; [done| |by apply lookup_delete_eq|done].
  apply keyed_step, keyed_run.
Qed.

(** X16. In [documents.onDidChangeContent] of server.ts: a document whose
    [update] fails gets an error on the console and no diagnostics. When the
    awaited [update] of a handler throws, the handler logs the message of
    the error with [console.error] and returns, leaving the store and what
    was sent as they were. Along any run, no more diagnostics have gone out
    than documents that parse were opened or changed, no more errors have
    been logged than documents that do not parse were, and every error
    logged is the message of the failed parse of a document of the run. *)
Theorem failed_updates_are_logged_not_diagnosed : forall events,
  let s := run initialServer events in
  length (List.filter isSend (outbox s))
    <= length (List.filter (parses parse) (changesOf events))
  /\ length (List.filter isConsoleError (outbox s))
     <= length (List.filter (fun d => negb (parses parse d)) (changesOf events))
  /\ (forall m, In (ConsoleError m) (outbox s) ->
        exists d, In d (changesOf events) /\ parse d = Err m)
  /\ (forall i h m,
        handlers s !! i = Some h -> h_phase h = AwaitUpdate ->
        parse (h_given h) = Err m ->
        outbox (next s (Resume i)) = outbox s ++ [ConsoleError m]
        /\ storage (next s (Resume i)) = storage s
        /\ handlers (next s (Resume i))
           = <[i := mkHandler (h_document h) (h_given h) Returned]> (handlers s)
        /\ next (next s (Resume i)) (Resume i) = next s (Resume i)).
Proof.
  intros events s.
  destruct (failure_run events) as (_ & Hsend & Herr & Hlog).
  pose proof (handlers_run events) as HI. fold s in Hsend, Herr, Hlog, HI.
  split; [|split; [|split]].
  - etransitivity; [exact Hsend|].
    etransitivity; [|apply (count_sublist _ _ _ HI)].
    rewrite count_fmap. apply count_impl. intros h H.
    unfold returnedWell in H. by apply andb_true_iff in H as [_ H].
  - etransitivity; [exact Herr|].
    etransitivity;
      [|apply (count_sublist (fun d => negb (parses parse d)) _ _ HI)].
    rewrite count_fmap. apply count_impl. intros h H.
    unfold returnedBadly in H. by apply andb_true_iff in H as [_ H].
  - intros m Hm. destruct (Hlog m Hm) as (i & h & Hi & Hp).
    exists (h_given h). split; [|done]. by apply (handler_given events s i).
  - intros i h m Hi Hp Hm.
    assert (E : next s (Resume i)
                = mkServerState (objects s) (documents s) (storage s)
                    (<[i := mkHandler (h_document h) (h_given h) Returned]> (handlers s))
                    (outbox s ++ [ConsoleError m]) (published s)).
    { simpl. rewrite Hi, Hp. unfold afterUpdate, update. by rewrite Hm. }
    rewrite E. repeat split. simpl.
    by rewrite list_lookup_insert_eq by (by apply lookup_lt_Some in Hi).
Qed.

End HandlerRuns.

Lemma store_holds_parsed_changes_witness :
  exists d, In d (changesOf overtaking) /\ td_uri d = indexUri
            /\ parseScss exampleFs d
               = Ok (Parser.parseDocument exampleFs firstVersion).
Proof.
  apply (store_holds_parsed_changes (parseScss exampleFs) echoDiagnostics
           overtaking indexUri).
  by vm_compute.
Defined.

Lemma closed_document_gets_no_diagnostics_witness :
  noChangeOf indexUri [Resume 0]
  /\ List.filter (isSendFor indexUri)
       (outbox (runEvents (parseScss exampleFs) echoDiagnostics initialServer
                  ([DidOpen firstVersion; Resume 0] ++ DidClose indexUri :: [Resume 0])))
     = [].
Proof.
  assert (H : noChangeOf indexUri [Resume 0]) by (intros d Hd; destruct Hd).
  split; [exact H|].
  exact (closed_document_gets_no_diagnostics (parseScss exampleFs) echoDiagnostics
           [DidOpen firstVersion; Resume 0] [Resume 0] indexUri H).
Defined.

Lemma failed_updates_are_logged_not_diagnosed_witness :
  let s := runEvents (strictParse exampleFs) echoDiagnostics initialServer
             [DidOpen blankVersion] in
  let s' := step (strictParse exampleFs) echoDiagnostics s (Resume 0) in
  outbox s' = outbox s ++ [ConsoleError "empty document"]
  /\ storage s' = storage s
  /\ handlers s' = <[0 := mkHandler 0 blankVersion Returned]> (handlers s)
  /\ step (strictParse exampleFs) echoDiagnostics s' (Resume 0) = s'.
Proof.
  exact (proj2 (proj2 (proj2
           (failed_updates_are_logged_not_diagnosed (strictParse exampleFs)
              echoDiagnostics [DidOpen blankVersion])))
           0 (mkHandler 0 blankVersion AwaitUpdate) "empty document"
           eq_refl eq_refl eq_refl).
Defined.
